(** * One-time passwords (HOTP, RFC 4226 and TOTP, RFC 6238)

    A shallow embedding of package [OTP]: the configuration record
    [OneTimePassword], its constructor [New], the code generators [HOTP]
    and [TOTP], the time-step converter [steps], the dynamic truncation
    [dt] / [truncate], and the helpers [GOTP], [GTimeLeft] and [PPrint].

    Go values are modelled as follows.
    - [int], [int64], [uint], [uint64] and [time.Duration] are [Z], with the
      wrap-around of the machine type written out ([uint] and [int] are the
      64-bit types of a 64-bit platform);
    - [[]byte] is [list byte]; a Go [string] is a Rocq [string] (both are
      sequences of 8-bit bytes);
    - a run-time panic is the [Panic] outcome of [result];
    - several results [(v, err)] are a pair whose second component is an
      [option] (Go's [nil] is [None]);
    - [float64] values are the rationals they denote, every operation
      rounding to nearest-even on 53 bits (module [Float64]);
    - the standard library (crypto/sha1, crypto/md5, crypto/sha256,
      crypto/hmac, encoding/base32, strings.TrimSpace, fmt, strconv, time) is
      modelled by
      executable definitions that follow the library's documented
      behaviour. *)

From Stdlib Require Import ZArith NArith List String Ascii Bool Lia.
From Stdlib Require Import Strings.Byte.
From Stdlib Require Import QArith Qround Qpower Lqa.
Import ListNotations.

Local Open Scope Z_scope.

(** ** Outcomes of a call *)

Inductive panic : Set :=
| IndexOutOfRange
| SliceOutOfRange
| DivideByZero
| NilDereference.

Inductive result (A : Type) : Type :=
| Ok (a : A)
| Panic (p : panic).

Arguments Ok {A} a.
Arguments Panic {A} p.

Definition bind {A B : Type} (r : result A) (k : A -> result B) : result B :=
  match r with
  | Ok a => k a
  | Panic p => Panic p
  end.

Notation "'let*' x ':=' r 'in' k" := (bind r (fun x => k))
  (at level 10, x name, r at level 100, k at level 200).

(** ** Machine integers *)

Definition wrap_uint64 (z : Z) : Z := z mod 2 ^ 64.

Definition wrap_int64 (z : Z) : Z := (z + 2 ^ 63) mod 2 ^ 64 - 2 ^ 63.

Definition maxInt64 : Z := 2 ^ 63 - 1.
Definition minInt64 : Z := - 2 ^ 63.

Definition byte_to_Z (b : byte) : Z := Z.of_N (Byte.to_N b).

Definition byte_of_N (n : N) : byte :=
  match Byte.of_N (n mod 256)%N with
  | Some b => b
  | None => x00
  end.

Definition byte_of_Z (z : Z) : byte := byte_of_N (Z.to_N (z mod 256)).

(** ** IEEE 754 binary64, on the rationals

    A finite [float64] is modelled by the rational it denotes.  [round] is
    rounding to nearest, ties to even, to a 53-bit significand with the
    exponent bounded below by that of the subnormals.  Overflow to an
    infinity is outside the model: every operand below comes from a 64-bit
    integer, so magnitudes stay under [2^94].  The only division whose
    divisor can be zero is the one of [steps]; its result is then not
    finite, which [div] reports as [None]. *)

Module Float64.

Local Open Scope Q_scope.

Definition pow2 (e : Z) : Q := (2 # 1) ^ e.

(** For [0 < x], the exponent [e] with [2^e <= x < 2^(e+1)]. *)
Definition ilog2 (x : Q) : Z :=
  let l := (Z.log2 (Qnum x) - Z.log2 (Zpos (Qden x)))%Z in
  if Qle_bool (pow2 l) x then l else (l - 1)%Z.

(** Nearest integer, ties to even. *)
Definition rne (x : Q) : Z :=
  let f := Qfloor x in
  match ((x - inject_Z f) ?= (1 # 2))%Q with
  | Lt => f
  | Gt => (f + 1)%Z
  | Eq => if Z.even f then f else (f + 1)%Z
  end.

Definition round_pos (x : Q) : Q :=
  let e := Z.max (ilog2 x - 52) (-1074) in
  inject_Z (rne (x / pow2 e)) * pow2 e.

Definition round (x : Q) : Q :=
  match x ?= 0 with
  | Eq => 0
  | Gt => round_pos x
  | Lt => - round_pos (- x)
  end.

(** [float64(z)] for an integer [z]. *)
Definition of_int (z : Z) : Q := round (inject_Z z).

Definition add (x y : Q) : Q := round (x + y).

(** [x / y]; [None] stands for a result that is not finite. *)
Definition div (x y : Q) : option Q :=
  if Qeq_bool y 0 then None else Some (round (x / y)).

(** Truncation toward zero, the integer part a conversion keeps. *)
Definition trunc (x : Q) : Z := Z.quot (Qnum x) (Zpos (Qden x)).

End Float64.

(** *** Conversions that the language leaves to the implementation

    "If the value cannot be represented by the type the result is
    implementation-dependent": such a conversion does not panic, it yields
    some value of the target type.  The platform's choice is a parameter of
    the development. *)

Section Platform.

Variable unrepresentable : option Q -> Z.

(** [uint64(f)] and [uint(f)] for a [float64] [f]. *)
Definition float_to_uint64 (f : option Q) : Z :=
  match f with
  | Some q =>
      let t := Float64.trunc q in
      if (0 <=? t) && (t <? 2 ^ 64) then t else wrap_uint64 (unrepresentable f)
  | None => wrap_uint64 (unrepresentable f)
  end.

(** [math.Pow(10, y)] at an integral [y].  The library computes the power
    by repeated squaring of the significand; every intermediate product is
    [5^k / 2^j] with [5^k < 2^53] as long as [0 <= y <= 22], so the result
    is the exact power there; for a negative [y] it lies strictly between
    0 and 1 (or is 0).  Elsewhere the exact power stands for the rounded
    one, which is only ever handed to an out-of-range conversion. *)
Definition Pow10 (y : Q) : Q := ((10 # 1) ^ Qfloor y)%Q.

End Platform.

(** ** Hash functions (crypto/sha1, crypto/md5, crypto/sha256) and HMAC
    (crypto/hmac) *)

Module Word32.

Local Open Scope N_scope.

Definition mask : N := 0xffffffff.

Definition add (x y : N) : N := (x + y) mod 2 ^ 32.
Definition not (x : N) : N := N.lxor x mask.
Definition rotl (n x : N) : N :=
  N.lor ((N.shiftl x n) mod 2 ^ 32) (N.shiftr x (32 - n)).

Definition of_be (b0 b1 b2 b3 : byte) : N :=
  N.lor (N.shiftl (Byte.to_N b0) 24)
    (N.lor (N.shiftl (Byte.to_N b1) 16)
       (N.lor (N.shiftl (Byte.to_N b2) 8) (Byte.to_N b3))).

Definition of_le (b0 b1 b2 b3 : byte) : N := of_be b3 b2 b1 b0.

Definition to_be (w : N) : list byte :=
  [byte_of_N (N.shiftr w 24); byte_of_N (N.shiftr w 16);
   byte_of_N (N.shiftr w 8); byte_of_N w].

Definition to_le (w : N) : list byte := rev (to_be w).

(** The [n] low bytes of [x], most significant first. *)
Fixpoint be_bytes (n : nat) (x : N) : list byte :=
  match n with
  | O => []
  | S n' => be_bytes n' (N.shiftr x 8) ++ [byte_of_N x]
  end.

End Word32.

(** A hash function as crypto/hmac uses it: the block size, and the digest
    of a whole message ([Write] of the message followed by [Sum(nil)]). *)
Record HashFn : Type := {
  BlockSize : nat;
  Sum : list byte -> list byte
}.

Module Padding.

(** Merkle-Damgard padding to 64-byte blocks: 0x80, zeros up to 56 mod 64,
    then the bit length on 8 bytes, written by [len_bytes]. *)
Definition pad (len_bytes : N -> list byte) (msg : list byte) : list byte :=
  let n := List.length msg in
  let zeros := ((64 + 55 - n mod 64) mod 64)%nat in
  msg ++ [x80] ++ repeat x00 zeros ++ len_bytes (8 * N.of_nat n)%N.

(** The 4-byte words of a block, read by [word]. *)
Fixpoint words (word : byte -> byte -> byte -> byte -> N) (bs : list byte)
  : list N :=
  match bs with
  | b0 :: b1 :: b2 :: b3 :: r => word b0 b1 b2 b3 :: words word r
  | _ => []
  end.

(** Fold [compress] over the 64-byte blocks of [bs]. *)
Fixpoint blocks {S : Type} (compress : S -> list byte -> S)
  (fuel : nat) (bs : list byte) (s : S) : S :=
  match fuel with
  | O => s
  | Datatypes.S fuel' =>
      match bs with
      | [] => s
      | _ => blocks compress fuel' (skipn 64 bs) (compress s (firstn 64 bs))
      end
  end.

End Padding.

Module SHA1.

Local Open Scope N_scope.
Import Word32.

Definition state : Type := (N * N * N * N * N)%type.

Definition init : state :=
  (0x67452301, 0xefcdab89, 0x98badcfe, 0x10325476, 0xc3d2e1f0).

(** The message schedule, newest word first: 16 words of the block, then
    [w t = rotl 1 (w (t-3) xor w (t-8) xor w (t-14) xor w (t-16))]. *)
Fixpoint schedule (n : nat) (rw : list N) : list N :=
  match n with
  | O => rw
  | S n' =>
      let w := rotl 1 (N.lxor (N.lxor (nth 2 rw 0) (nth 7 rw 0))
                         (N.lxor (nth 13 rw 0) (nth 15 rw 0))) in
      schedule n' (w :: rw)
  end.

Definition f (t : nat) (b c d : N) : N :=
  if (t <? 20)%nat then N.lor (N.land b c) (N.land (not b) d)
  else if (t <? 40)%nat then N.lxor (N.lxor b c) d
  else if (t <? 60)%nat then
    N.lor (N.lor (N.land b c) (N.land b d)) (N.land c d)
  else N.lxor (N.lxor b c) d.

Definition k (t : nat) : N :=
  if (t <? 20)%nat then 0x5a827999
  else if (t <? 40)%nat then 0x6ed9eba1
  else if (t <? 60)%nat then 0x8f1bbcdc
  else 0xca62c1d6.

Fixpoint rounds (t : nat) (ws : list N) (s : state) : state :=
  match ws with
  | [] => s
  | w :: ws' =>
      let '(a, b, c, d, e) := s in
      let tmp := add (add (add (add (rotl 5 a) (f t b c d)) e) w) (k t) in
      rounds (S t) ws' (tmp, a, rotl 30 b, c, d)
  end.

Definition compress (s : state) (block : list byte) : state :=
  let ws := rev (schedule 64 (rev (Padding.words of_be block))) in
  let '(a, b, c, d, e) := s in
  let '(a', b', c', d', e') := rounds 0 ws s in
  (add a a', add b b', add c c', add d d', add e e').

Definition sum (msg : list byte) : list byte :=
  let bs := Padding.pad (be_bytes 8) msg in
  let '(a, b, c, d, e) := Padding.blocks compress (List.length bs) bs init in
  to_be a ++ to_be b ++ to_be c ++ to_be d ++ to_be e.

(** [sha1.New]. *)
Definition New : HashFn := {| BlockSize := 64; Sum := sum |}.

End SHA1.

Module MD5.

Local Open Scope N_scope.
Import Word32.

Definition state : Type := (N * N * N * N)%type.

Definition init : state := (0x67452301, 0xefcdab89, 0x98badcfe, 0x10325476).

(** [floor (2^32 * |sin (i + 1)|)] for [i] from 0 to 63. *)
Definition K : list N :=
  [0xd76aa478; 0xe8c7b756; 0x242070db; 0xc1bdceee;
   0xf57c0faf; 0x4787c62a; 0xa8304613; 0xfd469501;
   0x698098d8; 0x8b44f7af; 0xffff5bb1; 0x895cd7be;
   0x6b901122; 0xfd987193; 0xa679438e; 0x49b40821;
   0xf61e2562; 0xc040b340; 0x265e5a51; 0xe9b6c7aa;
   0xd62f105d; 0x02441453; 0xd8a1e681; 0xe7d3fbc8;
   0x21e1cde6; 0xc33707d6; 0xf4d50d87; 0x455a14ed;
   0xa9e3e905; 0xfcefa3f8; 0x676f02d9; 0x8d2a4c8a;
   0xfffa3942; 0x8771f681; 0x6d9d6122; 0xfde5380c;
   0xa4beea44; 0x4bdecfa9; 0xf6bb4b60; 0xbebfbc70;
   0x289b7ec6; 0xeaa127fa; 0xd4ef3085; 0x04881d05;
   0xd9d4d039; 0xe6db99e5; 0x1fa27cf8; 0xc4ac5665;
   0xf4292244; 0x432aff97; 0xab9423a7; 0xfc93a039;
   0x655b59c3; 0x8f0ccc92; 0xffeff47d; 0x85845dd1;
   0x6fa87e4f; 0xfe2ce6e0; 0xa3014314; 0x4e0811a1;
   0xf7537e82; 0xbd3af235; 0x2ad7d2bb; 0xeb86d391].

Definition shifts : list N :=
  [7; 12; 17; 22; 7; 12; 17; 22; 7; 12; 17; 22; 7; 12; 17; 22;
   5; 9; 14; 20; 5; 9; 14; 20; 5; 9; 14; 20; 5; 9; 14; 20;
   4; 11; 16; 23; 4; 11; 16; 23; 4; 11; 16; 23; 4; 11; 16; 23;
   6; 10; 15; 21; 6; 10; 15; 21; 6; 10; 15; 21; 6; 10; 15; 21].

Definition f (i : nat) (b c d : N) : N :=
  if (i <? 16)%nat then N.lor (N.land b c) (N.land (not b) d)
  else if (i <? 32)%nat then N.lor (N.land d b) (N.land (not d) c)
  else if (i <? 48)%nat then N.lxor (N.lxor b c) d
  else N.lxor c (N.lor b (not d)).

Definition g (i : nat) : nat :=
  if (i <? 16)%nat then i
  else if (i <? 32)%nat then ((5 * i + 1) mod 16)%nat
  else if (i <? 48)%nat then ((3 * i + 5) mod 16)%nat
  else ((7 * i) mod 16)%nat.

Fixpoint rounds (n i : nat) (m : list N) (s : state) : state :=
  match n with
  | O => s
  | S n' =>
      let '(a, b, c, d) := s in
      let x := add (add (add a (f i b c d)) (nth i K 0)) (nth (g i) m 0) in
      rounds n' (S i) m (d, add b (rotl (nth i shifts 0) x), b, c)
  end.

Definition compress (s : state) (block : list byte) : state :=
  let '(a, b, c, d) := s in
  let '(a', b', c', d') := rounds 64 0 (Padding.words of_le block) s in
  (add a a', add b b', add c c', add d d').

Definition sum (msg : list byte) : list byte :=
  let bs := Padding.pad (fun n => rev (be_bytes 8 n)) msg in
  let '(a, b, c, d) := Padding.blocks compress (List.length bs) bs init in
  to_le a ++ to_le b ++ to_le c ++ to_le d.

(** [md5.New]. *)
Definition New : HashFn := {| BlockSize := 64; Sum := sum |}.

End MD5.

Module SHA256.

Local Open Scope N_scope.
Import Word32.

Definition state : Type := (N * N * N * N * N * N * N * N)%type.

(** The first 64 primes. *)
Definition primes : list N :=
  [2; 3; 5; 7; 11; 13; 17; 19; 23; 29; 31; 37; 41; 43; 47; 53; 59; 61; 67;
   71; 73; 79; 83; 89; 97; 101; 103; 107; 109; 113; 127; 131; 137; 139; 149;
   151; 157; 163; 167; 173; 179; 181; 191; 193; 197; 199; 211; 223; 227;
   229; 233; 239; 241; 251; 257; 263; 269; 271; 277; 281; 283; 293; 307;
   311].

(** The integer cube root, by bisection between [lo] and [hi]. *)
Fixpoint cbrt_between (fuel : nat) (lo hi n : N) : N :=
  match fuel with
  | O => lo
  | S fuel' =>
      if hi - lo <=? 1 then lo
      else
        let mid := (lo + hi) / 2 in
        if mid * mid * mid <=? n then cbrt_between fuel' mid hi n
        else cbrt_between fuel' lo mid n
  end.

(** The first 32 bits of the fractional part of the square root, and of the
    cube root, of [p]. *)
Definition frac_sqrt (p : N) : N := N.sqrt (p * 2 ^ 64) mod 2 ^ 32.
Definition frac_cbrt (p : N) : N :=
  cbrt_between 64 0 (2 ^ 40) (p * 2 ^ 96) mod 2 ^ 32.

(** The initial state: the square roots of the first 8 primes. *)
Definition init : state :=
  Eval vm_compute in
    (let h := fun i => frac_sqrt (nth i primes 0) in
     (h 0%nat, h 1%nat, h 2%nat, h 3%nat, h 4%nat, h 5%nat, h 6%nat, h 7%nat)).

(** The round constants: the cube roots of the first 64 primes. *)
Definition K : list N := Eval vm_compute in map frac_cbrt primes.

Definition rotr (n x : N) : N := rotl (32 - n) x.

Definition Sigma0 (x : N) : N := N.lxor (N.lxor (rotr 2 x) (rotr 13 x)) (rotr 22 x).
Definition Sigma1 (x : N) : N := N.lxor (N.lxor (rotr 6 x) (rotr 11 x)) (rotr 25 x).
Definition sigma0 (x : N) : N :=
  N.lxor (N.lxor (rotr 7 x) (rotr 18 x)) (N.shiftr x 3).
Definition sigma1 (x : N) : N :=
  N.lxor (N.lxor (rotr 17 x) (rotr 19 x)) (N.shiftr x 10).

Definition Ch (x y z : N) : N := N.lxor (N.land x y) (N.land (not x) z).
Definition Maj (x y z : N) : N :=
  N.lxor (N.lxor (N.land x y) (N.land x z)) (N.land y z).

(** The message schedule, newest word first: 16 words of the block, then
    [w t = sigma1 (w (t-2)) + w (t-7) + sigma0 (w (t-15)) + w (t-16)]. *)
Fixpoint schedule (n : nat) (rw : list N) : list N :=
  match n with
  | O => rw
  | S n' =>
      let w := add (add (add (sigma1 (nth 1 rw 0)) (nth 6 rw 0))
                      (sigma0 (nth 14 rw 0))) (nth 15 rw 0) in
      schedule n' (w :: rw)
  end.

Fixpoint rounds (t : nat) (ws : list N) (s : state) : state :=
  match ws with
  | [] => s
  | w :: ws' =>
      let '(a, b, c, d, e, f, g, h) := s in
      let t1 := add (add (add (add h (Sigma1 e)) (Ch e f g)) (nth t K 0)) w in
      let t2 := add (Sigma0 a) (Maj a b c) in
      rounds (S t) ws' (add t1 t2, a, b, c, add d t1, e, f, g)
  end.

Definition compress (s : state) (block : list byte) : state :=
  let ws := rev (schedule 48 (rev (Padding.words of_be block))) in
  let '(a, b, c, d, e, f, g, h) := s in
  let '(a', b', c', d', e', f', g', h') := rounds 0 ws s in
  (add a a', add b b', add c c', add d d', add e e', add f f', add g g',
   add h h').

Definition sum (msg : list byte) : list byte :=
  let bs := Padding.pad (be_bytes 8) msg in
  let '(a, b, c, d, e, f, g, h) :=
    Padding.blocks compress (List.length bs) bs init in
  to_be a ++ to_be b ++ to_be c ++ to_be d ++ to_be e ++ to_be f ++ to_be g
  ++ to_be h.

(** [sha256.New]. *)
Definition New : HashFn := {| BlockSize := 64; Sum := sum |}.

End SHA256.

Module HMAC.

Definition xor_pad (c : N) (key : list byte) : list byte :=
  map (fun b => byte_of_N (N.lxor (Byte.to_N b) c)) key.

(** [hmac.New(h, key)], [Write(msg)], [Sum(nil)]: a key longer than a block
    is hashed first, then copied into a zeroed block. *)
Definition sum (h : HashFn) (key msg : list byte) : list byte :=
  let bs := BlockSize h in
  let key' := if (bs <? List.length key)%nat then Sum h key else key in
  let block := firstn bs (key' ++ repeat x00 bs) in
  let inner := Sum h (xor_pad 0x36 block ++ msg) in
  Sum h (xor_pad 0x5c block ++ inner).

End HMAC.

(** ** Package time *)

Module time.

(** A [Duration] is an [int64] count of nanoseconds. *)
Definition Duration : Type := Z.

Definition Second : Duration := 1000000000.

(** An instant, as [time.Unix(sec, nsec)] builds it: seconds since the Unix
    epoch and nanoseconds within the second, [0 <= nsec < 10^9].  No
    monotonic clock reading is attached. *)
Record Time : Type := { sec : Z; nsec : Z }.

(** [time.Unix(sec, nsec)], which normalises [nsec] into the second. *)
Definition Unix (s n : Z) : Time :=
  {| sec := s + n / Second; nsec := n mod Second |}.

(** The zero [Time], January 1 of year 1. *)
Definition zero : Time := {| sec := -62135596800; nsec := 0 |}.

(** [t.Unix()]. *)
Definition Unix_of (t : Time) : Z := sec t.

(** [t.Sub(u)], which saturates at the ends of [Duration]. *)
Definition Sub (t u : Time) : Duration :=
  Z.max minInt64 (Z.min maxInt64 ((sec t - sec u) * Second + (nsec t - nsec u))).

(** [d.Seconds()]: [float64(d / Second) + float64(d % Second) / 1e9], the
    integer division truncating toward zero. *)
Definition Seconds (d : Duration) : Q :=
  let s := Z.quot d Second in
  let n := Z.rem d Second in
  match Float64.div (Float64.of_int n) (inject_Z 1000000000) with
  | Some f => Float64.add (Float64.of_int s) f
  | None => 0%Q
  end.

End time.

(** ** Package encoding/base32, [StdEncoding.DecodeString] *)

Inductive error : Type :=
| errorString (msg : string)
| CorruptInputError (offset : Z).

Module base32.

Definition padChar : byte := x3d.

(** The value of a symbol of the standard alphabet, [A]-[Z] and [2]-[7]. *)
Definition decodeMap (c : byte) : option Z :=
  let n := byte_to_Z c in
  if (65 <=? n) && (n <=? 90) then Some (n - 65)
  else if (50 <=? n) && (n <=? 55) then Some (n - 24)
  else None.

Definition stripNewlines (src : list byte) : list byte :=
  filter (fun c => negb (Byte.eqb c x0d || Byte.eqb c x0a)) src.

Inductive quantum : Type :=
| Corrupt (offset : Z)
| Symbols (dbuf : list Z) (fin : bool) (rest : list byte).

Definition len (l : list byte) : Z := Z.of_nat (List.length l).

(** The first [k] below [bound] at which [src] holds something else than
    the padding character. *)
Fixpoint bad_padding (bound : nat) (k : Z) (src : list byte) : option Z :=
  match bound, src with
  | S bound', c :: src' =>
      if Byte.eqb c padChar then bad_padding bound' (k + 1) src' else Some k
  | _, _ => None
  end.

(** The inner loop: up to 8 symbols of one quantum.  [todo] is [8 - j] and
    [dbuf] holds the [j] values read so far. *)
Fixpoint read_quantum (olen : Z) (todo : nat) (dbuf : list Z)
  (src : list byte) : quantum :=
  match todo with
  | O => Symbols dbuf false src
  | S todo' =>
      let j := Z.of_nat (List.length dbuf) in
      match src with
      | [] => Corrupt (olen - 0 - j)
      | c :: src' =>
          if Byte.eqb c padChar && (2 <=? j) && (len src' <? 8) then
            if len src' + j <? 8 - 1 then Corrupt olen
            else
              match bad_padding (Z.to_nat (8 - 1 - j)) 0 src' with
              | Some k => Corrupt (olen - len src' + k - 1)
              | None =>
                  if (j =? 1) || (j =? 3) || (j =? 6)
                  then Corrupt (olen - len src' - 1)
                  else Symbols dbuf true src'
              end
          else
            match decodeMap c with
            | None => Corrupt (olen - len src' - 1)
            | Some v => read_quantum olen todo' (dbuf ++ [v]) src'
            end
      end
  end.

(** The bytes that [dlen] symbols yield: 8, 7, 5, 4 and 2 symbols give 5,
    4, 3, 2 and 1 bytes, each computed on 8 bits. *)
Definition pack (dbuf : list Z) : list byte :=
  let d := fun i => nth i dbuf 0 in
  let dlen := List.length dbuf in
  let b0 := byte_of_Z (Z.lor (Z.shiftl (d 0%nat) 3) (Z.shiftr (d 1%nat) 2)) in
  let b1 := byte_of_Z (Z.lor (Z.lor (Z.shiftl (d 1%nat) 6) (Z.shiftl (d 2%nat) 1))
                         (Z.shiftr (d 3%nat) 4)) in
  let b2 := byte_of_Z (Z.lor (Z.shiftl (d 3%nat) 4) (Z.shiftr (d 4%nat) 1)) in
  let b3 := byte_of_Z (Z.lor (Z.lor (Z.shiftl (d 4%nat) 7) (Z.shiftl (d 5%nat) 2))
                         (Z.shiftr (d 6%nat) 3)) in
  let b4 := byte_of_Z (Z.lor (Z.shiftl (d 6%nat) 5) (d 7%nat)) in
  match dlen with
  | 8%nat => [b0; b1; b2; b3; b4]
  | 7%nat => [b0; b1; b2; b3]
  | 5%nat => [b0; b1; b2]
  | 4%nat => [b0; b1]
  | 2%nat => [b0]
  | _ => []
  end.

(** The outer loop, one quantum per turn, as long as input remains and no
    padding was met.  On corrupt input the bytes of the quanta decoded so
    far are returned with the error. *)
Fixpoint decode (fuel : nat) (olen : Z) (src : list byte) (dst : list byte)
  : list byte * option error :=
  match fuel with
  | O => (dst, None)
  | S fuel' =>
      match src with
      | [] => (dst, None)
      | _ =>
          match read_quantum olen 8 [] src with
          | Corrupt off => (dst, Some (CorruptInputError off))
          | Symbols dbuf fin rest =>
              if fin then (dst ++ pack dbuf, None)
              else decode fuel' olen rest (dst ++ pack dbuf)
          end
      end
  end.

Definition DecodeString (s : string) : list byte * option error :=
  let src := stripNewlines (list_byte_of_string s) in
  decode (List.length src) (len src) src [].

End base32.

(** ** Packages strconv, fmt and strings *)

Module strconv.

Definition digit (d : Z) : ascii := ascii_of_N (Z.to_N (48 + d)).

Fixpoint digits (fuel : nat) (v : Z) (acc : string) : string :=
  match fuel with
  | O => acc
  | S fuel' =>
      let acc' := String (digit (v mod 10)) acc in
      if v <? 10 then acc' else digits fuel' (v / 10) acc'
  end.

(** [strconv.FormatUint(v, 10)] for a [uint64] [v]: at most 20 digits. *)
Definition FormatUint (v : Z) : string := digits 20 v "".

End strconv.

Module fmt.

Fixpoint zeros (n : nat) : string :=
  match n with
  | O => ""
  | S n' => String "0" (zeros n')
  end.

(** [fmt.Sprintf("%06s", s)]: [s] padded on the left with zeros to a
    width of 6. *)
Definition Sprintf_06s (s : string) : string :=
  (zeros (6 - String.length s) ++ s)%string.

(** [fmt.Sprintf("%s ", s)]. *)
Definition Sprintf_s_space (s : string) : string := (s ++ " ")%string.

End fmt.

Module strings.

Definition code (c : ascii) : N := N_of_ascii c.

(** White space of one byte: tab, line feed, vertical tab, form feed,
    carriage return and space. *)
Definition space1 (c : ascii) : bool :=
  let n := code c in
  ((9 <=? n) && (n <=? 13) || (n =? 32))%N.

(** UTF-8 of U+0085 and U+00A0. *)
Definition space2 (c d : ascii) : bool :=
  ((code c =? 0xc2) && ((code d =? 0x85) || (code d =? 0xa0)))%N.

(** UTF-8 of U+1680, U+2000 to U+200A, U+2028, U+2029, U+202F, U+205F and
    U+3000. *)
Definition space3 (c d e : ascii) : bool :=
  let '(c, d, e) := (code c, code d, code e) in
  ((c =? 0xe1) && (d =? 0x9a) && (e =? 0x80)
   || (c =? 0xe2) && (d =? 0x80)
      && ((0x80 <=? e) && (e <=? 0x8a) || (e =? 0xa8) || (e =? 0xa9) || (e =? 0xaf))
   || (c =? 0xe2) && (d =? 0x81) && (e =? 0x9f)
   || (c =? 0xe3) && (d =? 0x80) && (e =? 0x80))%N.

(** [strings.TrimLeftFunc(s, unicode.IsSpace)]: drop the leading runes that
    are white space.  A rune is white space exactly when its bytes are one
    of the encodings above; ill-formed UTF-8 decodes to U+FFFD, which is
    not. *)
Fixpoint trim_left (s : list ascii) : list ascii :=
  match s with
  | c :: r =>
      if space1 c then trim_left r
      else
        match r with
        | d :: r' =>
            if space2 c d then trim_left r'
            else
              match r' with
              | e :: r'' => if space3 c d e then trim_left r'' else s
              | [] => s
              end
        | [] => s
        end
  | [] => s
  end.

(** The same from the right, on the reversed string: the last rune is
    found by stepping back to the nearest byte that starts a rune. *)
Fixpoint trim_right_rev (s : list ascii) : list ascii :=
  match s with
  | c :: r =>
      if space1 c then trim_right_rev r
      else
        match r with
        | d :: r' =>
            if space2 d c then trim_right_rev r'
            else
              match r' with
              | e :: r'' => if space3 e d c then trim_right_rev r'' else s
              | [] => s
              end
        | [] => s
        end
  | [] => s
  end.

Definition trim_right (s : list ascii) : list ascii :=
  rev (trim_right_rev (rev s)).

(** [strings.TrimSpace(s)]: leading white space goes first, then trailing
    white space of what remains. *)
Definition TrimSpace (s : string) : string :=
  string_of_list_ascii (trim_right (trim_left (list_ascii_of_string s))).

End strings.

(** ** Package OTP *)

(** [OneTimePassword] stores the configuration values relevant to HOTP/TOTP
    calculations.  [Hash] is a function value, [nil] in the zero value. *)
Record OneTimePassword : Type := {
  Digit : Z;
  TimeStep : time.Duration;
  BaseTime : time.Time;
  Hash : option HashFn
}.

(** The zero value of the struct, what a named result holds when the
    function returns before assigning it. *)
Definition zero_OneTimePassword : OneTimePassword :=
  {| Digit := 0; TimeStep := 0; BaseTime := time.zero; Hash := None |}.

Definition New (digit : Z) : OneTimePassword * option error :=
  if digit <? 6 then
    (zero_OneTimePassword,
     Some (errorString "minimum of 6 digits is required for a valid HTOP code"))
  else if digit >? 9 then
    (zero_OneTimePassword,
     Some (errorString "HTOP code cannot be longer than 9 digits"))
  else
    let step := 30 * time.Second in
    ({| Digit := digit; TimeStep := step; BaseTime := time.Unix 0 0;
        Hash := Some SHA1.New |}, None).

(** [s[i]] on a byte slice. *)
Definition index (s : list byte) (i : Z) : result byte :=
  if (0 <=? i) && (i <? Z.of_nat (List.length s))
  then Ok (nth (Z.to_nat i) s x00)
  else Panic IndexOutOfRange.

(** [s[lo:hi]] on a byte slice whose capacity equals its length.  Go checks
    [hi] against the capacity: the two agree for a digest of 16 bytes, which
    the allocator does not round up, and the check cannot fail for the window
    of [dt] in a digest of 19 bytes or more. *)
Definition slice (s : list byte) (lo hi : Z) : result (list byte) :=
  if (0 <=? lo) && (lo <=? hi) && (hi <=? Z.of_nat (List.length s))
  then Ok (firstn (Z.to_nat (hi - lo)) (skipn (Z.to_nat lo) s))
  else Panic SliceOutOfRange.

Definition dt (hs : list byte) : result (list byte) :=
  let* l := index hs (Z.of_nat (List.length hs) - 1) in
  let offset := Z.land (byte_to_Z l) 0xf in
  let* p := slice hs offset (offset + 4) in
  let* p0 := index p 0 in
  Ok (byte_of_Z (Z.land (byte_to_Z p0) 0x7f) :: tl p).

Definition hmacSum (otp : OneTimePassword) (secret : list byte) (count : Z)
  : result (list byte) :=
  match Hash otp with
  | None => Panic NilDereference
  | Some h => Ok (HMAC.sum h secret (Word32.be_bytes 8 (Z.to_N (wrap_uint64 count))))
  end.

Section Engine.

Variable unrepresentable : option Q -> Z.

Definition truncate (otp : OneTimePassword) (hs : list byte) : result Z :=
  let* sbits := dt hs in
  let* s3 := index sbits 3 in
  let* s2 := index sbits 2 in
  let snum := Z.lor (byte_to_Z s3) (Z.shiftl (byte_to_Z s2) 8) in
  let* s1 := index sbits 1 in
  let* s0 := index sbits 0 in
  let snum := Z.lor snum
                (Z.lor (Z.shiftl (byte_to_Z s1) 16) (Z.shiftl (byte_to_Z s0) 24)) in
  let m := float_to_uint64 unrepresentable
             (Some (Pow10 (Float64.of_int (Digit otp)))) in
  if m =? 0 then Panic DivideByZero else Ok (snum mod m).

(** [HOTP] returns a HOTP code with the given secret and counter. *)
Definition HOTP (otp : OneTimePassword) (secret : list byte) (count : Z)
  : result Z :=
  let* hs := hmacSum otp secret count in
  truncate otp hs.

Definition steps (otp : OneTimePassword) (now : time.Time) : Z :=
  let elapsed := wrap_int64 (time.Unix_of now - time.Unix_of (BaseTime otp)) in
  float_to_uint64 unrepresentable
    (Float64.div (Float64.of_int elapsed) (time.Seconds (TimeStep otp))).

(** [TOTP], the reading [now] of the clock made explicit. *)
Definition TOTP (otp : OneTimePassword) (secret : list byte) (now : time.Time)
  : result Z :=
  HOTP otp secret (steps otp now).

(** [GOTP]: both results are assigned whatever the decoder reports. *)
Definition GOTP (otp : OneTimePassword) (secret : string) (now : time.Time)
  : result (string * option error) :=
  let '(sec_decoded, err) := base32.DecodeString secret in
  let* v := TOTP otp sec_decoded now in
  let code := fmt.Sprintf_06s (strconv.FormatUint (wrap_uint64 v)) in
  Ok (code, err).

(** The local variables of [GTimeLeft]. *)
Definition secsSinceBase (otp : OneTimePassword) (now : time.Time) : Z :=
  float_to_uint64 unrepresentable
    (Some (time.Seconds (time.Sub now (BaseTime otp)))).

Definition secStep (otp : OneTimePassword) : Z :=
  float_to_uint64 unrepresentable (Some (time.Seconds (TimeStep otp))).

(** [GTimeLeft], the reading [now] of the clock made explicit. *)
Definition GTimeLeft (otp : OneTimePassword) (now : time.Time) : result Z :=
  if secStep otp =? 0 then Panic DivideByZero
  else
    let secsRemaining :=
      wrap_uint64 (secStep otp - secsSinceBase otp now mod secStep otp) in
    Ok (wrap_int64 secsRemaining).

End Engine.

(** [PPrint]: the loop runs as long as [code[offset:]] has 3 bytes or more;
    its state is that suffix and the accumulated [pcode]. *)
Fixpoint PPrint_loop (rest : string) (pcode : string) : string * string :=
  match rest with
  | String a (String b (String c rest')) =>
      PPrint_loop rest'
        (pcode ++ fmt.Sprintf_s_space (String a (String b (String c ""))))
  | _ => (rest, pcode)
  end.

Definition PPrint (code : string) : string :=
  let '(rest, pcode) := PPrint_loop code "" in
  strings.TrimSpace (pcode ++ rest).

(** * Definitions used by the statements *)

(** The secret of the RFC 4226 (Appendix D) test vectors, and the codes the
    RFC lists for the counters 0 to 9. *)
Definition rfc4226_secret : list byte :=
  list_byte_of_string "12345678901234567890".

Definition rfc4226_codes : list Z :=
  [755224; 287082; 359152; 969429; 338314; 254676; 287922; 162583; 399871;
   520489].

(** The same secret in base32, as RFC 6238 implementations take it. *)
Definition rfc6238_secret_base32 : string := "GEZDGNBVGY3TQOJQGEZDGNBVGY3TQOJQ".

(** Configurations built as a struct literal. *)
Definition otp_md5 : OneTimePassword :=
  {| Digit := 6; TimeStep := 30 * time.Second; BaseTime := time.Unix 0 0;
     Hash := Some MD5.New |}.

Definition otp_1100ms : OneTimePassword :=
  {| Digit := 6; TimeStep := 1100000000; BaseTime := time.Unix 0 0;
     Hash := Some SHA1.New |}.

Definition otp_500ms : OneTimePassword :=
  {| Digit := 6; TimeStep := 500000000; BaseTime := time.Unix 0 0;
     Hash := Some SHA1.New |}.

(** A platform whose out-of-range conversions yield 0. *)
Definition platform0 : option Q -> Z := fun _ => 0.

(** The range of the code, as stated for one call of [HOTP]. *)
Definition HOTP_in_range (u : option Q -> Z) (otp : OneTimePassword)
  (secret : list byte) (count : Z) : Prop :=
  exists v, HOTP u otp secret count = Ok v /\ 0 <= v < 10 ^ Digit otp.

(** The time elapsed from the base time to [now], in nanoseconds, as an
    unbounded integer. *)
Definition elapsed_ns (otp : OneTimePassword) (now : time.Time) : Z :=
  (time.sec now - time.sec (BaseTime otp)) * time.Second
  + (time.nsec now - time.nsec (BaseTime otp)).

(** The counter as the specification words it: the floor of the elapsed
    time in seconds divided by the step in seconds, both exact. *)
Definition steps_spec (otp : OneTimePassword) (now : time.Time) : Z :=
  Qfloor ((inject_Z (elapsed_ns otp now) / inject_Z time.Second)
          / (inject_Z (TimeStep otp) / inject_Z time.Second)).

(** The counter of one call of [steps], as stated: the floor, as a
    non-negative 64-bit integer. *)
Definition steps_is_floor (u : option Q -> Z) (otp : OneTimePassword)
  (now : time.Time) : Prop :=
  steps u otp now = steps_spec otp now /\ 0 <= steps u otp now < 2 ^ 64.

(** The remaining time as the specification words it, for a step of whole
    seconds: the step less the whole seconds elapsed modulo the step. *)
Definition time_left_spec (otp : OneTimePassword) (now : time.Time) : Z :=
  let step_seconds := TimeStep otp / time.Second in
  let seconds_since_base := elapsed_ns otp now / time.Second in
  step_seconds - seconds_since_base mod step_seconds.

(** Further configurations built as a struct literal: a step of 1.5 s, a
    base time one nanosecond before a whole second, and no base time at all
    (the zero [Time]). *)
Definition otp_1500ms : OneTimePassword :=
  {| Digit := 6; TimeStep := 1500000000; BaseTime := time.Unix 0 0;
     Hash := Some SHA1.New |}.

Definition otp_late_base : OneTimePassword :=
  {| Digit := 6; TimeStep := 30 * time.Second; BaseTime := time.Unix 0 999999999;
     Hash := Some SHA1.New |}.

Definition otp_zero_base : OneTimePassword :=
  {| Digit := 6; TimeStep := 30 * time.Second; BaseTime := time.zero;
     Hash := Some SHA1.New |}.

(** The exponent of the last place of a positive [float64], and the largest
    fraction of a second as a [float64]. *)
Definition fexp (x : Q) : Z := Z.max (Float64.ilog2 x - 52) (-1074).

Definition frac_max : Q := Float64.round (999999999 # 1000000000).

Local Open Scope string_scope.

(** Grouping as the specification words it: chunks of 3 characters from the
    left, the last group holding what remains. *)
Fixpoint chunks3 (code : string) : list string :=
  match code with
  | String a (String b (String c rest)) =>
      let g := String a (String b (String c "")) in
      match rest with
      | "" => [g]
      | _ => g :: chunks3 rest
      end
  | "" => []
  | _ => [code]
  end.

Definition format_grouped (code : string) : string :=
  String.concat " " (chunks3 code).

(** Whether the groups leave no remainder: the loop then ends on a
    separator. *)
Fixpoint full_groups (code : string) : bool :=
  match code with
  | String a (String b (String c rest)) =>
      match rest with
      | "" => true
      | _ => full_groups rest
      end
  | _ => false
  end.

Definition leading_space (s : list ascii) : bool :=
  match s with
  | c :: r =>
      strings.space1 c
      || match r with
         | d :: r' =>
             strings.space2 c d
             || match r' with
                | e :: _ => strings.space3 c d e
                | [] => false
                end
         | [] => false
         end
  | [] => false
  end.

Definition trailing_space_rev (s : list ascii) : bool :=
  match s with
  | c :: r =>
      strings.space1 c
      || match r with
         | d :: r' =>
             strings.space2 d c
             || match r' with
                | e :: _ => strings.space3 e d c
                | [] => false
                end
         | [] => false
         end
  | [] => false
  end.

(** The string starts, or ends, with the UTF-8 encoding of a white-space
    rune. *)
Definition has_leading_space (s : string) : bool :=
  leading_space (list_ascii_of_string s).
Definition has_trailing_space (s : string) : bool :=
  trailing_space_rev (rev (list_ascii_of_string s)).

(** Strings of decimal digits. *)
Definition is_digit (c : ascii) : bool :=
  ((48 <=? N_of_ascii c) && (N_of_ascii c <=? 57))%N.

Fixpoint all_digits (s : string) : bool :=
  match s with
  | "" => true
  | String c r => is_digit c && all_digits r
  end.

(** What the loop of [PPrint] has built before the result is trimmed. *)
Definition untrimmed (code : string) : string :=
  snd (PPrint_loop code "") ++ fst (PPrint_loop code "").

Definition sp : ascii := " "%char.

Local Close Scope string_scope.

(** The configuration of [Example_custom]: 9 digits, steps of 5 seconds
    counted from midnight, January 1, 2000 UTC (10957 days after the epoch),
    and SHA-256. *)
Definition otp_custom : OneTimePassword :=
  {| Digit := 9; TimeStep := 5 * time.Second;
     BaseTime := time.Unix (10957 * 86400) 0; Hash := Some SHA256.New |}.

(** A configuration built with a negative digit count. *)
Definition otp_negative : OneTimePassword :=
  {| Digit := -1; TimeStep := 30 * time.Second; BaseTime := time.Unix 0 0;
     Hash := Some SHA1.New |}.

(** The value of a byte string read most significant byte first. *)
Definition be_value (bs : list byte) : Z :=
  fold_left (fun acc b => acc * 256 + byte_to_Z b) bs 0.

(** The window of the dynamic truncation as a number: the 4 bytes from the
    offset that the low 4 bits of the last byte give, most significant
    first, without the top bit. *)
Definition window_value (hs : list byte) : Z :=
  let l := nth (List.length hs - 1) hs x00 in
  let offset := Z.to_nat (Z.land (byte_to_Z l) 0xf) in
  (byte_to_Z (nth offset hs x00) mod 128) * 2 ^ 24
  + byte_to_Z (nth (offset + 1) hs x00) * 2 ^ 16
  + byte_to_Z (nth (offset + 2) hs x00) * 2 ^ 8
  + byte_to_Z (nth (offset + 3) hs x00).

(** A string without its space characters. *)
Fixpoint remove_spaces (s : string) : string :=
  match s with
  | EmptyString => EmptyString
  | String c r =>
      if Ascii.eqb c " " then remove_spaces r else String c (remove_spaces r)
  end.

(** The instant [k] whole seconds after [t]. *)
Definition after (t : time.Time) (k : Z) : time.Time :=
  {| time.sec := time.sec t + k; time.nsec := time.nsec t |}.

(** * Facts about the model *)

(** ** Rounding *)

Module Float64Facts.
Import Float64.
Local Open Scope Q_scope.

Lemma pow2_pos e : 0 < pow2 e.
Proof. apply Qpower_0_lt. reflexivity. Qed.

Lemma pow2_add a b : pow2 (a + b) == pow2 a * pow2 b.
Proof. apply Qpower_plus. discriminate. Qed.

Lemma pow2_le a b : (a <= b)%Z -> pow2 a <= pow2 b.
Proof. intros H. apply Qpower_le_compat_l; [exact H | discriminate]. Qed.

Lemma pow2_Z n : (0 <= n)%Z -> pow2 n == inject_Z (2 ^ n).
Proof. intros H. unfold pow2. rewrite (Zpower_Qpower 2 n H). reflexivity. Qed.

Lemma pow2_succ e : pow2 (e + 1) == 2 * pow2 e.
Proof. rewrite pow2_add. unfold pow2 at 2. simpl. ring. Qed.

Lemma pow2_0 : pow2 0 == 1.
Proof. reflexivity. Qed.

Lemma div_pow2 x e : x / pow2 e == x * pow2 (- e).
Proof.
  unfold Qdiv. apply Qmult_comp; [reflexivity|].
  unfold pow2. rewrite Qpower_opp. reflexivity.
Qed.

Lemma pow2_cancel e : pow2 (- e) * pow2 e == 1.
Proof. rewrite <- pow2_add. replace (- e + e)%Z with 0%Z by ring. reflexivity. Qed.

(** [ilog2] *)

Lemma ilog2_spec x : 0 < x -> pow2 (ilog2 x) <= x /\ x < pow2 (ilog2 x + 1).
Proof.
  intros Hx. destruct x as [n d].
  assert (Hn : (0 < n)%Z) by (unfold Qlt in Hx; simpl in Hx; lia).
  unfold ilog2. cbn [Qnum Qden].
  set (a := Z.log2 n). set (b := Z.log2 (Zpos d)).
  destruct (Z.log2_spec n Hn) as [Ha1 Ha2]. fold a in Ha1, Ha2.
  destruct (Z.log2_spec (Zpos d) eq_refl) as [Hb1 Hb2]. fold b in Hb1, Hb2.
  assert (Ha0 : (0 <= a)%Z) by apply Z.log2_nonneg.
  assert (Hb0 : (0 <= b)%Z) by apply Z.log2_nonneg.
  assert (Hl : pow2 (a - b) * inject_Z (2 ^ b) == inject_Z (2 ^ a)).
  { rewrite <- !pow2_Z by lia. rewrite <- pow2_add. replace (a - b + b)%Z with a by ring. reflexivity. }
  assert (Hpb : 0 < inject_Z (2 ^ b)).
  { rewrite <- pow2_Z by lia. apply pow2_pos. }
  pose proof (pow2_pos (a - b)) as Hp.
  assert (Hxd : (n # d) * inject_Z (Zpos d) == inject_Z n).
  { unfold Qeq, Qmult, inject_Z. cbn [Qnum Qden]. rewrite ?Pos2Z.inj_mul. ring. }
  assert (Hd : 0 < inject_Z (Zpos d)) by reflexivity.
  assert (HA1 : inject_Z (2 ^ a) <= inject_Z n) by (rewrite <- Zle_Qle; lia).
  assert (HA2 : inject_Z n < 2 * inject_Z (2 ^ a)).
  { replace 2 with (inject_Z 2) by reflexivity. rewrite <- inject_Z_mult, <- Zlt_Qlt.
    rewrite Z.pow_succ_r in Ha2 by lia. lia. }
  assert (HB1 : inject_Z (2 ^ b) <= inject_Z (Zpos d)) by (rewrite <- Zle_Qle; lia).
  assert (HB2 : inject_Z (Zpos d) < 2 * inject_Z (2 ^ b)).
  { replace 2 with (inject_Z 2) by reflexivity. rewrite <- inject_Z_mult, <- Zlt_Qlt.
    rewrite Z.pow_succ_r in Hb2 by lia. lia. }
  set (X := n # d) in *. set (P := pow2 (a - b)) in *.
  set (A := inject_Z (2 ^ a)) in *. set (B := inject_Z (2 ^ b)) in *.
  set (N := inject_Z n) in *. set (D := inject_Z (Zpos d)) in *.
  destruct (Qle_bool P X) eqn:E.
  - apply Qle_bool_iff in E. split; [exact E|].
    rewrite pow2_succ. fold P.
    (* X * D = N < 2A = 2 P B <= 2 P D *)
    apply (Qmult_lt_r _ _ D Hd). rewrite Hxd.
    apply Qlt_le_trans with (2 * A); [exact HA2|].
    rewrite <- Hl. rewrite <- Qmult_assoc. apply Qmult_le_l; [reflexivity|].
    apply Qmult_le_l; assumption.
  - assert (E' : X < P).
    { apply Qnot_le_lt. intro H. apply Qle_bool_iff in H. congruence. }
    replace (a - b - 1 + 1)%Z with (a - b)%Z by ring. split; [|exact E'].
    assert (Hh : 2 * pow2 (a - b - 1) == P).
    { rewrite <- pow2_succ. replace (a - b - 1 + 1)%Z with (a - b)%Z by ring. reflexivity. }
    apply (Qmult_le_l _ _ 2); [reflexivity|]. rewrite Hh.
    apply (Qmult_le_r _ _ D Hd).
    (* P D <= P 2B = 2 A <= 2 N = 2 X D *)
    apply Qle_trans with (P * (2 * B)).
    + apply Qmult_le_l; [assumption|]. apply Qlt_le_weak. exact HB2.
    + rewrite <- Qmult_assoc, Hxd.
      setoid_replace (P * (2 * B)) with (2 * (P * B)) by ring. rewrite Hl.
      apply Qmult_le_l; [reflexivity| exact HA1].
Qed.

Lemma ilog2_unique x e : pow2 e <= x -> x < pow2 (e + 1) -> ilog2 x = e.
Proof.
  intros H1 H2.
  assert (Hx : 0 < x) by (eapply Qlt_le_trans; [apply pow2_pos | exact H1]).
  destruct (ilog2_spec x Hx) as [H3 H4].
  destruct (Z.lt_trichotomy (ilog2 x) e) as [L | [L | L]]; [|exact L|]; exfalso.
  - assert (pow2 (ilog2 x + 1) <= pow2 e) by (apply pow2_le; lia).
    apply (Qlt_irrefl x). eapply Qlt_le_trans; [exact H4|]. eapply Qle_trans; eassumption.
  - assert (pow2 (e + 1) <= pow2 (ilog2 x)) by (apply pow2_le; lia).
    apply (Qlt_irrefl x). eapply Qlt_le_trans; [exact H2|]. eapply Qle_trans; eassumption.
Qed.

Lemma ilog2_mono x y : 0 < x -> x <= y -> (ilog2 x <= ilog2 y)%Z.
Proof.
  intros Hx Hxy.
  assert (Hy : 0 < y) by (eapply Qlt_le_trans; eassumption).
  destruct (ilog2_spec x Hx) as [H1 _]. destruct (ilog2_spec y Hy) as [_ H2].
  destruct (Z_le_gt_dec (ilog2 x) (ilog2 y)) as [L | L]; [exact L | exfalso].
  assert (pow2 (ilog2 y + 1) <= pow2 (ilog2 x)) by (apply pow2_le; lia).
  apply (Qlt_irrefl y). eapply Qlt_le_trans; [exact H2|].
  eapply Qle_trans; [eassumption|]. eapply Qle_trans; eassumption.
Qed.

(** [rne] *)

Lemma rne_bounds x : (Qfloor x <= rne x <= Qfloor x + 1)%Z.
Proof.
  unfold rne. destruct (x - inject_Z (Qfloor x) ?= 1 # 2); [destruct (Z.even _)| |]; lia.
Qed.

Lemma rne_Z z : rne (inject_Z z) = z.
Proof.
  unfold rne. rewrite Qfloor_Z.
  replace (inject_Z z - inject_Z z ?= 1 # 2) with Lt; [reflexivity|].
  symmetry. apply Qlt_alt.
  setoid_replace (inject_Z z - inject_Z z) with 0 by ring. reflexivity.
Qed.

#[global] Instance rne_comp : Proper (Qeq ==> eq) rne.
Proof.
  intros x y H. unfold rne.
  rewrite (Qfloor_comp x y H).
  rewrite (Qcompare_comp (x - inject_Z (Qfloor y)) (y - inject_Z (Qfloor y))
             ltac:(rewrite H; reflexivity) (1 # 2) (1 # 2) ltac:(reflexivity)).
  reflexivity.
Qed.

Lemma rne_mono x y : x <= y -> (rne x <= rne y)%Z.
Proof.
  intros H. pose proof (Qfloor_resp_le _ _ H) as Hf.
  pose proof (rne_bounds x) as Bx. pose proof (rne_bounds y) as By.
  destruct (Z.eq_dec (Qfloor x) (Qfloor y)) as [E | E]; [|lia].
  unfold rne in *. rewrite <- E in *.
  destruct (x - inject_Z (Qfloor x) ?= 1 # 2) eqn:Cx;
    destruct (y - inject_Z (Qfloor x) ?= 1 # 2) eqn:Cy;
    try (destruct (Z.even (Qfloor x))); try lia; exfalso;
    repeat match goal with
    | H : (_ ?= _) = Eq |- _ => apply Qeq_alt in H
    | H : (_ ?= _) = Lt |- _ => apply Qlt_alt in H
    | H : (_ ?= _) = Gt |- _ => apply Qgt_alt in H
    end; lra.
Qed.

Lemma rne_le_Z x z : x <= inject_Z z -> (rne x <= z)%Z.
Proof. intros H. rewrite <- (rne_Z z). apply rne_mono, H. Qed.

Lemma rne_ge_Z x z : inject_Z z <= x -> (z <= rne x)%Z.
Proof. intros H. rewrite <- (rne_Z z). apply rne_mono, H. Qed.


(** [round_pos] *)

Lemma round_pos_unfold x :
  round_pos x = inject_Z (rne (x / pow2 (fexp x))) * pow2 (fexp x).
Proof. reflexivity. Qed.

Lemma round_pos_nonneg x : 0 < x -> 0 <= round_pos x.
Proof.
  intros Hx. rewrite round_pos_unfold.
  apply Qmult_le_0_compat; [|apply Qlt_le_weak, pow2_pos].
  change 0 with (inject_Z 0). rewrite <- Zle_Qle. apply rne_ge_Z.
  apply Qle_shift_div_l; [apply pow2_pos|]. simpl. rewrite Qmult_0_l.
  apply Qlt_le_weak, Hx.
Qed.

Lemma round_pos_mono x y : 0 < x -> x <= y -> round_pos x <= round_pos y.
Proof.
  intros Hx Hxy.
  assert (Hy : 0 < y) by (eapply Qlt_le_trans; eassumption).
  pose proof (ilog2_mono x y Hx Hxy) as Hl.
  rewrite !round_pos_unfold.
  destruct (Z.eq_dec (fexp x) (fexp y)) as [E | E].
  - rewrite E. apply Qmult_le_compat_r; [|apply Qlt_le_weak, pow2_pos].
    rewrite <- Zle_Qle. apply rne_mono.
    apply Qmult_le_compat_r; [exact Hxy|].
    apply Qlt_le_weak, Qinv_lt_0_compat, pow2_pos.
  - assert (Ey : fexp y = (ilog2 y - 52)%Z) by (unfold fexp in *; lia).
    assert (Ex : (ilog2 x - 52 <= fexp x)%Z) by (unfold fexp; lia).
    assert (Exy : (fexp x + 53 <= ilog2 y)%Z) by (unfold fexp in *; lia).
    destruct (ilog2_spec x Hx) as [_ Hx2]. destruct (ilog2_spec y Hy) as [Hy1 _].
    apply Qle_trans with (pow2 (ilog2 y)).
    + apply Qle_trans with (inject_Z (2 ^ 53) * pow2 (fexp x)).
      * apply Qmult_le_compat_r; [|apply Qlt_le_weak, pow2_pos].
        rewrite <- Zle_Qle. apply rne_le_Z.
        apply Qle_shift_div_r; [apply pow2_pos|].
        rewrite <- pow2_Z by lia. rewrite <- pow2_add.
        apply Qlt_le_weak. eapply Qlt_le_trans; [exact Hx2|]. apply pow2_le. lia.
      * rewrite <- pow2_Z by lia. rewrite <- pow2_add. apply pow2_le. lia.
    + apply Qle_trans with (inject_Z (2 ^ 52) * pow2 (fexp y)).
      * rewrite <- pow2_Z by lia. rewrite <- pow2_add. apply pow2_le. lia.
      * apply Qmult_le_compat_r; [|apply Qlt_le_weak, pow2_pos].
        rewrite <- Zle_Qle. apply rne_ge_Z.
        apply Qle_shift_div_l; [apply pow2_pos|].
        rewrite <- pow2_Z by lia. rewrite <- pow2_add.
        eapply Qle_trans; [|exact Hy1]. apply pow2_le. lia.
Qed.

Lemma round_pos_comp x y : 0 < x -> x == y -> round_pos x == round_pos y.
Proof.
  intros Hx E. apply Qle_antisym; apply round_pos_mono;
    try (rewrite E; apply Qle_refl); try (rewrite <- E; apply Qle_refl);
    try assumption.
  rewrite <- E. exact Hx.
Qed.

(** A number [m * 2^j] with [0 < m < 2^53] is a [float64]: rounding keeps
    it. *)
Lemma round_pos_exact m j :
  (0 < m < 2 ^ 53)%Z -> (-1074 <= j)%Z ->
  round_pos (inject_Z m * pow2 j) == inject_Z m * pow2 j.
Proof.
  intros Hm Hj.
  set (k := Z.log2 m).
  destruct (Z.log2_spec m ltac:(lia)) as [Hk1 Hk2]. fold k in Hk1, Hk2.
  assert (Hk0 : (0 <= k)%Z) by apply Z.log2_nonneg.
  assert (Hk52 : (k <= 52)%Z).
  { destruct (Z_le_gt_dec k 52) as [L | L]; [exact L | exfalso].
    assert (2 ^ 53 <= 2 ^ k)%Z by (apply Z.pow_le_mono_r; lia). lia. }
  assert (Hlog : ilog2 (inject_Z m * pow2 j) = (k + j)%Z).
  { apply ilog2_unique.
    - rewrite pow2_add. apply Qmult_le_compat_r; [|apply Qlt_le_weak, pow2_pos].
      rewrite pow2_Z by lia. rewrite <- Zle_Qle. exact Hk1.
    - replace (k + j + 1)%Z with ((k + 1) + j)%Z by ring. rewrite pow2_add.
      apply Qmult_lt_compat_r; [apply pow2_pos|].
      rewrite pow2_Z by lia. rewrite <- Zlt_Qlt. exact Hk2. }
  rewrite round_pos_unfold.
  assert (He : (fexp (inject_Z m * pow2 j) <= j)%Z) by (unfold fexp; rewrite Hlog; lia).
  set (e := fexp (inject_Z m * pow2 j)) in *.
  assert (Hs : inject_Z m * pow2 j / pow2 e == inject_Z (m * 2 ^ (j - e))).
  { rewrite div_pow2, <- Qmult_assoc, <- pow2_add, inject_Z_mult.
    rewrite <- pow2_Z by lia. replace (j + - e)%Z with (j - e)%Z by ring. reflexivity. }
  rewrite (rne_comp _ _ Hs), rne_Z.
  rewrite inject_Z_mult, <- pow2_Z by lia.
  rewrite <- Qmult_assoc, <- pow2_add. replace (j - e + e)%Z with j by ring.
  reflexivity.
Qed.

(** [round] *)

Lemma round_pos_eq x : 0 < x -> round x = round_pos x.
Proof. intros H. unfold round. rewrite (proj1 (Qgt_alt x 0) H). reflexivity. Qed.

Lemma round_neg_eq x : x < 0 -> round x = - round_pos (- x).
Proof. intros H. unfold round. rewrite (proj1 (Qlt_alt x 0) H). reflexivity. Qed.

Lemma round_zero_eq x : x == 0 -> round x = 0.
Proof. intros H. unfold round. rewrite (proj1 (Qeq_alt x 0) H). reflexivity. Qed.

Lemma round_nonneg x : 0 <= x -> 0 <= round x.
Proof.
  intros H. destruct (Qlt_le_dec 0 x) as [L | L].
  - rewrite round_pos_eq by exact L. apply round_pos_nonneg, L.
  - rewrite round_zero_eq; [apply Qle_refl | apply Qle_antisym; assumption].
Qed.

Lemma round_nonpos x : x <= 0 -> round x <= 0.
Proof.
  intros H. destruct (Qlt_le_dec x 0) as [L | L].
  - rewrite round_neg_eq by exact L.
    assert (0 <= round_pos (- x)) by (apply round_pos_nonneg; lra). lra.
  - rewrite round_zero_eq; [apply Qle_refl | apply Qle_antisym; assumption].
Qed.

Lemma round_mono x y : x <= y -> round x <= round y.
Proof.
  intros H.
  destruct (Qlt_le_dec 0 x) as [Lx | Lx].
  - rewrite (round_pos_eq x Lx), (round_pos_eq y) by lra.
    apply round_pos_mono; assumption.
  - destruct (Qlt_le_dec y 0) as [Ly | Ly].
    + rewrite (round_neg_eq y Ly), (round_neg_eq x) by lra.
      apply Qopp_le_compat. apply round_pos_mono; lra.
    + apply Qle_trans with 0; [apply round_nonpos | apply round_nonneg]; assumption.
Qed.

#[global] Instance round_comp : Proper (Qeq ==> Qeq) round.
Proof.
  intros x y E. apply Qle_antisym; apply round_mono; rewrite E; apply Qle_refl.
Qed.

Lemma round_exact m j :
  (0 <= m < 2 ^ 53)%Z -> (-1074 <= j)%Z ->
  round (inject_Z m * pow2 j) == inject_Z m * pow2 j.
Proof.
  intros Hm Hj. destruct (Z.eq_dec m 0) as [-> | N].
  - rewrite round_zero_eq; [|simpl; apply Qmult_0_l]. simpl. rewrite Qmult_0_l. reflexivity.
  - rewrite round_pos_eq.
    + apply round_pos_exact; lia.
    + apply Qmult_lt_0_compat; [|apply pow2_pos].
      change 0 with (inject_Z 0). rewrite <- Zlt_Qlt. lia.
Qed.

(** Integers below [2^53] in magnitude convert exactly. *)
Lemma of_int_exact z : (- 2 ^ 53 < z < 2 ^ 53)%Z -> of_int z == inject_Z z.
Proof.
  intros H. unfold of_int.
  destruct (Z_lt_le_dec z 0) as [L | L].
  - rewrite round_neg_eq by (change 0 with (inject_Z 0); rewrite <- Zlt_Qlt; exact L).
    rewrite (round_pos_comp (- inject_Z z) (inject_Z (- z) * pow2 0)).
    + rewrite round_pos_exact by lia. rewrite inject_Z_opp, pow2_0. ring.
    + rewrite <- inject_Z_opp. change 0 with (inject_Z 0). rewrite <- Zlt_Qlt. lia.
    + rewrite inject_Z_opp, pow2_0. ring.
  - rewrite (round_comp (inject_Z z) (inject_Z z * pow2 0)) by (rewrite pow2_0; ring).
    rewrite round_exact by lia. rewrite pow2_0. ring.
Qed.

(** [trunc] *)

Lemma trunc_nonneg x : 0 <= x -> trunc x = Qfloor x.
Proof.
  intros H. destruct x as [n d]. unfold trunc, Qfloor. cbn [Qnum Qden].
  apply Z.quot_div_nonneg; [|reflexivity].
  unfold Qle in H. simpl in H. lia.
Qed.

Lemma Qfloor_between x k : inject_Z k <= x -> x < inject_Z (k + 1) -> Qfloor x = k.
Proof.
  intros H1 H2.
  pose proof (Qfloor_le x) as F1. pose proof (Qlt_floor x) as F2.
  assert (inject_Z k < inject_Z (Qfloor x + 1)) by (eapply Qle_lt_trans; eassumption).
  assert (inject_Z (Qfloor x) < inject_Z (k + 1)) by (eapply Qle_lt_trans; eassumption).
  rewrite <- Zlt_Qlt in *. lia.
Qed.

(** Rounding near an integer *)

Lemma inject_Z_pred n : inject_Z (n - 1) == inject_Z n - 1.
Proof. unfold Z.sub. rewrite inject_Z_plus. reflexivity. Qed.

Lemma pow2_pred e : pow2 e == 2 * pow2 (e - 1).
Proof. rewrite <- pow2_succ. replace (e - 1 + 1)%Z with e by ring. reflexivity. Qed.

(** Under the midpoint of two consecutive integers, [rne] takes the lower
    one. *)
Lemma rne_below x n : x < inject_Z n - (1 # 2) -> (rne x < n)%Z.
Proof.
  intros H. unfold rne.
  pose proof (Qfloor_le x) as F1.
  assert (Hf : (Qfloor x < n)%Z).
  { rewrite Zlt_Qlt. eapply Qle_lt_trans; [exact F1|]. lra. }
  destruct (Z.eq_dec (Qfloor x) (n - 1)) as [E | E].
  - assert (L : x - inject_Z (Qfloor x) < 1 # 2).
    { rewrite E, inject_Z_pred. lra. }
    rewrite (proj1 (Qlt_alt _ _) L). exact Hf.
  - destruct (x - inject_Z (Qfloor x) ?= 1 # 2); [destruct (Z.even _)| |]; lia.
Qed.

(** A positive number that stays more than half a unit in the last place
    under an integer rounds to a value under that integer. *)
Lemma round_pos_below x n :
  0 < x -> (ilog2 x <= 52)%Z ->
  x < inject_Z n - pow2 (fexp x - 1) ->
  round_pos x < inject_Z n.
Proof.
  intros Hx Hl Hb. rewrite round_pos_unfold.
  set (e := fexp x) in *.
  assert (He : (e <= 0)%Z) by (unfold e, fexp; lia).
  set (N := (n * 2 ^ (- e))%Z).
  assert (HN : inject_Z n == inject_Z N * pow2 e).
  { unfold N. rewrite inject_Z_mult, <- (pow2_Z (- e)) by lia.
    rewrite <- Qmult_assoc, pow2_cancel. ring. }
  rewrite HN. apply Qmult_lt_compat_r; [apply pow2_pos|].
  rewrite <- Zlt_Qlt. apply rne_below.
  apply Qlt_shift_div_r; [apply pow2_pos|].
  setoid_replace ((inject_Z N - (1 # 2)) * pow2 e) with (inject_Z n - pow2 (e - 1)).
  - exact Hb.
  - rewrite HN. rewrite (pow2_pred e). field.
Qed.

Lemma ilog2_lt x b : 0 < x -> x < pow2 b -> (ilog2 x < b)%Z.
Proof.
  intros Hx Hb. destruct (ilog2_spec x Hx) as [H1 _].
  destruct (Z_lt_le_dec (ilog2 x) b) as [L | L]; [exact L | exfalso].
  pose proof (pow2_le b (ilog2 x) L). lra.
Qed.

(** Half a unit in the last place of a number under [2^(l+1)]. *)
Lemma fexp_bound x l :
  0 < x -> x < pow2 (l + 1) -> (-1022 <= l)%Z ->
  pow2 (fexp x - 1) <= pow2 (l - 53).
Proof.
  intros Hx Hl Hr. pose proof (ilog2_lt x (l + 1) Hx Hl) as H.
  apply pow2_le. unfold fexp. lia.
Qed.

(** Integers [m * 2^i] with [m <= 2^53] are [float64] values. *)
Lemma round_int_dyadic m i :
  (0 <= m <= 2 ^ 53)%Z -> (0 <= i)%Z ->
  round (inject_Z (m * 2 ^ i)) == inject_Z (m * 2 ^ i).
Proof.
  intros Hm Hi.
  destruct (Z.eq_dec m (2 ^ 53)) as [-> | N].
  - assert (E : inject_Z (2 ^ 53 * 2 ^ i) == inject_Z (2 ^ 52) * pow2 (i + 1)).
    { rewrite (pow2_Z (i + 1)) by lia. rewrite <- inject_Z_mult.
      rewrite Z.pow_add_r by lia. apply inject_Z_injective. lia. }
    rewrite E. apply round_exact; lia.
  - assert (E : inject_Z (m * 2 ^ i) == inject_Z m * pow2 i).
    { rewrite (pow2_Z i) by lia. rewrite <- inject_Z_mult. reflexivity. }
    rewrite E. apply round_exact; lia.
Qed.

Lemma of_int_exact_le z : (0 <= z <= 2 ^ 53)%Z -> of_int z == inject_Z z.
Proof.
  intros H. unfold of_int. pose proof (round_int_dyadic z 0 H ltac:(lia)) as E.
  rewrite Z.mul_1_r in E. exact E.
Qed.

(** An exact quotient of [e * 2^j], [e <= 2^53], is again of that form. *)
Lemma dyadic_quotient j :
  (0 <= j)%Z -> forall e a k,
  (0 <= e <= 2 ^ 53)%Z -> (1 <= a)%Z -> (k * a = e * 2 ^ j)%Z ->
  exists m i, (0 <= m <= 2 ^ 53)%Z /\ (0 <= i)%Z /\ k = (m * 2 ^ i)%Z.
Proof.
  intros Hj. pattern j. apply natlike_ind; [| |exact Hj]; clear j Hj.
  - intros e a k He Ha Hk. exists k, 0%Z. rewrite Z.mul_1_r in *. nia.
  - intros j Hj IH e a k He Ha Hk.
    rewrite Z.pow_succ_r in Hk by exact Hj.
    destruct (Z.even a) eqn:Ea.
    + apply Z.even_spec in Ea. destruct Ea as [a' ->].
      apply (IH e a' k He); lia.
    + assert (Eo : Z.odd a = true) by (rewrite <- Z.negb_even, Ea; reflexivity).
      apply Z.odd_spec in Eo. destruct Eo as [a' ->].
      assert (Ek : k = (2 * (e * 2 ^ j - k * a'))%Z) by lia.
      destruct (IH e (2 * a' + 1)%Z (e * 2 ^ j - k * a')%Z He Ha ltac:(nia))
        as (m & i & Hm & Hi & E).
      exists m, (Z.succ i). repeat split; try lia.
      rewrite Z.pow_succ_r by exact Hi. lia.
Qed.

Lemma Qdiv_exact k a : (0 < a)%Z -> inject_Z (k * a) / inject_Z a == inject_Z k.
Proof.
  intros Ha. rewrite inject_Z_mult. field.
  intros E. apply (inject_Z_injective a 0) in E. lia.
Qed.

(** The quotient of two integers, the dividend [e * 2^j] with [e <= 2^53]:
    when the division is exact, so is its rounding. *)
Lemma round_quotient_exact e j a :
  (0 <= e <= 2 ^ 53)%Z -> (0 <= j)%Z -> (1 <= a)%Z ->
  ((e * 2 ^ j) mod a = 0)%Z ->
  round (inject_Z (e * 2 ^ j) / inject_Z a) == inject_Z (e * 2 ^ j / a).
Proof.
  intros He Hj Ha Hm.
  set (k := (e * 2 ^ j / a)%Z).
  assert (Hk : (k * a = e * 2 ^ j)%Z).
  { pose proof (Z.div_mod (e * 2 ^ j) a ltac:(lia)) as D. fold k in D. lia. }
  destruct (dyadic_quotient j Hj e a k He Ha Hk) as (m & i & Hmr & Hi & E).
  rewrite <- Hk, Qdiv_exact by lia. rewrite E. apply round_int_dyadic; assumption.
Qed.

(** When it is not, the rounding keeps the integer part as long as what is
    missing to the next integer, [(a - p mod a) / a], is more than half a
    unit in the last place of the quotient. *)
Lemma round_quotient_below p a :
  (0 <= p)%Z -> (1 <= a < 2 ^ 53)%Z -> (p mod a <> 0)%Z ->
  (a * 2 ^ Z.log2 (p / a) < (a - p mod a) * 2 ^ 53)%Z ->
  inject_Z (p / a) <= round (inject_Z p / inject_Z a)
  /\ round (inject_Z p / inject_Z a) < inject_Z (p / a + 1).
Proof.
  intros Hp Ha Hm Hh.
  pose proof (Z.div_mod p a ltac:(lia)) as D.
  pose proof (Z.mod_pos_bound p a ltac:(lia)) as B.
  set (k := (p / a)%Z) in *. set (rho := (p mod a)%Z) in *. set (l := Z.log2 k) in *.
  assert (K0 : (0 <= k)%Z) by (apply Z.div_pos; lia).
  assert (Hl0 : (0 <= l)%Z) by apply Z.log2_nonneg.
  assert (Hl : (l <= 52)%Z).
  { destruct (Z_le_gt_dec l 52) as [L | L]; [exact L | exfalso].
    assert (2 ^ 53 <= 2 ^ l)%Z by (apply Z.pow_le_mono_r; lia). nia. }
  assert (Hkl : (k + 1 <= 2 ^ (l + 1))%Z).
  { destruct (Z.eq_dec k 0) as [E | E].
    - unfold l. rewrite E. simpl. lia.
    - destruct (Z.log2_spec k ltac:(lia)) as [_ L2]. fold l in L2.
      replace (l + 1)%Z with (Z.succ l) by ring. lia. }
  assert (Hk53 : (k < 2 ^ 53)%Z).
  { assert (2 ^ (l + 1) <= 2 ^ 53)%Z by (apply Z.pow_le_mono_r; lia). lia. }
  assert (HA : 0 < inject_Z a) by (change 0 with (inject_Z 0); rewrite <- Zlt_Qlt; lia).
  set (x := inject_Z p / inject_Z a).
  assert (Hxa : x * inject_Z a == inject_Z p) by (unfold x; field; lra).
  assert (Hx : 0 < x).
  { apply Qlt_shift_div_l; [exact HA|]. rewrite Qmult_0_l.
    change 0 with (inject_Z 0). rewrite <- Zlt_Qlt. lia. }
  assert (Hlow : inject_Z k <= x).
  { apply Qle_shift_div_l; [exact HA|]. rewrite <- inject_Z_mult, <- Zle_Qle. lia. }
  assert (Hx1 : x < pow2 (l + 1)).
  { rewrite (pow2_Z (l + 1)) by lia. apply Qlt_le_trans with (inject_Z (k + 1)).
    - apply Qlt_shift_div_r; [exact HA|]. rewrite <- inject_Z_mult, <- Zlt_Qlt. lia.
    - rewrite <- Zle_Qle. exact Hkl. }
  split.
  - rewrite <- (of_int_exact k) by lia. unfold of_int. apply round_mono, Hlow.
  - rewrite round_pos_eq by exact Hx. apply round_pos_below; [exact Hx | |].
    + pose proof (ilog2_lt x (l + 1) Hx Hx1). lia.
    + pose proof (fexp_bound x l Hx Hx1 ltac:(lia)) as Hb.
      set (h := pow2 (fexp x - 1)) in *.
      assert (H1 : inject_Z a * h <= inject_Z a * pow2 (l - 53)).
      { apply Qmult_le_l; assumption. }
      assert (H2 : inject_Z a * pow2 (l - 53) < inject_Z (a - rho)).
      { replace (l - 53)%Z with (l + - 53)%Z by ring.
        rewrite pow2_add, (pow2_Z l) by lia.
        setoid_replace (inject_Z a * (inject_Z (2 ^ l) * pow2 (- 53)))
          with (inject_Z (a * 2 ^ l) * pow2 (- 53)) by (rewrite inject_Z_mult; ring).
        assert (P : inject_Z (2 ^ 53) * pow2 (- 53) == 1) by reflexivity.
        setoid_replace (inject_Z (a - rho))
          with (inject_Z ((a - rho) * 2 ^ 53) * pow2 (- 53))
          by (rewrite inject_Z_mult, <- Qmult_assoc, P; ring).
        apply Qmult_lt_compat_r; [apply pow2_pos|]. rewrite <- Zlt_Qlt. exact Hh. }
      assert (H3 : inject_Z p == inject_Z (k + 1) * inject_Z a - inject_Z (a - rho)).
      { rewrite <- inject_Z_mult. unfold Qminus. rewrite <- inject_Z_opp, <- inject_Z_plus.
        apply inject_Z_injective. lia. }
      apply (Qmult_lt_r _ _ (inject_Z a) HA). rewrite Hxa.
      setoid_replace ((inject_Z (k + 1) - h) * inject_Z a)
        with (inject_Z (k + 1) * inject_Z a - inject_Z a * h) by ring.
      lra.
Qed.

End Float64Facts.

(** ** Durations in seconds *)

Section TimeFacts.

Import Float64 Float64Facts.
Local Open Scope Q_scope.

Lemma Seconds_unfold d :
  time.Seconds d =
  add (of_int (Z.quot d time.Second))
    (round (of_int (Z.rem d time.Second) / inject_Z 1000000000)).
Proof. reflexivity. Qed.

Lemma of_int_0 : of_int 0 = 0.
Proof. reflexivity. Qed.

(** A whole number of seconds converts exactly. *)
Lemma Seconds_whole s :
  (- 2 ^ 53 < s < 2 ^ 53)%Z -> time.Seconds (s * time.Second)%Z == inject_Z s.
Proof.
  intros Hs. rewrite Seconds_unfold.
  rewrite Z.quot_mul, Z.rem_mul by discriminate.
  rewrite of_int_0. rewrite (round_zero_eq (0 / _)) by reflexivity.
  unfold add. rewrite (round_comp (of_int s + 0) (inject_Z s)).
  - apply of_int_exact, Hs.
  - rewrite of_int_exact by exact Hs. ring.
Qed.

Lemma frac_max_lt_1 : frac_max < 1.
Proof. vm_compute. reflexivity. Qed.

Lemma frac_bounds n :
  (0 <= n < 1000000000)%Z ->
  0 <= round (of_int n / inject_Z 1000000000) <= frac_max.
Proof.
  intros Hn.
  assert (E : of_int n == inject_Z n) by (apply of_int_exact; lia).
  assert (H0 : 0 <= inject_Z n) by (change 0 with (inject_Z 0); rewrite <- Zle_Qle; lia).
  assert (H1 : inject_Z n <= inject_Z 999999999) by (rewrite <- Zle_Qle; lia).
  split.
  - apply round_nonneg. rewrite E. apply Qle_shift_div_l; [reflexivity | lra].
  - apply round_mono. rewrite E. apply Qle_shift_div_r; [reflexivity|].
    setoid_replace ((999999999 # 1000000000) * inject_Z 1000000000)
      with (inject_Z 999999999) by reflexivity.
    exact H1.
Qed.

(** A duration under one second has no whole second. *)
Lemma Seconds_sub_second d :
  (0 <= d < time.Second)%Z -> 0 <= time.Seconds d < 1.
Proof.
  intros Hd. unfold time.Second in Hd. rewrite Seconds_unfold. unfold time.Second.
  rewrite Z.quot_small, Z.rem_small by lia.
  destruct (frac_bounds d Hd) as [F0 F1].
  set (f := round (of_int d / inject_Z 1000000000)) in *.
  rewrite of_int_0. unfold add. split.
  - apply round_nonneg. lra.
  - apply Qle_lt_trans with (round frac_max).
    + apply round_mono. lra.
    + vm_compute. reflexivity.
Qed.

Lemma Sub_range t t' : (minInt64 <= time.Sub t t' <= maxInt64)%Z.
Proof. unfold time.Sub, minInt64, maxInt64. lia. Qed.

Lemma quot_Second_bounds d :
  (0 <= d <= maxInt64)%Z -> (0 <= Z.quot d time.Second <= 9223372036)%Z.
Proof.
  intros Hd. unfold maxInt64, time.Second in *. rewrite Z.quot_div_nonneg by lia.
  split; [apply Z.div_pos; lia|].
  assert (d / 1000000000 < 9223372037)%Z by (apply Z.div_lt_upper_bound; lia). lia.
Qed.

(** The seconds of a non-negative duration are its whole seconds, or one
    more when the sum rounds up. *)
Lemma Seconds_bounds d :
  (0 <= d <= maxInt64)%Z ->
  inject_Z (Z.quot d time.Second) <= time.Seconds d
  /\ time.Seconds d <= inject_Z (Z.quot d time.Second + 1).
Proof.
  intros Hd. rewrite Seconds_unfold.
  pose proof (quot_Second_bounds d Hd) as Hq.
  assert (Hr : (0 <= Z.rem d time.Second < 1000000000)%Z).
  { apply Z.rem_bound_pos; unfold time.Second; lia. }
  destruct (frac_bounds _ Hr) as [F0 F1].
  set (f := round (of_int (Z.rem d time.Second) / inject_Z 1000000000)) in *.
  set (s := Z.quot d time.Second) in *.
  assert (E : of_int s == inject_Z s) by (apply of_int_exact; lia).
  assert (E1 : of_int (s + 1) == inject_Z (s + 1)) by (apply of_int_exact; lia).
  pose proof frac_max_lt_1 as Fm.
  unfold add. split.
  - rewrite <- E at 1. unfold of_int at 1. apply round_mono. rewrite E. lra.
  - rewrite <- E1. unfold of_int at 2. apply round_mono. rewrite E, inject_Z_plus.
    change (inject_Z 1) with 1. lra.
Qed.

End TimeFacts.

(** ** Durations that convert exactly, and whole seconds *)

Section ExactSeconds.

Import Float64 Float64Facts.

(** The second has 9 factors 2. *)
Lemma Second_dyadic j :
  0 <= j <= 9 ->
  time.Second / 2 ^ j * 2 ^ j = time.Second
  /\ 1953125 <= time.Second / 2 ^ j /\ 1 <= 2 ^ j <= 512.
Proof.
  intros Hj.
  assert (C : j = 0 \/ j = 1 \/ j = 2 \/ j = 3 \/ j = 4 \/ j = 5 \/ j = 6 \/ j = 7
              \/ j = 8 \/ j = 9) by lia.
  repeat (destruct C as [-> | C]; [vm_compute; repeat split; discriminate|]).
  subst j. vm_compute. repeat split; discriminate.
Qed.

(** A duration of [a / 2^j] seconds converts exactly. *)
Lemma Seconds_dyadic a j :
  0 <= j <= 9 -> 0 <= a -> a * (time.Second / 2 ^ j) <= maxInt64 ->
  (time.Seconds (a * (time.Second / 2 ^ j))%Z == inject_Z a * pow2 (- j))%Q.
Proof.
  intros Hj Ha Hmax. destruct (Second_dyadic j Hj) as (Hc & Hc1 & Hp).
  set (c := time.Second / 2 ^ j) in *. set (d := a * c) in *.
  assert (Hd : 0 <= d) by (unfold d; nia).
  assert (Ha43 : a < 2 ^ 43) by (unfold d, maxInt64 in Hmax; nia).
  rewrite Seconds_unfold.
  rewrite Z.quot_div_nonneg, Z.rem_mod_nonneg by (unfold time.Second; lia).
  set (q := d / time.Second). set (r := d mod time.Second).
  pose proof (Z.div_mod d time.Second ltac:(discriminate)) as D. fold q r in D.
  pose proof (Z.mod_pos_bound d time.Second ltac:(reflexivity)) as R. fold r in R.
  assert (Hq : 0 <= q) by (apply Z.div_pos; [exact Hd | reflexivity]).
  set (m := a - q * 2 ^ j).
  assert (Hr : r * 2 ^ j = m * time.Second) by (unfold m, d in *; nia).
  assert (Hm : 0 <= m < 2 ^ j) by (unfold time.Second in *; nia).
  assert (Hq53 : q < 2 ^ 53) by (unfold m in Hm; nia).
  assert (P : (pow2 j * pow2 (- j) == 1)%Q).
  { rewrite <- pow2_add. replace (j + - j) with 0 by ring. reflexivity. }
  assert (Er : (of_int r / inject_Z 1000000000 == inject_Z m * pow2 (- j))%Q).
  { rewrite of_int_exact by (unfold time.Second in R; lia).
    assert (E : (inject_Z r * pow2 j == inject_Z m * inject_Z time.Second)%Q).
    { rewrite (pow2_Z j) by lia. rewrite <- !inject_Z_mult, Hr. reflexivity. }
    setoid_replace (inject_Z r) with (inject_Z r * pow2 j * pow2 (- j))%Q
      by (rewrite <- Qmult_assoc, P; ring).
    rewrite E. unfold time.Second. field. }
  unfold add. rewrite Er, (round_exact m (- j)) by lia.
  rewrite (of_int_exact q) by lia.
  assert (Es : (inject_Z q + inject_Z m * pow2 (- j) == inject_Z a * pow2 (- j))%Q).
  { replace a with (q * 2 ^ j + m) by (unfold m; ring).
    rewrite inject_Z_plus, inject_Z_mult, <- (pow2_Z j) by lia.
    setoid_replace ((inject_Z q * pow2 j + inject_Z m) * pow2 (- j))%Q
      with (inject_Z q * (pow2 j * pow2 (- j)) + inject_Z m * pow2 (- j))%Q by ring.
    rewrite P. ring. }
  rewrite Es. apply round_exact; lia.
Qed.

(** The fraction of a second, rounded, is no more than the next multiple of
    [2^-53]. *)
Lemma frac_upper r :
  0 <= r < time.Second ->
  exists m, 0 <= m < 2 ^ 53
            /\ m * time.Second < r * 2 ^ 53 + time.Second
            /\ (round (of_int r / inject_Z 1000000000) <= inject_Z m * pow2 (- 53))%Q.
Proof.
  intros Hr. unfold time.Second in *.
  set (m := (r * 2 ^ 53 + 999999999) / 1000000000).
  pose proof (Z.mul_div_le (r * 2 ^ 53 + 999999999) 1000000000 ltac:(lia)) as M1.
  pose proof (Z.mul_succ_div_gt (r * 2 ^ 53 + 999999999) 1000000000 ltac:(lia)) as M2.
  fold m in M1, M2.
  assert (Hm : 0 <= m < 2 ^ 53).
  { split; [apply Z.div_pos; lia|]. apply Z.div_lt_upper_bound; lia. }
  exists m. split; [exact Hm|]. split; [lia|].
  rewrite <- (round_exact m (- 53)) by lia. apply round_mono.
  rewrite of_int_exact by lia.
  apply Qle_shift_div_r; [reflexivity|].
  assert (P : (pow2 53 * pow2 (- 53) == 1)%Q) by reflexivity.
  assert (E : (inject_Z r == inject_Z (r * 2 ^ 53) * pow2 (- 53))%Q).
  { rewrite inject_Z_mult, <- (pow2_Z 53) by lia. rewrite <- Qmult_assoc, P. ring. }
  rewrite E.
  setoid_replace (inject_Z m * pow2 (- 53) * inject_Z 1000000000)%Q
    with (inject_Z (m * 1000000000) * pow2 (- 53))%Q by (rewrite inject_Z_mult; ring).
  apply Qmult_le_compat_r; [|apply Qlt_le_weak, pow2_pos].
  rewrite <- Zle_Qle. lia.
Qed.

(** The seconds of a duration keep its whole seconds [q] as long as its
    fraction stays more than half a unit in the last place, [2^(log2 q - 53)],
    under the next second. *)
Lemma Seconds_floor d :
  0 <= d <= maxInt64 ->
  (2 ^ Z.log2 (d / time.Second) + 1) * time.Second
  <= (time.Second - d mod time.Second) * 2 ^ 53 ->
  (inject_Z (d / time.Second) <= time.Seconds d)%Q
  /\ (time.Seconds d < inject_Z (d / time.Second + 1))%Q.
Proof.
  intros Hd Hh.
  destruct (Seconds_bounds d Hd) as [B1 _].
  pose proof (quot_Second_bounds d Hd) as Hq.
  rewrite Z.quot_div_nonneg in B1, Hq by (unfold time.Second; lia).
  split; [exact B1|].
  rewrite Seconds_unfold.
  rewrite Z.quot_div_nonneg, Z.rem_mod_nonneg by (unfold time.Second; lia).
  set (q := d / time.Second) in *. set (r := d mod time.Second) in *.
  pose proof (Z.mod_pos_bound d time.Second ltac:(reflexivity)) as R. fold r in R.
  destruct (frac_upper r R) as (m & Hm & Hm1 & Hf).
  destruct (frac_bounds r R) as [F0 _].
  set (f := round (of_int r / inject_Z 1000000000)) in *.
  unfold add. rewrite (of_int_exact q) by lia.
  set (l := Z.log2 q) in *.
  assert (Hl0 : 0 <= l) by apply Z.log2_nonneg.
  assert (Hql : q + 1 <= 2 ^ (l + 1)).
  { destruct (Z.eq_dec q 0) as [E | E].
    - subst l. rewrite E. simpl. lia.
    - destruct (Z.log2_spec q ltac:(lia)) as [_ L2]. fold l in L2.
      replace (l + 1) with (Z.succ l) by ring. lia. }
  assert (Hl34 : l <= 34).
  { destruct (Z_le_gt_dec l 34) as [L | L]; [exact L | exfalso].
    destruct (Z.eq_dec q 0) as [E | E]; [subst l; rewrite E in L; simpl in L; lia|].
    destruct (Z.log2_spec q ltac:(lia)) as [L1 _]. fold l in L1.
    assert (2 ^ 35 <= 2 ^ l) by (apply Z.pow_le_mono_r; lia). lia. }
  assert (Hml : m + 2 ^ l < 2 ^ 53) by (unfold time.Second in *; nia).
  assert (Q0 : (0 <= inject_Z q)%Q)
    by (change 0%Q with (inject_Z 0); rewrite <- Zle_Qle; lia).
  assert (Hfl : (f + pow2 (l - 53) < 1)%Q).
  { apply Qle_lt_trans with (inject_Z m * pow2 (- 53) + pow2 (l - 53))%Q; [lra|].
    replace (l - 53) with (l + - 53) by ring. rewrite pow2_add, (pow2_Z l) by lia.
    setoid_replace (inject_Z m * pow2 (- 53) + inject_Z (2 ^ l) * pow2 (- 53))%Q
      with (inject_Z (m + 2 ^ l) * pow2 (- 53))%Q by (rewrite inject_Z_plus; ring).
    setoid_replace 1%Q with (inject_Z (2 ^ 53) * pow2 (- 53))%Q by reflexivity.
    apply Qmult_lt_compat_r; [apply pow2_pos|]. rewrite <- Zlt_Qlt. exact Hml. }
  pose proof (pow2_pos (l - 53)) as Hp.
  destruct (Qlt_le_dec 0 (inject_Z q + f)) as [Hx | Hx].
  - rewrite round_pos_eq by exact Hx.
    assert (Hx1 : (inject_Z q + f < pow2 (l + 1))%Q).
    { rewrite (pow2_Z (l + 1)) by lia.
      apply Qlt_le_trans with (inject_Z (q + 1)).
      - rewrite inject_Z_plus. change (inject_Z 1) with 1%Q. lra.
      - rewrite <- Zle_Qle. exact Hql. }
    apply round_pos_below; [exact Hx | |].
    + assert (H53 : (inject_Z q + f < pow2 53)%Q).
      { eapply Qlt_le_trans; [exact Hx1|]. apply pow2_le. lia. }
      pose proof (ilog2_lt _ 53 Hx H53). lia.
    + pose proof (fexp_bound _ l Hx Hx1 ltac:(lia)) as Hb.
      rewrite inject_Z_plus. change (inject_Z 1) with 1%Q. lra.
  - rewrite round_zero_eq by (apply Qle_antisym; [exact Hx | lra]).
    change 0%Q with (inject_Z 0). rewrite <- Zlt_Qlt. lia.
Qed.

End ExactSeconds.

(** ** Conversions and the time helpers *)

Section EngineFacts.

Import Float64 Float64Facts.

Variable u : option Q -> Z.

Lemma float_to_uint64_floor q k :
  (0 <= k < 2 ^ 64)%Z -> (inject_Z k <= q)%Q -> (q < inject_Z (k + 1))%Q ->
  float_to_uint64 u (Some q) = k.
Proof.
  intros Hk H1 H2. unfold float_to_uint64.
  assert (Hq : (0 <= q)%Q).
  { eapply Qle_trans; [|exact H1]. change 0%Q with (inject_Z 0). rewrite <- Zle_Qle. lia. }
  rewrite trunc_nonneg by exact Hq. rewrite (Qfloor_between q k H1 H2).
  destruct (Z.leb_spec 0 k); [|lia]. destruct (Z.ltb_spec k (2 ^ 64)); [|lia].
  reflexivity.
Qed.

Lemma float_to_uint64_range f : 0 <= float_to_uint64 u f < 2 ^ 64.
Proof.
  unfold float_to_uint64, wrap_uint64. destruct f as [q|].
  - destruct (Z.leb_spec 0 (trunc q)); destruct (Z.ltb_spec (trunc q) (2 ^ 64)); simpl;
      try lia; apply Z.mod_pos_bound; lia.
  - apply Z.mod_pos_bound; lia.
Qed.

Lemma secStep_whole otp s :
  TimeStep otp = s * time.Second -> 0 <= s < 2 ^ 53 -> secStep u otp = s.
Proof.
  intros Ht Hs. unfold secStep. rewrite Ht.
  pose proof (Seconds_whole s ltac:(lia)) as E.
  apply float_to_uint64_floor.
  - lia.
  - rewrite E. apply Qle_refl.
  - rewrite E. rewrite <- Zlt_Qlt. lia.
Qed.

Lemma scale_pow2 z g :
  0 <= g -> (inject_Z z == inject_Z (z * 2 ^ g) * pow2 (- g))%Q.
Proof.
  intros Hg. rewrite inject_Z_mult, <- (pow2_Z g Hg), <- Qmult_assoc.
  rewrite <- pow2_add. replace (g + - g) with 0 by ring. rewrite pow2_0. ring.
Qed.

Lemma log2_up_bounds s :
  1 <= s < 2 ^ 53 -> 0 <= Z.log2_up s <= 53 /\ s <= 2 ^ Z.log2_up s < 2 * s.
Proof.
  intros Hs. pose proof (Z.log2_up_nonneg s) as H0.
  destruct (Z.eq_dec s 1) as [-> | N]; [change (Z.log2_up 1) with 0; lia|].
  destruct (Z.log2_up_spec s ltac:(lia)) as [L1 L2].
  set (g := Z.log2_up s) in *.
  assert (Hg : 0 < g).
  { destruct (Z.eq_dec g 0) as [E | E]; [|lia]. rewrite E in L2. simpl in L2. lia. }
  replace (2 ^ g) with (2 * 2 ^ Z.pred g) in *
    by (rewrite <- Z.pow_succ_r by lia; f_equal; lia).
  repeat split; try lia.
  destruct (Z_le_gt_dec g 53) as [L | L]; [exact L | exfalso].
  assert (2 ^ 53 <= 2 ^ Z.pred g) by (apply Z.pow_le_mono_r; lia). lia.
Qed.

End EngineFacts.

(** ** The counter and the remaining time, exactly *)

(** A dividend of at most [2^53] leaves the margin that the rounding of a
    quotient needs. *)
Lemma quotient_margin p a :
  0 <= p <= 2 ^ 53 -> 1 <= a < 2 ^ 53 ->
  p mod a = 0 \/ a * 2 ^ Z.log2 (p / a) < (a - p mod a) * 2 ^ 53.
Proof.
  intros Hp Ha. destruct (Z.eq_dec (p mod a) 0) as [E | N]; [left; exact E | right].
  pose proof (Z.div_mod p a ltac:(lia)) as D.
  pose proof (Z.mod_pos_bound p a ltac:(lia)) as B.
  set (k := p / a) in *. set (rho := p mod a) in *.
  assert (K0 : 0 <= k) by (apply Z.div_pos; lia).
  destruct (Z.eq_dec k 0) as [E | E].
  - rewrite E. change (2 ^ Z.log2 0) with 1. lia.
  - destruct (Z.log2_spec k ltac:(lia)) as [L1 _]. nia.
Qed.

Section ClockExact.

Import Float64 Float64Facts.

Variable u : option Q -> Z.

(** The quotient of [steps] for a step of [a / 2^j] seconds. *)
Lemma div_dyadic e a j :
  0 <= j <= 9 -> 1 <= a -> a * (time.Second / 2 ^ j) <= maxInt64 ->
  0 <= e <= 2 ^ 53 ->
  (e * 2 ^ j) mod a = 0
  \/ a * 2 ^ Z.log2 (e * 2 ^ j / a) < (a - (e * 2 ^ j) mod a) * 2 ^ 53 ->
  float_to_uint64 u
    (Float64.div (of_int e) (time.Seconds (a * (time.Second / 2 ^ j))))
  = e * 2 ^ j / a.
Proof.
  intros Hj Ha Hmax He Hb.
  destruct (Second_dyadic j Hj) as (Hc & Hc1 & Hp).
  pose proof (Seconds_dyadic a j Hj ltac:(lia) Hmax) as ES.
  assert (Ha43 : a < 2 ^ 43) by (unfold maxInt64 in Hmax; nia).
  assert (HA : (0 < inject_Z a)%Q)
    by (change 0%Q with (inject_Z 0); rewrite <- Zlt_Qlt; lia).
  assert (HS : (0 < inject_Z a * pow2 (- j))%Q)
    by (apply Qmult_lt_0_compat; [exact HA | apply pow2_pos]).
  unfold Float64.div.
  destruct (Qeq_bool (time.Seconds (a * (time.Second / 2 ^ j))) 0) eqn:Ez.
  { apply Qeq_bool_iff in Ez. rewrite ES in Ez. rewrite Ez in HS. discriminate. }
  assert (ER : (round (of_int e / time.Seconds (a * (time.Second / 2 ^ j))%Z)
                == round (inject_Z (e * 2 ^ j) / inject_Z a))%Q).
  { apply round_comp. rewrite (of_int_exact_le e He), ES.
    rewrite inject_Z_mult, <- (pow2_Z j) by lia.
    assert (P : (pow2 j * pow2 (- j) == 1)%Q).
    { rewrite <- pow2_add. replace (j + - j) with 0 by ring. reflexivity. }
    pose proof (pow2_pos (- j)) as P0.
    setoid_replace (inject_Z e * pow2 j / inject_Z a)%Q
      with (inject_Z e * (pow2 j * pow2 (- j)) / (inject_Z a * pow2 (- j)))%Q
      by (field; split; lra).
    rewrite P. field. split; lra. }
  set (p := e * 2 ^ j) in *.
  assert (Hp0 : 0 <= p) by (unfold p; nia).
  assert (Hp62 : p <= 2 ^ 53 * 512) by (unfold p; nia).
  assert (K0 : 0 <= p / a) by (apply Z.div_pos; lia).
  assert (K1 : p / a <= p) by (apply Z.div_le_upper_bound; nia).
  apply float_to_uint64_floor; [lia | |]; rewrite ER;
    destruct (Z.eq_dec (p mod a) 0) as [E0 | N0].
  - unfold p. rewrite (round_quotient_exact e j a He) by (fold p; lia).
    apply Qle_refl.
  - apply round_quotient_below; [lia | lia | exact N0|].
    destruct Hb; [contradiction | assumption].
  - unfold p. rewrite (round_quotient_exact e j a He) by (fold p; lia).
    rewrite <- Zlt_Qlt. lia.
  - apply round_quotient_below; [lia | lia | exact N0|].
    destruct Hb; [contradiction | assumption].
Qed.

Lemma steps_dyadic otp now a j :
  0 <= j <= 9 -> 1 <= a ->
  TimeStep otp = a * (time.Second / 2 ^ j) -> TimeStep otp <= maxInt64 ->
  0 <= time.Unix_of now - time.Unix_of (BaseTime otp) <= 2 ^ 53 ->
  ((time.Unix_of now - time.Unix_of (BaseTime otp)) * 2 ^ j) mod a = 0
  \/ a * 2 ^ Z.log2 ((time.Unix_of now - time.Unix_of (BaseTime otp)) * 2 ^ j / a)
     < (a - ((time.Unix_of now - time.Unix_of (BaseTime otp)) * 2 ^ j) mod a) * 2 ^ 53 ->
  steps u otp now = (time.Unix_of now - time.Unix_of (BaseTime otp)) * 2 ^ j / a.
Proof.
  intros Hj Ha Ht Hmax He Hb. unfold steps.
  set (e := time.Unix_of now - time.Unix_of (BaseTime otp)) in *.
  assert (Hw : wrap_int64 e = e).
  { unfold wrap_int64. rewrite Z.mod_small by lia. lia. }
  rewrite Hw, Ht. rewrite Ht in Hmax. apply div_dyadic; assumption.
Qed.

(** The floor over the elapsed time, fractions of a second included: they
    do not count when the step is a whole number of seconds and the fraction
    of the query time is not the smaller one, or when the two fractions are
    the same. *)
Lemma steps_spec_dyadic otp now a j :
  0 <= j <= 9 -> 1 <= a ->
  TimeStep otp = a * (time.Second / 2 ^ j) ->
  0 <= time.Unix_of now - time.Unix_of (BaseTime otp) ->
  0 <= time.nsec (BaseTime otp) <= time.nsec now -> time.nsec now < time.Second ->
  j = 0 \/ time.nsec now = time.nsec (BaseTime otp) ->
  steps_spec otp now = (time.Unix_of now - time.Unix_of (BaseTime otp)) * 2 ^ j / a.
Proof.
  intros Hj Ha Ht He Hn Hn' Hf. unfold steps_spec, elapsed_ns, time.Unix_of in *.
  destruct (Second_dyadic j Hj) as (Hc & Hc1 & Hp).
  rewrite Ht.
  set (c := time.Second / 2 ^ j) in *.
  set (e := time.sec now - time.sec (BaseTime otp)) in *.
  set (f := time.nsec now - time.nsec (BaseTime otp)).
  assert (Hf0 : 0 <= f < time.Second) by (unfold f; lia).
  assert (Hf1 : j = 0 \/ f = 0) by (unfold f; lia).
  set (k := e * 2 ^ j / a).
  pose proof (Z.mul_div_le (e * 2 ^ j) a ltac:(lia)) as K1. fold k in K1.
  pose proof (Z.mul_succ_div_gt (e * 2 ^ j) a ltac:(lia)) as K2. fold k in K2.
  assert (HA : (0 < inject_Z (a * c))%Q)
    by (change 0%Q with (inject_Z 0); rewrite <- Zlt_Qlt; nia).
  assert (HSec : (0 < inject_Z time.Second)%Q) by reflexivity.
  assert (EQ : (inject_Z (e * time.Second + f) / inject_Z time.Second
                / (inject_Z (a * c) / inject_Z time.Second)
                == inject_Z (e * time.Second + f) / inject_Z (a * c))%Q).
  { field. split; lra. }
  rewrite (Qfloor_comp _ _ EQ).
  apply Qfloor_between.
  - apply Qle_shift_div_l; [exact HA|]. rewrite <- inject_Z_mult, <- Zle_Qle.
    rewrite <- Hc. nia.
  - apply Qlt_shift_div_r; [exact HA|]. rewrite <- inject_Z_mult, <- Zlt_Qlt.
    destruct Hf1 as [-> | ->].
    + change (2 ^ 0) with 1 in *. rewrite Z.mul_1_r in *. rewrite <- Hc. nia.
    + rewrite <- Hc. nia.
Qed.

(** Within the range of a [Duration], [Sub] is the elapsed time. *)
Lemma Sub_elapsed otp now :
  0 <= elapsed_ns otp now <= maxInt64 ->
  time.Sub now (BaseTime otp) = elapsed_ns otp now.
Proof. unfold time.Sub, elapsed_ns, minInt64, maxInt64. lia. Qed.

Lemma secsSinceBase_floor otp now :
  0 <= elapsed_ns otp now <= maxInt64 ->
  (2 ^ Z.log2 (elapsed_ns otp now / time.Second) + 1) * time.Second
  <= (time.Second - elapsed_ns otp now mod time.Second) * 2 ^ 53 ->
  secsSinceBase u otp now = elapsed_ns otp now / time.Second.
Proof.
  intros Hd Hh. unfold secsSinceBase. rewrite (Sub_elapsed otp now Hd).
  destruct (Seconds_floor _ Hd Hh) as [S1 S2].
  pose proof (quot_Second_bounds _ Hd) as Hq.
  rewrite Z.quot_div_nonneg in Hq by (unfold time.Second; lia).
  apply float_to_uint64_floor; [lia | exact S1 | exact S2].
Qed.

Lemma GTimeLeft_floor otp now s :
  TimeStep otp = s * time.Second -> 1 <= s -> s * time.Second <= maxInt64 ->
  0 <= elapsed_ns otp now <= maxInt64 ->
  (2 ^ Z.log2 (elapsed_ns otp now / time.Second) + 1) * time.Second
  <= (time.Second - elapsed_ns otp now mod time.Second) * 2 ^ 53 ->
  GTimeLeft u otp now = Ok (s - (elapsed_ns otp now / time.Second) mod s).
Proof.
  intros Ht Hs Hmax Hd Hh. unfold GTimeLeft.
  assert (Hstep : secStep u otp = s).
  { apply secStep_whole; [exact Ht|]. unfold maxInt64, time.Second in Hmax. lia. }
  rewrite Hstep, (secsSinceBase_floor otp now Hd Hh).
  set (q := elapsed_ns otp now / time.Second).
  pose proof (Z.mod_pos_bound q s ltac:(lia)) as Hmod.
  destruct (Z.eqb_spec s 0); [lia|].
  unfold wrap_uint64, wrap_int64, maxInt64, time.Second in *. f_equal.
  rewrite (Z.mod_small (s - q mod s)) by lia.
  rewrite Z.mod_small by lia. lia.
Qed.

End ClockExact.

(** ** Digests and truncation *)

Lemma SHA1_sum_length msg : List.length (SHA1.sum msg) = 20%nat.
Proof.
  unfold SHA1.sum.
  destruct (Padding.blocks SHA1.compress _ _ SHA1.init) as [[[[a b] c] d] e].
  reflexivity.
Qed.

Lemma byte_to_Z_range b : 0 <= byte_to_Z b < 256.
Proof.
  unfold byte_to_Z. pose proof (Byte.to_N_bounded b). lia.
Qed.

Lemma land_15_range x : 0 <= x -> 0 <= Z.land x 0xf <= 15.
Proof.
  intros Hx. change (Z.land x 0xf) with (Z.land x (Z.ones 4)). rewrite Z.land_ones by lia.
  pose proof (Z.mod_pos_bound x (2 ^ 4) eq_refl). change (2 ^ 4) with 16 in *. lia.
Qed.

Lemma index_in_range s i :
  0 <= i < Z.of_nat (List.length s) -> index s i = Ok (nth (Z.to_nat i) s x00).
Proof.
  intros H. unfold index.
  destruct (Z.leb_spec 0 i); [|lia].
  destruct (Z.ltb_spec i (Z.of_nat (List.length s))); [|lia]. reflexivity.
Qed.

Lemma slice_in_range s lo hi :
  0 <= lo <= hi -> hi <= Z.of_nat (List.length s) ->
  slice s lo hi = Ok (firstn (Z.to_nat (hi - lo)) (skipn (Z.to_nat lo) s))
  /\ List.length (firstn (Z.to_nat (hi - lo)) (skipn (Z.to_nat lo) s)) = Z.to_nat (hi - lo).
Proof.
  intros H1 H2. unfold slice.
  destruct (Z.leb_spec 0 lo); [|lia].
  destruct (Z.leb_spec lo hi); [|lia].
  destruct (Z.leb_spec hi (Z.of_nat (List.length s))); [|lia].
  split; [reflexivity|].
  rewrite length_firstn, length_skipn. lia.
Qed.

(** The window of [dt] fits any digest of 19 bytes or more. *)
Lemma dt_ok hs :
  (19 <= List.length hs)%nat ->
  exists l b0 b1 b2 b3,
    index hs (Z.of_nat (List.length hs) - 1) = Ok l
    /\ 0 <= Z.land (byte_to_Z l) 0xf <= 15
    /\ slice hs (Z.land (byte_to_Z l) 0xf) (Z.land (byte_to_Z l) 0xf + 4)
       = Ok [b0; b1; b2; b3]
    /\ dt hs = Ok [byte_of_Z (Z.land (byte_to_Z b0) 0x7f); b1; b2; b3].
Proof.
  intros Hlen. unfold dt. cbv zeta.
  rewrite index_in_range by lia. cbn [bind].
  set (l := nth _ hs x00).
  pose proof (land_15_range (byte_to_Z l) (proj1 (byte_to_Z_range l))) as Hoff.
  set (offset := Z.land (byte_to_Z l) 0xf) in *.
  destruct (slice_in_range hs offset (offset + 4) ltac:(lia) ltac:(lia)) as [Hs Hl].
  replace (offset + 4 - offset) with 4 in * by lia.
  set (p := firstn (Z.to_nat 4) (skipn (Z.to_nat offset) hs)) in *.
  destruct p as [|b0 [|b1 [|b2 [|b3 [|b4 p]]]]]; try discriminate Hl.
  exists l, b0, b1, b2, b3. cbn [bind]. rewrite Hs. cbn [bind].
  repeat split; try lia; try exact Hs; reflexivity.
Qed.

Section HOTPFacts.

Variable u : option Q -> Z.

Lemma pow10_uint d :
  6 <= d <= 9 -> float_to_uint64 u (Some (Pow10 (Float64.of_int d))) = 10 ^ d.
Proof.
  intros H.
  assert (C : d = 6 \/ d = 7 \/ d = 8 \/ d = 9) by lia.
  destruct C as [-> | [-> | [-> | ->]]]; vm_compute; reflexivity.
Qed.

Lemma truncate_ok otp hs :
  (19 <= List.length hs)%nat -> 6 <= Digit otp <= 9 ->
  exists v, truncate u otp hs = Ok v /\ 0 <= v < 10 ^ Digit otp.
Proof.
  intros Hlen Hd.
  destruct (dt_ok hs Hlen) as (l & b0 & b1 & b2 & b3 & _ & _ & _ & Hdt).
  unfold truncate. rewrite Hdt. cbn [bind].
  rewrite !index_in_range by (cbn [List.length]; lia). cbn [bind].
  rewrite (pow10_uint (Digit otp) Hd).
  assert (Hp : 0 < 10 ^ Digit otp) by (apply Z.pow_pos_nonneg; lia).
  destruct (Z.eqb_spec (10 ^ Digit otp) 0); [lia|].
  eexists. split; [reflexivity|]. apply Z.mod_pos_bound. exact Hp.
Qed.

End HOTPFacts.

(** ** Grouping and trimming *)

Section StringFacts.

Local Open Scope string_scope.

Lemma append_assoc (a b c : string) : (a ++ b) ++ c = a ++ (b ++ c).
Proof. induction a as [|x a IH]; simpl; [reflexivity | rewrite IH; reflexivity]. Qed.

Lemma append_nil_r (a : string) : a ++ "" = a.
Proof. induction a as [|x a IH]; simpl; [reflexivity | rewrite IH; reflexivity]. Qed.

Lemma list_ascii_app (a b : string) :
  list_ascii_of_string (a ++ b) = (list_ascii_of_string a ++ list_ascii_of_string b)%list.
Proof. induction a as [|x a IH]; simpl; [reflexivity | rewrite IH; reflexivity]. Qed.

Lemma PPrint_loop_acc code acc :
  PPrint_loop code acc =
  (fst (PPrint_loop code ""), acc ++ snd (PPrint_loop code "")).
Proof.
  revert code acc.
  fix IH 1. intros code acc.
  destruct code as [|a [|b [|c rest]]]; cbn [PPrint_loop fst snd];
    try (rewrite append_nil_r; reflexivity).
  rewrite (IH rest (acc ++ _)), (IH rest ("" ++ _)). cbn [fst snd].
  rewrite append_assoc. reflexivity.
Qed.

Lemma PPrint_untrimmed code : PPrint code = strings.TrimSpace (untrimmed code).
Proof.
  unfold PPrint, untrimmed. destruct (PPrint_loop code "") as [rest pcode]. reflexivity.
Qed.

Lemma untrimmed_step a b c rest :
  untrimmed (String a (String b (String c rest)))
  = String a (String b (String c (String " " (untrimmed rest)))).
Proof.
  unfold untrimmed. cbn [PPrint_loop]. rewrite PPrint_loop_acc. cbn [fst snd].
  unfold fmt.Sprintf_s_space. cbn [append]. reflexivity.
Qed.

Lemma untrimmed_grouped code :
  untrimmed code = format_grouped code ++ (if full_groups code then " " else "").
Proof.
  revert code. fix IH 1. intros code.
  destruct code as [|a [|b [|c rest]]]; try reflexivity.
  rewrite untrimmed_step, (IH rest).
  unfold format_grouped. cbn [chunks3 full_groups].
  destruct rest as [|d rest']; [reflexivity|].
  set (r := String d rest').
  assert (Hne : chunks3 r <> []).
  { subst r. destruct rest' as [|e [|f' [|g r']]]; cbn; discriminate. }
  destruct (chunks3 r) as [|g gs] eqn:E; [contradiction|].
  cbn [String.concat append]. reflexivity.
Qed.

Import strings.
Local Open Scope list_scope.

Lemma space2_sp c : space2 c sp = false.
Proof. unfold space2. cbn. apply andb_false_r. Qed.

Lemma space3_sp c d : space3 c d sp = false.
Proof.
  unfold space3. cbn. rewrite !andb_false_r. reflexivity.
Qed.

Lemma trim_left_app_space l :
  trim_left (l ++ [sp]) =
  match trim_left l with
  | [] => []
  | t => t ++ [sp]
  end.
Proof.
  induction l as [l IH] using (induction_ltof1 _ (@List.length ascii)).
  unfold ltof in IH.
  destruct l as [|c [|d [|e r]]]; cbn [app trim_left].
  - reflexivity.
  - destruct (space1 c); [reflexivity|]. rewrite space2_sp. reflexivity.
  - destruct (space1 c).
    + apply (IH [d]); cbn; lia.
    + destruct (space2 c d); [reflexivity|]. rewrite space3_sp. reflexivity.
  - destruct (space1 c).
    + apply (IH (d :: e :: r)); cbn; lia.
    + destruct (space2 c d).
      * apply (IH (e :: r)); cbn; lia.
      * destruct (space3 c d e); [apply (IH r); cbn; lia | reflexivity].
Qed.

Lemma trim_right_app_space l : trim_right (l ++ [sp]) = trim_right l.
Proof. unfold trim_right. rewrite rev_app_distr. reflexivity. Qed.

Lemma trim_right_nil : trim_right [] = [].
Proof. reflexivity. Qed.

Lemma TrimSpace_app_space s : TrimSpace (s ++ " ")%string = TrimSpace s.
Proof.
  unfold TrimSpace. f_equal. rewrite list_ascii_app.
  change (list_ascii_of_string " ") with [sp]. rewrite trim_left_app_space.
  destruct (trim_left (list_ascii_of_string s)) as [|x t]; [reflexivity|].
  apply trim_right_app_space.
Qed.

Lemma trim_left_no_leading l : leading_space (trim_left l) = false.
Proof.
  induction l as [l IH] using (induction_ltof1 _ (@List.length ascii)).
  unfold ltof in IH.
  destruct l as [|c [|d [|e r]]]; cbn [trim_left].
  - reflexivity.
  - destruct (space1 c) eqn:E1; [reflexivity|]. cbn. rewrite E1. reflexivity.
  - destruct (space1 c) eqn:E1; [apply (IH [d]); cbn; lia|].
    destruct (space2 c d) eqn:E2; [reflexivity|]. cbn [leading_space]. rewrite E1, E2. reflexivity.
  - destruct (space1 c) eqn:E1; [apply (IH (d :: e :: r)); cbn; lia|].
    destruct (space2 c d) eqn:E2; [apply (IH (e :: r)); cbn; lia|].
    destruct (space3 c d e) eqn:E3; [apply (IH r); cbn; lia|].
    cbn [leading_space]. rewrite E1, E2, E3. reflexivity.
Qed.

Lemma trim_right_rev_no_leading l : trailing_space_rev (trim_right_rev l) = false.
Proof.
  induction l as [l IH] using (induction_ltof1 _ (@List.length ascii)).
  unfold ltof in IH.
  destruct l as [|c [|d [|e r]]]; cbn [trim_right_rev].
  - reflexivity.
  - destruct (space1 c) eqn:E1; [reflexivity|]. cbn. rewrite E1. reflexivity.
  - destruct (space1 c) eqn:E1; [apply (IH [d]); cbn; lia|].
    destruct (space2 d c) eqn:E2; [reflexivity|]. cbn [trailing_space_rev]. rewrite E1, E2. reflexivity.
  - destruct (space1 c) eqn:E1; [apply (IH (d :: e :: r)); cbn; lia|].
    destruct (space2 d c) eqn:E2; [apply (IH (e :: r)); cbn; lia|].
    destruct (space3 e d c) eqn:E3; [apply (IH r); cbn; lia|].
    cbn [trailing_space_rev]. rewrite E1, E2, E3. reflexivity.
Qed.

Lemma trim_right_rev_suffix l : exists w, l = w ++ trim_right_rev l.
Proof.
  induction l as [l IH] using (induction_ltof1 _ (@List.length ascii)).
  unfold ltof in IH.
  destruct l as [|c [|d [|e r]]]; cbn [trim_right_rev].
  - exists []. reflexivity.
  - destruct (space1 c); [exists [c] | exists []]; reflexivity.
  - destruct (space1 c).
    + destruct (IH [d] ltac:(cbn; lia)) as [w Hw]. exists (c :: w). cbn [app]. f_equal. exact Hw.
    + destruct (space2 d c); [exists [c; d] | exists []]; reflexivity.
  - destruct (space1 c).
    + destruct (IH (d :: e :: r) ltac:(cbn; lia)) as [w Hw]. exists (c :: w). cbn [app]. f_equal. exact Hw.
    + destruct (space2 d c).
      * destruct (IH (e :: r) ltac:(cbn; lia)) as [w Hw]. exists (c :: d :: w). cbn [app]. do 2 f_equal. exact Hw.
      * destruct (space3 e d c).
        -- destruct (IH r ltac:(cbn; lia)) as [w Hw]. exists (c :: d :: e :: w). cbn [app]. do 3 f_equal. exact Hw.
        -- exists []. reflexivity.
Qed.

Lemma leading_space_app a b : leading_space a = true -> leading_space (a ++ b) = true.
Proof.
  destruct a as [|c [|d [|e r]]]; cbn [leading_space app]; intros H.
  - discriminate.
  - rewrite orb_false_r in H. rewrite H. reflexivity.
  - rewrite orb_false_r in H. apply orb_true_iff in H. destruct H as [H | H]; rewrite H.
    + reflexivity.
    + apply orb_true_iff. right. destruct b; reflexivity.
  - exact H.
Qed.

Lemma trim_right_prefix l : exists w, l = trim_right l ++ w.
Proof.
  unfold trim_right. destruct (trim_right_rev_suffix (rev l)) as [w Hw].
  exists (rev w). rewrite <- rev_app_distr, <- Hw, rev_involutive. reflexivity.
Qed.

Lemma TrimSpace_no_space s :
  has_leading_space (TrimSpace s) = false /\ has_trailing_space (TrimSpace s) = false.
Proof.
  unfold has_leading_space, has_trailing_space, TrimSpace.
  rewrite list_ascii_of_string_of_list_ascii.
  set (t := trim_left (list_ascii_of_string s)). split.
  - destruct (leading_space (trim_right t)) eqn:E; [|reflexivity].
    destruct (trim_right_prefix t) as [w Hw].
    pose proof (leading_space_app _ w E) as H. rewrite <- Hw in H.
    unfold t in H. rewrite trim_left_no_leading in H. discriminate.
  - unfold trim_right. rewrite rev_involutive. apply trim_right_rev_no_leading.
Qed.

Local Open Scope string_scope.

Lemma chunks3_step a b c d rest :
  chunks3 (String a (String b (String c (String d rest))))
  = String a (String b (String c "")) :: chunks3 (String d rest).
Proof. reflexivity. Qed.

Lemma format_grouped_step a b c d rest :
  format_grouped (String a (String b (String c (String d rest))))
  = String a (String b (String c (String " " (format_grouped (String d rest))))).
Proof.
  unfold format_grouped. rewrite chunks3_step.
  set (r := String d rest).
  assert (Hne : chunks3 r <> []).
  { subst r. destruct rest as [|e [|f' [|g r']]]; cbn; discriminate. }
  destruct (chunks3 r) as [|g gs] eqn:E; [contradiction|].
  cbn [String.concat append]. reflexivity.
Qed.

Lemma digit_plain c :
  is_digit c = true ->
  space1 c = false
  /\ (forall d, space2 c d = false /\ space2 d c = false)
  /\ (forall d e, space3 c d e = false /\ space3 e d c = false).
Proof.
  unfold is_digit, space1, space2, space3, code. intros H.
  apply andb_true_iff in H. destruct H as [H1 H2].
  apply N.leb_le in H1. apply N.leb_le in H2.
  set (n := N_of_ascii c) in *.
  assert (E : forall k, (k < 48 \/ 57 < k)%N -> (n =? k)%N = false).
  { intros k Hk. apply N.eqb_neq. lia. }
  assert (L : forall k, (57 < k)%N -> (k <=? n)%N = false).
  { intros k Hk. apply N.leb_gt. lia. }
  repeat split; intros;
    rewrite ?E, ?L by lia; cbn [andb orb]; rewrite ?andb_false_r; try reflexivity.
  destruct (9 <=? n)%N; destruct (n <=? 13)%N eqn:E13; try reflexivity.
  apply N.leb_le in E13. lia.
Qed.

Lemma trim_left_digit c r : is_digit c = true -> trim_left (c :: r) = c :: r.
Proof.
  intros H. destruct (digit_plain c H) as (P1 & P2 & P3).
  cbn [trim_left]. rewrite P1.
  destruct r as [|d [|e r']]; [reflexivity | |].
  - rewrite (proj1 (P2 d)). reflexivity.
  - rewrite (proj1 (P2 d)), (proj1 (P3 d e)). reflexivity.
Qed.

Lemma trim_right_rev_digit c r : is_digit c = true -> trim_right_rev (c :: r) = c :: r.
Proof.
  intros H. destruct (digit_plain c H) as (P1 & P2 & P3).
  cbn [trim_right_rev]. rewrite P1.
  destruct r as [|d [|e r']]; [reflexivity | |].
  - rewrite (proj2 (P2 d)). reflexivity.
  - rewrite (proj2 (P2 d)), (proj2 (P3 d e)). reflexivity.
Qed.

Lemma format_grouped_head a r :
  exists t, format_grouped (String a r) = String a t.
Proof.
  destruct r as [|b [|c [|d rest]]]; try (eexists; reflexivity).
  rewrite format_grouped_step. eexists. reflexivity.
Qed.

Lemma format_grouped_last code :
  all_digits code = true -> code <> "" ->
  exists z t, rev (list_ascii_of_string (format_grouped code)) = z :: t
              /\ is_digit z = true.
Proof.
  revert code. fix IH 1. intros code Hd Hne.
  destruct code as [|a [|b [|c rest]]]; [contradiction | | |].
  - exists a, []. cbn in Hd |- *. rewrite andb_true_r in Hd. auto.
  - exists b, [a]. cbn in Hd |- *. rewrite andb_true_r in Hd.
    apply andb_true_iff in Hd. destruct Hd. auto.
  - cbn [all_digits] in Hd.
    apply andb_true_iff in Hd. destruct Hd as [_ Hd].
    apply andb_true_iff in Hd. destruct Hd as [_ Hd].
    apply andb_true_iff in Hd. destruct Hd as [Hc Hd].
    pose proof (IH rest Hd) as IHr.
    destruct rest as [|d rest'].
    + exists c, [b; a]. split; [reflexivity | exact Hc].
    + rewrite format_grouped_step.
      destruct (IHr ltac:(discriminate)) as (z & t & Hz & Hzd).
      exists z, (t ++ [" "%char; c; b; a])%list. split; [|exact Hzd].
      cbn [list_ascii_of_string].
      change (a :: b :: c :: " "%char :: list_ascii_of_string (format_grouped (String d rest')))%list
        with ([a; b; c; " "%char] ++ list_ascii_of_string (format_grouped (String d rest')))%list.
      rewrite rev_app_distr, Hz. reflexivity.
Qed.

Lemma TrimSpace_grouped_digits code :
  all_digits code = true -> TrimSpace (format_grouped code) = format_grouped code.
Proof.
  intros Hd. destruct code as [|a r]; [reflexivity|].
  destruct (format_grouped_last (String a r) Hd ltac:(discriminate)) as (z & t & Hz & Hzd).
  destruct (format_grouped_head a r) as [w Hw].
  unfold TrimSpace.
  rewrite <- (string_of_list_ascii_of_string (format_grouped (String a r))) at 2.
  f_equal.
  assert (Ha : is_digit a = true) by (cbn in Hd; apply andb_true_iff in Hd; tauto).
  rewrite Hw at 1. cbn [list_ascii_of_string]. rewrite trim_left_digit by exact Ha.
  change (a :: list_ascii_of_string w)%list with (list_ascii_of_string (String a w)).
  rewrite <- Hw. unfold trim_right. rewrite Hz, trim_right_rev_digit by exact Hzd.
  rewrite <- Hz. apply rev_involutive.
Qed.

Lemma chunks3_length code :
  List.length (chunks3 code) = ((String.length code + 2) / 3)%nat.
Proof.
  revert code. fix IH 1. intros code.
  destruct code as [|a [|b [|c rest]]]; try reflexivity.
  cbn [chunks3 String.length].
  replace (S (S (S (String.length rest))) + 2)%nat
    with (1 * 3 + (String.length rest + 2))%nat by lia.
  rewrite Nat.div_add_l by discriminate.
  pose proof (IH rest) as IHr.
  destruct rest as [|d rest']; [reflexivity|].
  cbn [List.length]. rewrite IHr. reflexivity.
Qed.

Lemma chunks3_nth code i :
  (i < List.length (chunks3 code))%nat ->
  nth i (chunks3 code) "" = substring (3 * i) 3 code.
Proof.
  revert code i. fix IH 1. intros code i Hi.
  destruct code as [|a [|b [|c rest]]].
  - cbn in Hi. lia.
  - cbn in Hi. assert (i = 0%nat) by lia. subst i. reflexivity.
  - cbn in Hi. assert (i = 0%nat) by lia. subst i. reflexivity.
  - destruct i as [|i'].
    + cbn [chunks3]. destruct rest; reflexivity.
    + replace (3 * S i')%nat with (S (S (S (3 * i')))) by lia.
      cbn [substring]. cbn [chunks3] in Hi |- *.
      pose proof (IH rest i') as IHr.
      destruct rest as [|d rest']; [cbn in Hi; lia|].
      cbn [List.length nth] in Hi |- *. apply IHr. lia.
Qed.

(** [PPrint] is the trimmed groups. *)
Lemma PPrint_TrimSpace code : PPrint code = TrimSpace (format_grouped code).
Proof.
  rewrite PPrint_untrimmed, untrimmed_grouped.
  destruct (full_groups code); [apply TrimSpace_app_space|].
  rewrite append_nil_r. reflexivity.
Qed.

Lemma trim_left_id l : leading_space l = false -> trim_left l = l.
Proof.
  destruct l as [|c [|d [|e r]]]; cbn [leading_space trim_left]; intros H.
  - reflexivity.
  - rewrite orb_false_r in H. rewrite H. reflexivity.
  - apply orb_false_iff in H. destruct H as [H1 H2]. rewrite orb_false_r in H2.
    rewrite H1, H2. reflexivity.
  - apply orb_false_iff in H. destruct H as [H1 H2].
    apply orb_false_iff in H2. destruct H2 as [H2 H3].
    rewrite H1, H2, H3. reflexivity.
Qed.

Lemma trim_right_rev_id l : trailing_space_rev l = false -> trim_right_rev l = l.
Proof.
  destruct l as [|c [|d [|e r]]]; cbn [trailing_space_rev trim_right_rev]; intros H.
  - reflexivity.
  - rewrite orb_false_r in H. rewrite H. reflexivity.
  - apply orb_false_iff in H. destruct H as [H1 H2]. rewrite orb_false_r in H2.
    rewrite H1, H2. reflexivity.
  - apply orb_false_iff in H. destruct H as [H1 H2].
    apply orb_false_iff in H2. destruct H2 as [H2 H3].
    rewrite H1, H2, H3. reflexivity.
Qed.

(** Nothing is trimmed from a string without white space at its ends. *)
Lemma TrimSpace_id s :
  has_leading_space s = false -> has_trailing_space s = false -> TrimSpace s = s.
Proof.
  unfold has_leading_space, has_trailing_space, TrimSpace. intros HL HT.
  rewrite (trim_left_id _ HL). unfold trim_right.
  rewrite (trim_right_rev_id _ HT), rev_involutive.
  apply string_of_list_ascii_of_string.
Qed.

Lemma space2_sp_l d : space2 sp d = false.
Proof. reflexivity. Qed.

Lemma space3_sp_l d e : space3 sp d e = false.
Proof. reflexivity. Qed.

Lemma space3_sp_m c e : space3 c sp e = false.
Proof.
  unfold space3. change (code sp) with 32%N. cbn [N.eqb Pos.eqb].
  rewrite !andb_false_r. reflexivity.
Qed.

Lemma trailing_space_rev_app (x y : list ascii) :
  (3 <= List.length x)%nat ->
  trailing_space_rev (x ++ y)%list = trailing_space_rev x.
Proof.
  destruct x as [|c [|d [|e r]]]; cbn [List.length]; intros H; try lia. reflexivity.
Qed.

(** The groups begin as the input does. *)
Lemma format_grouped_leading code :
  has_leading_space (format_grouped code) = has_leading_space code.
Proof.
  destruct code as [|a [|b [|c [|d rest]]]]; try reflexivity.
  rewrite format_grouped_step. reflexivity.
Qed.

(** White space at the end of the groups is white space at the end of the
    input: a separator can only break an encoding. *)
Lemma format_grouped_trailing code :
  has_trailing_space code = false -> has_trailing_space (format_grouped code) = false.
Proof.
  induction code as [code IH] using (induction_ltof1 _ String.length).
  unfold ltof in IH. intros H.
  destruct code as [|a [|b [|c [|d rest]]]]; try exact H.
  rewrite format_grouped_step.
  unfold has_trailing_space in *. cbn [list_ascii_of_string] in *.
  change (a :: b :: c :: " "%char :: list_ascii_of_string (format_grouped (String d rest)))%list
    with ([a; b; c; sp] ++ list_ascii_of_string (format_grouped (String d rest)))%list.
  change (a :: b :: c :: d :: list_ascii_of_string rest)%list
    with ([a; b; c] ++ list_ascii_of_string (String d rest))%list in H.
  rewrite rev_app_distr in H |- *.
  destruct rest as [|e [|f rest']].
  - change (format_grouped (String d "")) with (String d "").
    cbn [rev app list_ascii_of_string trailing_space_rev] in H |- *.
    rewrite space2_sp_l, space3_sp_m.
    apply orb_false_iff in H. destruct H as [H _]. rewrite H. reflexivity.
  - change (format_grouped (String d (String e ""))) with (String d (String e "")).
    cbn [rev app list_ascii_of_string trailing_space_rev] in H |- *.
    rewrite space3_sp_l.
    apply orb_false_iff in H. destruct H as [H1 H2].
    apply orb_false_iff in H2. destruct H2 as [H2 _]. rewrite H1, H2. reflexivity.
  - set (r := String d (String e (String f rest'))) in *.
    assert (L1 : (3 <= List.length (rev (list_ascii_of_string r)))%nat).
    { rewrite length_rev. unfold r. cbn. lia. }
    assert (L2 : (3 <= List.length (rev (list_ascii_of_string (format_grouped r))))%nat).
    { rewrite length_rev. unfold r.
      destruct rest' as [|g rest'']; [cbn; lia|].
      rewrite format_grouped_step. cbn. lia. }
    rewrite trailing_space_rev_app in H |- * by assumption.
    apply IH; [unfold r; cbn; lia | exact H].
Qed.

(** An input without white space at its ends is printed as its groups. *)
Lemma PPrint_plain code :
  has_leading_space code = false -> has_trailing_space code = false ->
  PPrint code = format_grouped code.
Proof.
  intros HL HT. rewrite PPrint_TrimSpace. apply TrimSpace_id.
  - rewrite format_grouped_leading. exact HL.
  - apply format_grouped_trailing, HT.
Qed.

(** Strings of digits have none. *)
Lemma digits_plain code :
  all_digits code = true ->
  has_leading_space code = false /\ has_trailing_space code = false.
Proof.
  intros Hd. split.
  - destruct code as [|a r]; [reflexivity|].
    cbn [all_digits] in Hd. apply andb_true_iff in Hd. destruct Hd as [Ha _].
    destruct (digit_plain a Ha) as (P1 & P2 & P3).
    unfold has_leading_space. cbn [list_ascii_of_string leading_space].
    rewrite P1. destruct (list_ascii_of_string r) as [|d [|e l]]; cbn [orb];
      rewrite ?(proj1 (P2 _)), ?(proj1 (P3 _ _)); reflexivity.
  - unfold has_trailing_space.
    assert (A : forall l, Forall (fun c => is_digit c = true) l ->
                          trailing_space_rev l = false).
    { intros [|a [|d [|e l]]] F; [reflexivity | | |]; inversion F as [|? ? Ha _]; subst;
        destruct (digit_plain a Ha) as (P1 & P2 & P3); cbn [trailing_space_rev];
        rewrite P1, ?(proj2 (P2 _)), ?(proj2 (P3 _ _)); reflexivity. }
    apply A. apply Forall_rev.
    revert Hd. induction code as [|a r IHr]; intros Hd; [constructor|].
    cbn [all_digits] in Hd. apply andb_true_iff in Hd. destruct Hd as [Ha Hr].
    constructor; [exact Ha | apply IHr, Hr].
Qed.

End StringFacts.

(** ** Formatting of the code *)

Section FormatFacts.

Local Open Scope string_scope.

Lemma length_append (a b : string) :
  String.length (a ++ b) = (String.length a + String.length b)%nat.
Proof. induction a as [|x a IH]; simpl; [reflexivity | rewrite IH; reflexivity]. Qed.

Lemma all_digits_append (a b : string) :
  all_digits (a ++ b) = all_digits a && all_digits b.
Proof.
  induction a as [|x a IH]; simpl; [reflexivity | rewrite IH; apply andb_assoc].
Qed.

Lemma zeros_spec n :
  String.length (fmt.zeros n) = n /\ all_digits (fmt.zeros n) = true.
Proof.
  induction n as [|n [IH1 IH2]]; [split; reflexivity|]. cbn [fmt.zeros String.length all_digits].
  rewrite IH1, IH2. split; reflexivity.
Qed.

Lemma digit_is_digit v : is_digit (strconv.digit (v mod 10)) = true.
Proof.
  pose proof (Z.mod_pos_bound v 10 eq_refl) as H.
  unfold is_digit, strconv.digit. rewrite N_ascii_embedding by lia.
  apply andb_true_iff. split; apply N.leb_le; lia.
Qed.

Lemma digits_spec fuel :
  forall v acc k,
    (1 <= k <= fuel)%nat -> 0 <= v < 10 ^ Z.of_nat k ->
    (String.length acc < String.length (strconv.digits fuel v acc)
     <= k + String.length acc)%nat
    /\ all_digits (strconv.digits fuel v acc) = all_digits acc.
Proof.
  induction fuel as [|fuel IH]; intros v acc k Hk Hv; [lia|].
  cbn [strconv.digits].
  destruct (Z.ltb_spec v 10) as [L | L].
  - cbn [String.length all_digits]. rewrite digit_is_digit. split; [lia | reflexivity].
  - assert (Hk2 : (2 <= k)%nat).
    { destruct k as [|[|k]]; [lia | | lia]. change (10 ^ Z.of_nat 1) with 10 in Hv. lia. }
    assert (Hv' : 0 <= v / 10 < 10 ^ Z.of_nat (k - 1)).
    { split; [apply Z.div_pos; lia|]. apply Z.div_lt_upper_bound; [lia|].
      rewrite <- Z.pow_succ_r by lia. replace (Z.succ (Z.of_nat (k - 1))) with (Z.of_nat k) by lia.
      lia. }
    destruct (IH (v / 10) (String (strconv.digit (v mod 10)) acc) (k - 1)%nat
                ltac:(lia) Hv') as [H1 H2].
    cbn [String.length all_digits] in H1, H2. rewrite digit_is_digit in H2.
    split; [lia | exact H2].
Qed.

Lemma Sprintf_06s_FormatUint v :
  0 <= v < 10 ^ 6 ->
  String.length (fmt.Sprintf_06s (strconv.FormatUint v)) = 6%nat
  /\ all_digits (fmt.Sprintf_06s (strconv.FormatUint v)) = true.
Proof.
  intros Hv. unfold fmt.Sprintf_06s, strconv.FormatUint.
  destruct (digits_spec 20 v "" 6 ltac:(lia) Hv) as [H1 H2].
  cbn [String.length] in H1.
  rewrite length_append, all_digits_append, H2.
  destruct (zeros_spec (6 - String.length (strconv.digits 20 v ""))) as [Z1 Z2].
  rewrite Z1, Z2. split; [lia | reflexivity].
Qed.

Lemma Sprintf_06s_length s : (6 <= String.length (fmt.Sprintf_06s s))%nat.
Proof.
  unfold fmt.Sprintf_06s. rewrite length_append.
  rewrite (proj1 (zeros_spec _)). lia.
Qed.

End FormatFacts.

(** * Properties of the package *)

Section Properties.

Import Float64 Float64Facts.

Variable u : option Q -> Z.

(** ** The HOTP generator *)

(** C1 (amended).  For every configuration whose digit count [d] lies in
    [6, 9] and whose hash function returns digests of at least 19 bytes (as
    SHA-1, SHA-256 and SHA-512 do), every secret and every counter, [HOTP]
    returns a code, and the code lies in [0, 10^d). *)
Theorem HOTP_range otp h secret count :
  Hash otp = Some h ->
  6 <= Digit otp <= 9 ->
  (forall m, (19 <= List.length (Sum h m))%nat) ->
  HOTP_in_range u otp secret count.
Proof.
  intros Hh Hd Hlen. unfold HOTP_in_range, HOTP, hmacSum. rewrite Hh. cbn [bind].
  apply truncate_ok; [|exact Hd]. unfold HMAC.sum. apply Hlen.
Qed.

(** C2.  With the configuration of [New(6)] and the ASCII secret
    "12345678901234567890", [HOTP] returns the codes that RFC 4226,
    Appendix D lists for the counters 0 to 9; the first two are 755224 and
    287082. *)
Theorem HOTP_rfc4226_vectors :
  map (HOTP u (fst (New 6)) rfc4226_secret) [0; 1; 2; 3; 4; 5; 6; 7; 8; 9]
  = map Ok rfc4226_codes
  /\ HOTP u (fst (New 6)) rfc4226_secret 0 = Ok 755224
  /\ HOTP u (fst (New 6)) rfc4226_secret 1 = Ok 287082.
Proof. vm_compute. repeat split. Qed.

(** The example of the package: a 6-digit code for the counter 123456. *)
Lemma Example_simple :
  HOTP u (fst (New 6)) (list_byte_of_string "SOME_SECRET") 123456 = Ok 260040.
Proof. vm_compute. reflexivity. Qed.

(** C8.  A digest of 20 bytes or more (SHA-1, SHA-256, SHA-512) always holds
    the window of the dynamic truncation: the offset, the low 4 bits of the
    last byte, satisfies [offset + 4 <= length], the slice of [dt] is in
    bounds, [dt] returns its 4 bytes, and the truncation of a configuration
    with 6 to 9 digits returns a code. *)
Theorem dt_in_bounds hs :
  (20 <= List.length hs)%nat ->
  exists l p,
    index hs (Z.of_nat (List.length hs) - 1) = Ok l
    /\ Z.land (byte_to_Z l) 0xf + 4 <= Z.of_nat (List.length hs)
    /\ slice hs (Z.land (byte_to_Z l) 0xf) (Z.land (byte_to_Z l) 0xf + 4) = Ok p
    /\ List.length p = 4%nat
    /\ (exists q, dt hs = Ok q /\ List.length q = 4%nat)
    /\ (forall otp, 6 <= Digit otp <= 9 -> exists v, truncate u otp hs = Ok v).
Proof.
  intros Hlen.
  destruct (dt_ok hs ltac:(lia)) as (l & b0 & b1 & b2 & b3 & Hi & Ho & Hs & Hdt).
  exists l, [b0; b1; b2; b3]. repeat split; try assumption; try lia.
  - eexists. split; [exact Hdt | reflexivity].
  - intros otp Hd. destruct (truncate_ok u otp hs ltac:(lia) Hd) as (v & Hv & _).
    exists v. exact Hv.
Qed.

(** The digests of HMAC-SHA1 have 20 bytes. *)
Lemma hmacSum_sha1_length otp secret count :
  Hash otp = Some SHA1.New ->
  exists hs, hmacSum otp secret count = Ok hs /\ List.length hs = 20%nat.
Proof.
  intros Hh. unfold hmacSum. rewrite Hh. eexists. split; [reflexivity|].
  unfold HMAC.sum. change (Sum SHA1.New) with SHA1.sum. apply SHA1_sum_length.
Qed.

(** ** The constructor *)

(** C3.  [New(digit)] returns the configuration with the given digit count,
    SHA-1, a step of 30 seconds and the Unix epoch as base time, and no
    error, when [6 <= digit <= 9]; it returns an error (and the zero
    configuration) exactly when [digit < 6] or [digit > 9].  [New(6)] and
    [New(9)] succeed, [New(5)] and [New(10)] fail. *)
Theorem New_spec digit :
  (6 <= digit <= 9 ->
   New digit = ({| Digit := digit; TimeStep := 30 * time.Second;
                   BaseTime := time.Unix 0 0; Hash := Some SHA1.New |}, None))
  /\ (digit < 6 \/ 9 < digit ->
      exists msg, New digit = (zero_OneTimePassword, Some (errorString msg)))
  /\ (snd (New digit) <> None <-> digit < 6 \/ 9 < digit)
  /\ snd (New 6) = None /\ snd (New 9) = None
  /\ snd (New 5) <> None /\ snd (New 10) <> None.
Proof.
  unfold New.
  destruct (Z.ltb_spec digit 6) as [L | L]; [|destruct (Z.gtb_spec digit 9) as [G | G]];
    cbn [snd]; repeat split; intros; try lia; try discriminate; try reflexivity;
    try (eexists; reflexivity).
  all: try (exfalso; match goal with H : _ <> _ |- _ => apply H; reflexivity end).
Qed.

(** ** The time-step converter *)

(** C4 (amended).  Take a configuration whose step is [a / 2^j] seconds,
    [a >= 1] and [0 <= j <= 9] (these are the steps whose length in seconds
    is a [float64]; [j = 0] for a whole number of seconds), and a query time
    whose Unix seconds are [elapsed] more than those of the base time, with
    [0 <= elapsed <= 2^53].  Suppose that the fraction of a second of the query
    time is not smaller than that of the base time, and equal to it when the
    step is not a whole number of seconds; and that the elapsed time is a
    whole number of steps, or else that what is missing to the next step
    leaves more than half a unit in the last place of the quotient:
    [a * 2^(log2 k) < (a - p mod a) * 2^53] for [p = elapsed * 2^j] and
    [k = p / a] (true whenever [p <= 2^53], lemma [quotient_margin], so for
    every step of whole seconds).  Then [steps] returns the floor of the
    elapsed time divided by the step, a non-negative 64-bit integer. *)
Theorem steps_floor otp now a j :
  0 <= j <= 9 -> 1 <= a ->
  TimeStep otp = a * (time.Second / 2 ^ j) -> TimeStep otp <= maxInt64 ->
  let elapsed := time.Unix_of now - time.Unix_of (BaseTime otp) in
  0 <= elapsed <= 2 ^ 53 ->
  (elapsed * 2 ^ j) mod a = 0
  \/ a * 2 ^ Z.log2 (elapsed * 2 ^ j / a) < (a - (elapsed * 2 ^ j) mod a) * 2 ^ 53 ->
  0 <= time.nsec (BaseTime otp) <= time.nsec now -> time.nsec now < time.Second ->
  j = 0 \/ time.nsec now = time.nsec (BaseTime otp) ->
  steps_is_floor u otp now /\ steps u otp now = elapsed * 2 ^ j / a.
Proof.
  intros Hj Ha Ht Hmax elapsed He Hb Hn Hn' Hf.
  pose proof (steps_dyadic u otp now a j Hj Ha Ht Hmax He Hb) as Hk.
  pose proof (steps_spec_dyadic otp now a j Hj Ha Ht (proj1 He) Hn Hn' Hf) as Hspec.
  fold elapsed in Hk, Hspec. unfold steps_is_floor.
  rewrite Hspec. repeat split; try exact Hk; apply float_to_uint64_range.
Qed.

(** ** The remaining-time helper *)

(** C7 (amended).  Take a configuration whose step is a whole number
    [s >= 1] of seconds and a current time at or after the base time, the
    elapsed time being [q] whole seconds and [r] nanoseconds, within the
    range of a [Duration] (beyond it the subtraction saturates).  Suppose
    that what is missing to the next whole second is more than half a unit
    in the last place of the [float64] that holds [q] seconds:
    [(2^(log2 q) + 1) * 10^9 <= (10^9 - r) * 2^53], which holds for [r = 0],
    and for every [r] when [q < 2^24].  Then [GTimeLeft] returns
    [s - q mod s]: the full step when the remainder is 0, and a value in
    [1, s] always. *)
Theorem GTimeLeft_whole_seconds otp now s :
  TimeStep otp = s * time.Second -> 1 <= s -> s * time.Second <= maxInt64 ->
  0 <= elapsed_ns otp now <= maxInt64 ->
  let q := elapsed_ns otp now / time.Second in
  let r := elapsed_ns otp now mod time.Second in
  (2 ^ Z.log2 q + 1) * time.Second <= (time.Second - r) * 2 ^ 53 ->
  GTimeLeft u otp now = Ok (s - q mod s)
  /\ time_left_spec otp now = s - q mod s
  /\ 1 <= s - q mod s <= s
  /\ (q mod s = 0 -> GTimeLeft u otp now = Ok s).
Proof.
  intros Ht Hs Hmax Hd q r Hh.
  pose proof (GTimeLeft_floor u otp now s Ht Hs Hmax Hd Hh) as HG. fold q in HG.
  pose proof (Z.mod_pos_bound q s ltac:(lia)) as Hmod.
  split; [exact HG|]. split; [|split; [lia|]].
  - unfold time_left_spec. fold q. rewrite Ht, Z.div_mul by discriminate. reflexivity.
  - intros H0. rewrite HG, H0. f_equal. lia.
Qed.

(** C10.  For every configuration whose step is strictly positive but
    shorter than one second, and whatever the current time, [GTimeLeft]
    truncates the step to 0 whole seconds and its modulo divides by zero: the
    call panics. *)
Theorem GTimeLeft_sub_second_step otp now :
  0 < TimeStep otp < time.Second ->
  secStep u otp = 0 /\ GTimeLeft u otp now = Panic DivideByZero.
Proof.
  intros Ht.
  assert (H0 : secStep u otp = 0).
  { unfold secStep. destruct (Seconds_sub_second (TimeStep otp) ltac:(lia)) as [S0 S1].
    apply float_to_uint64_floor; [lia | exact S0 | exact S1]. }
  split; [exact H0|]. unfold GTimeLeft. rewrite H0. reflexivity.
Qed.

(** ** The base32 wrapper *)

(** X14.  Whatever the decoder reports, [GOTP] computes a code of at least 6
    characters and returns it with the decoder's error. *)
Lemma GOTP_returns_both otp secret now code err :
  GOTP u otp secret now = Ok (code, err) ->
  err = snd (base32.DecodeString secret) /\ (6 <= String.length code)%nat.
Proof.
  unfold GOTP. destruct (base32.DecodeString secret) as [sec_decoded e].
  destruct (TOTP u otp sec_decoded now) as [v | p]; cbn [bind]; [|discriminate].
  intros H. injection H as <- <-. split; [reflexivity | apply Sprintf_06s_length].
Qed.

(** With the configuration of [New(6)], the result is a string of exactly 6
    decimal digits, and the error is the decoder's. *)
Lemma GOTP_default_six_digits secret now :
  exists code,
    GOTP u (fst (New 6)) secret now = Ok (code, snd (base32.DecodeString secret))
    /\ String.length code = 6%nat /\ all_digits code = true.
Proof.
  unfold GOTP. destruct (base32.DecodeString secret) as [sec_decoded e]. cbn [snd].
  unfold TOTP, HOTP, hmacSum.
  change (Hash (fst (New 6))) with (Some SHA1.New). cbn [bind].
  set (hs := HMAC.sum SHA1.New sec_decoded _).
  assert (Hlen : (19 <= List.length hs)%nat).
  { unfold hs, HMAC.sum. change (Sum SHA1.New) with SHA1.sum.
    rewrite SHA1_sum_length. lia. }
  destruct (truncate_ok u (fst (New 6)) hs Hlen ltac:(cbn; lia)) as (v & Hv & Hr).
  rewrite Hv. cbn [bind]. change (Digit (fst (New 6))) with 6 in Hr.
  assert (Hw : wrap_uint64 v = v) by (unfold wrap_uint64; apply Z.mod_small; lia).
  rewrite Hw. eexists. split; [reflexivity|]. apply Sprintf_06s_FormatUint. exact Hr.
Qed.

(** C5 (the code at the failing input).  The secret "1" is not base32:
    [GOTP] returns the decoder's error, and with it the 6-digit code of the
    empty byte string that the decoder returned. *)
Theorem GOTP_invalid_base32_returns_code :
  base32.DecodeString "1" = ([], Some (CorruptInputError 0))
  /\ GOTP u (fst (New 6)) "1" (time.Unix 59 0)
     = Ok ("812658"%string, Some (CorruptInputError 0)).
Proof. vm_compute. split; reflexivity. Qed.

(** C6 (the code at the failing input).  With the configuration of [New(8)],
    the secret of RFC 6238 and the clock at 59 seconds, [GOTP] returns the
    8-digit code of the receiver, not a 6-digit one. *)
Theorem GOTP_follows_receiver :
  GOTP u (fst (New 8)) rfc6238_secret_base32 (time.Unix 59 0)
  = Ok ("94287082"%string, None)
  /\ String.length "94287082" = 8%nat.
Proof. vm_compute. split; reflexivity. Qed.

(** ** The grouped formatter *)

(** C9 (amended).  For every input string, [PPrint] is the groups of the
    input, 3 characters each from the left and the remainder last, joined by
    single spaces, with leading and trailing white space removed, so that the
    result neither starts nor ends with white space.  For every input that
    itself neither starts nor ends with white space, every string of digits
    among them, nothing is removed: the result is the joined groups.  There
    are [ceil (length / 3)] groups, group [i] being the characters [3 i],
    [3 i + 1], [3 i + 2] the input has.  "123456" gives "123 456", "12345678"
    gives "123 456 78", "12" gives "12". *)
Theorem PPrint_grouped code :
  PPrint code = strings.TrimSpace (format_grouped code)
  /\ has_leading_space (PPrint code) = false
  /\ has_trailing_space (PPrint code) = false
  /\ (has_leading_space code = false -> has_trailing_space code = false ->
      PPrint code = format_grouped code)
  /\ (all_digits code = true -> PPrint code = format_grouped code)
  /\ List.length (chunks3 code) = ((String.length code + 2) / 3)%nat
  /\ (forall i, (i < List.length (chunks3 code))%nat ->
                nth i (chunks3 code) ""%string = substring (3 * i) 3 code)
  /\ PPrint "123456" = "123 456"%string
  /\ PPrint "12345678" = "123 456 78"%string
  /\ PPrint "12" = "12"%string.
Proof.
  pose proof (PPrint_TrimSpace code) as H.
  split; [exact H|]. rewrite H.
  destruct (TrimSpace_no_space (format_grouped code)) as [L T].
  repeat split; try assumption.
  - intros HL HT. rewrite <- H. apply PPrint_plain; assumption.
  - apply TrimSpace_grouped_digits.
  - apply chunks3_length.
  - apply chunks3_nth.
Qed.

End Properties.

(** * Further properties of the package *)

(** ** Bytes and bit operations *)

Lemma SHA256_sum_length msg : List.length (SHA256.sum msg) = 32%nat.
Proof.
  unfold SHA256.sum.
  destruct (Padding.blocks SHA256.compress _ _ SHA256.init)
    as [[[[[[[a b] c] d] e] f] g] h].
  reflexivity.
Qed.

Lemma byte_to_of_N n : Byte.to_N (byte_of_N n) = (n mod 256)%N.
Proof.
  unfold byte_of_N.
  pose proof (N.mod_upper_bound n 256 ltac:(discriminate)) as Hm.
  destruct (Byte.of_N (n mod 256)) as [b|] eqn:E.
  - apply Byte.to_of_N. exact E.
  - apply Byte.of_N_None_iff in E. lia.
Qed.

Lemma byte_to_of_Z z : byte_to_Z (byte_of_Z z) = z mod 256.
Proof.
  pose proof (Z.mod_pos_bound z 256 eq_refl) as H.
  unfold byte_to_Z, byte_of_Z. rewrite byte_to_of_N.
  rewrite N.mod_small by lia. lia.
Qed.

Lemma land_127 x : 0 <= x -> Z.land x 0x7f = x mod 128.
Proof.
  intros Hx. change (Z.land x 0x7f) with (Z.land x (Z.ones 7)).
  rewrite Z.land_ones by lia. reflexivity.
Qed.

Lemma lor_shiftl_add x y n :
  0 <= n -> 0 <= x < 2 ^ n -> 0 <= y -> Z.lor x (Z.shiftl y n) = x + y * 2 ^ n.
Proof.
  intros Hn Hx Hy.
  assert (Hland : Z.land x (Z.shiftl y n) = 0).
  { apply Z.bits_inj'. intros i Hi. rewrite Z.land_spec, Z.bits_0.
    destruct (Z_lt_le_dec i n) as [L | L].
    - rewrite Z.shiftl_spec_low by exact L. apply andb_false_r.
    - destruct (Z.eq_dec x 0) as [-> | N]; [rewrite Z.bits_0; reflexivity|].
      rewrite (Z.bits_above_log2 x i); [reflexivity | lia |].
      apply Z.log2_lt_pow2; [lia|].
      eapply Z.lt_le_trans; [apply Hx|]. apply Z.pow_le_mono_r; lia. }
  rewrite <- Z.lxor_lor by exact Hland.
  rewrite <- Z.add_nocarry_lxor by exact Hland.
  rewrite Z.shiftl_mul_pow2 by exact Hn. reflexivity.
Qed.

Lemma be31_value a c1 c2 c3 :
  0 <= a < 128 -> 0 <= c1 < 256 -> 0 <= c2 < 256 -> 0 <= c3 < 256 ->
  Z.lor (Z.lor c3 (Z.shiftl c2 8)) (Z.lor (Z.shiftl c1 16) (Z.shiftl a 24))
  = a * 2 ^ 24 + c1 * 2 ^ 16 + c2 * 2 ^ 8 + c3.
Proof.
  intros Ha H1 H2 H3.
  rewrite (lor_shiftl_add c3 c2 8) by (change (2 ^ 8) with 256; lia).
  rewrite (Z.shiftl_mul_pow2 c1 16) by lia.
  rewrite (lor_shiftl_add (c1 * 2 ^ 16) a 24)
    by (change (2 ^ 16) with 65536; change (2 ^ 24) with 16777216; lia).
  replace (c1 * 2 ^ 16 + a * 2 ^ 24) with (Z.shiftl (c1 + a * 2 ^ 8) 16)
    by (rewrite Z.shiftl_mul_pow2 by lia; change (2 ^ 16) with 65536;
        change (2 ^ 24) with 16777216; change (2 ^ 8) with 256; lia).
  rewrite (lor_shiftl_add (c3 + c2 * 2 ^ 8) (c1 + a * 2 ^ 8) 16)
    by (change (2 ^ 16) with 65536; change (2 ^ 8) with 256; lia).
  change (2 ^ 16) with 65536. change (2 ^ 24) with 16777216.
  change (2 ^ 8) with 256. lia.
Qed.

(** ** The window of [dt] and its value *)

Lemma dt_window hs :
  (19 <= List.length hs)%nat ->
  let offset :=
    Z.to_nat (Z.land (byte_to_Z (nth (List.length hs - 1) hs x00)) 0xf) in
  (offset <= 15)%nat
  /\ dt hs = Ok [byte_of_Z (Z.land (byte_to_Z (nth offset hs x00)) 0x7f);
                 nth (offset + 1) hs x00; nth (offset + 2) hs x00;
                 nth (offset + 3) hs x00].
Proof.
  intros Hlen offset.
  destruct (dt_ok hs Hlen) as (l & b0 & b1 & b2 & b3 & Hi & Ho & Hs & Hdt).
  rewrite index_in_range in Hi by lia. injection Hi as Hl.
  replace (Z.to_nat (Z.of_nat (List.length hs) - 1)) with (List.length hs - 1)%nat
    in Hl by lia.
  rewrite <- Hl in *. fold offset in Hs.
  assert (Hoff : (offset <= 15)%nat) by (unfold offset; lia).
  split; [exact Hoff|].
  destruct (slice_in_range hs (Z.land (byte_to_Z (nth (List.length hs - 1) hs x00)) 0xf)
              (Z.land (byte_to_Z (nth (List.length hs - 1) hs x00)) 0xf + 4)
              ltac:(lia) ltac:(lia)) as [Hs' _].
  rewrite Hs' in Hs. injection Hs as Hw. fold offset in Hw.
  replace (Z.to_nat (_ + 4 - _)) with 4%nat in Hw by lia.
  assert (N : forall i, (i < 4)%nat ->
                        nth i [b0; b1; b2; b3] x00 = nth (offset + i) hs x00).
  { intros i Hi. rewrite <- Hw, nth_firstn, nth_skipn.
    destruct (Nat.ltb_spec i 4); [reflexivity | lia]. }
  rewrite Hdt.
  pose proof (N 0%nat ltac:(lia)) as N0. rewrite Nat.add_0_r in N0.
  rewrite <- N0, <- (N 1%nat), <- (N 2%nat), <- (N 3%nat) by lia.
  reflexivity.
Qed.

Lemma window_value_range hs : 0 <= window_value hs < 2 ^ 31.
Proof.
  unfold window_value. cbv zeta.
  set (o := Z.to_nat _).
  pose proof (byte_to_Z_range (nth o hs x00)) as B0.
  pose proof (byte_to_Z_range (nth (o + 1) hs x00)) as B1.
  pose proof (byte_to_Z_range (nth (o + 2) hs x00)) as B2.
  pose proof (byte_to_Z_range (nth (o + 3) hs x00)) as B3.
  pose proof (Z.mod_pos_bound (byte_to_Z (nth o hs x00)) 128 eq_refl) as M.
  change (2 ^ 24) with 16777216. change (2 ^ 16) with 65536.
  change (2 ^ 8) with 256. change (2 ^ 31) with 2147483648. lia.
Qed.

Section TruncateFacts.

Variable u : option Q -> Z.

Lemma pow10_uint_wide d :
  0 <= d <= 19 -> float_to_uint64 u (Some (Pow10 (Float64.of_int d))) = 10 ^ d.
Proof.
  intros H.
  assert (C : d = 0 \/ d = 1 \/ d = 2 \/ d = 3 \/ d = 4 \/ d = 5 \/ d = 6 \/ d = 7
              \/ d = 8 \/ d = 9 \/ d = 10 \/ d = 11 \/ d = 12 \/ d = 13 \/ d = 14
              \/ d = 15 \/ d = 16 \/ d = 17 \/ d = 18 \/ d = 19) by lia.
  repeat (destruct C as [-> | C]; [vm_compute; reflexivity|]).
  subst d. vm_compute. reflexivity.
Qed.

(** The number that [truncate] reduces: the window read most significant
    byte first. *)
Lemma truncate_snum hs :
  (19 <= List.length hs)%nat ->
  forall otp,
    truncate u otp hs =
    let m := float_to_uint64 u (Some (Pow10 (Float64.of_int (Digit otp)))) in
    if m =? 0 then Panic DivideByZero else Ok (window_value hs mod m).
Proof.
  intros Hlen otp. destruct (dt_window hs Hlen) as [Hoff Hdt]. cbv zeta in Hoff, Hdt.
  unfold truncate. rewrite Hdt. cbn [bind].
  rewrite !index_in_range by (cbn [List.length]; lia). cbn [bind].
  change (Z.to_nat 3) with 3%nat. change (Z.to_nat 2) with 2%nat.
  change (Z.to_nat 1) with 1%nat. change (Z.to_nat 0) with 0%nat.
  cbn [nth]. cbv zeta.
  set (o := Z.to_nat _) in *.
  pose proof (byte_to_Z_range (nth o hs x00)) as B0.
  pose proof (byte_to_Z_range (nth (o + 1) hs x00)) as B1.
  pose proof (byte_to_Z_range (nth (o + 2) hs x00)) as B2.
  pose proof (byte_to_Z_range (nth (o + 3) hs x00)) as B3.
  set (c0 := byte_to_Z (nth o hs x00)) in *.
  set (c1 := byte_to_Z (nth (o + 1) hs x00)) in *.
  set (c2 := byte_to_Z (nth (o + 2) hs x00)) in *.
  set (c3 := byte_to_Z (nth (o + 3) hs x00)) in *.
  rewrite byte_to_of_Z, land_127 by lia.
  pose proof (Z.mod_pos_bound c0 128 eq_refl) as M.
  rewrite (Z.mod_small (c0 mod 128) 256) by lia.
  assert (E : Z.lor (Z.lor c3 (Z.shiftl c2 8))
                (Z.lor (Z.shiftl c1 16) (Z.shiftl (c0 mod 128) 24))
              = window_value hs).
  { unfold window_value. cbv zeta. fold o. fold c0 c1 c2 c3.
    apply be31_value; lia. }
  rewrite E. reflexivity.
Qed.

End TruncateFacts.

Section HOTPExtras.

Import Float64 Float64Facts.

Variable u : option Q -> Z.

Lemma pow10_uint_neg d :
  d < 0 -> float_to_uint64 u (Some (Pow10 (Float64.of_int d))) = 0.
Proof.
  intros Hd. unfold Pow10.
  assert (Hz : Qfloor (of_int d) <= -1).
  { rewrite <- (Qfloor_Z (-1)). apply Qfloor_resp_le.
    rewrite <- (of_int_exact (-1)) by lia. unfold of_int. apply round_mono.
    rewrite <- Zle_Qle. lia. }
  set (z := Qfloor (of_int d)) in *.
  apply float_to_uint64_floor.
  - lia.
  - apply Qlt_le_weak. apply Qpower_0_lt. reflexivity.
  - change (inject_Z (0 + 1)) with ((10 # 1) ^ 0)%Q.
    apply Qpower_lt_compat_l; [lia | reflexivity].
Qed.

(** X4.  With digests of at least 19 bytes and a digit count from 0 to 19,
    the code is the 31-bit big-endian value of the window, reduced modulo
    [10^Digit]; the value is below [2^31], so from 10 digits on nothing is
    reduced. *)
Theorem HOTP_window_value otp h secret count :
  Hash otp = Some h ->
  (forall m, (19 <= List.length (Sum h m))%nat) ->
  0 <= Digit otp <= 19 ->
  exists hs,
    hmacSum otp secret count = Ok hs
    /\ HOTP u otp secret count = Ok (window_value hs mod 10 ^ Digit otp)
    /\ 0 <= window_value hs < 2 ^ 31
    /\ (10 <= Digit otp -> HOTP u otp secret count = Ok (window_value hs)).
Proof.
  intros Hh Hlen Hd. unfold HOTP, hmacSum. rewrite Hh. cbn [bind].
  set (hs := HMAC.sum h secret _).
  assert (Hhs : (19 <= List.length hs)%nat) by (unfold hs, HMAC.sum; apply Hlen).
  pose proof (window_value_range hs) as Hw.
  assert (Hp : 0 < 10 ^ Digit otp) by (apply Z.pow_pos_nonneg; lia).
  assert (Ht : truncate u otp hs = Ok (window_value hs mod 10 ^ Digit otp)).
  { rewrite (truncate_snum u hs Hhs otp). cbv zeta.
    rewrite (pow10_uint_wide u (Digit otp) Hd).
    destruct (Z.eqb_spec (10 ^ Digit otp) 0); [lia | reflexivity]. }
  exists hs. repeat split; try assumption; try lia.
  intros H10. rewrite Ht. f_equal. apply Z.mod_small.
  assert (10 ^ 10 <= 10 ^ Digit otp) by (apply Z.pow_le_mono_r; lia).
  change (10 ^ 10) with 10000000000 in *. change (2 ^ 31) with 2147483648 in *. lia.
Qed.

(** X5.  With digests of at least 19 bytes, a negative digit count makes the
    modulus 0 and the reduction panic; a digit count of 0 makes every code
    0. *)
Theorem HOTP_degenerate_digits otp h secret count :
  Hash otp = Some h ->
  (forall m, (19 <= List.length (Sum h m))%nat) ->
  (Digit otp < 0 -> HOTP u otp secret count = Panic DivideByZero)
  /\ (Digit otp = 0 -> HOTP u otp secret count = Ok 0).
Proof.
  intros Hh Hlen. unfold HOTP, hmacSum. rewrite Hh. cbn [bind].
  set (hs := HMAC.sum h secret _).
  assert (Hhs : (19 <= List.length hs)%nat) by (unfold hs, HMAC.sum; apply Hlen).
  rewrite (truncate_snum u hs Hhs otp). cbv zeta. split; intros Hd.
  - rewrite (pow10_uint_neg (Digit otp) Hd). reflexivity.
  - rewrite (pow10_uint_wide u (Digit otp)) by lia. rewrite Hd.
    change (10 ^ 0) with 1. rewrite Z.mod_1_r. reflexivity.
Qed.

(** X1.  Every configuration that [New] builds, for 6 to 9 digits, comes
    without an error and generates codes: [HOTP] and [TOTP] return, for
    every secret, counter and time, a code within the digit count. *)
Theorem New_generates digit secret count now :
  6 <= digit <= 9 ->
  snd (New digit) = None
  /\ HOTP_in_range u (fst (New digit)) secret count
  /\ exists v, TOTP u (fst (New digit)) secret now = Ok v /\ 0 <= v < 10 ^ digit.
Proof.
  intros Hd.
  assert (E : New digit = ({| Digit := digit; TimeStep := 30 * time.Second;
                              BaseTime := time.Unix 0 0; Hash := Some SHA1.New |}, None)).
  { unfold New. destruct (Z.ltb_spec digit 6); [lia|].
    destruct (Z.gtb_spec digit 9); [lia | reflexivity]. }
  rewrite E. cbn [fst snd].
  assert (R : forall c, HOTP_in_range u
                {| Digit := digit; TimeStep := 30 * time.Second;
                   BaseTime := time.Unix 0 0; Hash := Some SHA1.New |} secret c).
  { intros c. unfold HOTP_in_range, HOTP, hmacSum. cbn [Hash bind].
    apply truncate_ok; [|cbn [Digit]; exact Hd].
    unfold HMAC.sum. change (Sum SHA1.New) with SHA1.sum.
    rewrite SHA1_sum_length. lia. }
  split; [reflexivity|]. split; [apply R|]. apply (R (steps u _ now)).
Qed.

(** X2.  A configuration with SHA-256 and 6 to 9 digits, whatever its step
    and base time, generates codes: [HOTP] and [TOTP] return a code within
    the digit count. *)
Theorem SHA256_generates otp secret count now :
  Hash otp = Some SHA256.New ->
  6 <= Digit otp <= 9 ->
  HOTP_in_range u otp secret count
  /\ exists v, TOTP u otp secret now = Ok v /\ 0 <= v < 10 ^ Digit otp.
Proof.
  intros Hh Hd.
  assert (R : forall c, HOTP_in_range u otp secret c).
  { intros c. unfold HOTP_in_range, HOTP, hmacSum. rewrite Hh. cbn [bind].
    apply truncate_ok; [|exact Hd].
    unfold HMAC.sum. change (Sum SHA256.New) with SHA256.sum.
    rewrite SHA256_sum_length. lia. }
  split; [apply R | apply (R (steps u otp now))].
Qed.

(** X3.  The configuration that [New] returns when it fails (fewer than 6 or
    more than 9 digits) is unusable: [HOTP], [TOTP] and [GOTP] panic on its
    nil hash, [GTimeLeft] on its zero step. *)
Theorem failed_New_panics digit secret count code now :
  digit < 6 \/ 9 < digit ->
  snd (New digit) <> None
  /\ HOTP u (fst (New digit)) secret count = Panic NilDereference
  /\ TOTP u (fst (New digit)) secret now = Panic NilDereference
  /\ GOTP u (fst (New digit)) code now = Panic NilDereference
  /\ GTimeLeft u (fst (New digit)) now = Panic DivideByZero.
Proof.
  intros Hd.
  assert (E : exists e, New digit = (zero_OneTimePassword, Some e)).
  { unfold New. destruct (Z.ltb_spec digit 6); [eexists; reflexivity|].
    destruct (Z.gtb_spec digit 9); [eexists; reflexivity | lia]. }
  destruct E as [e E]. rewrite E. cbn [fst snd].
  split; [discriminate|]. split; [reflexivity|]. split; [reflexivity|]. split.
  - unfold GOTP. destruct (base32.DecodeString code). reflexivity.
  - unfold GTimeLeft.
    replace (secStep u zero_OneTimePassword) with 0; [reflexivity|].
    symmetry. unfold secStep. apply float_to_uint64_floor; [lia | |];
      vm_compute; [discriminate | reflexivity].
Qed.

Lemma be_value_app l b : be_value (l ++ [b]) = be_value l * 256 + byte_to_Z b.
Proof. unfold be_value. rewrite fold_left_app. reflexivity. Qed.

Lemma be_bytes_spec n :
  forall x, List.length (Word32.be_bytes n x) = n
            /\ be_value (Word32.be_bytes n x) = Z.of_N x mod 2 ^ (8 * Z.of_nat n).
Proof.
  induction n as [|n IH]; intros x.
  - split; [reflexivity|]. cbn. rewrite Z.mod_1_r. reflexivity.
  - cbn [Word32.be_bytes]. destruct (IH (N.shiftr x 8)) as [L V]. split.
    + rewrite length_app, L. cbn. lia.
    + rewrite be_value_app, V.
      assert (Hb : byte_to_Z (byte_of_N x) = Z.of_N x mod 256).
      { unfold byte_to_Z. rewrite byte_to_of_N, N2Z.inj_mod. reflexivity. }
      rewrite Hb. rewrite N.shiftr_div_pow2, N2Z.inj_div.
      change (Z.of_N (2 ^ 8)) with 256.
      replace (8 * Z.of_nat (S n)) with (8 + 8 * Z.of_nat n) by lia.
      rewrite Z.pow_add_r by lia. change (2 ^ 8) with 256.
      rewrite (Z.rem_mul_r (Z.of_N x) 256 (2 ^ (8 * Z.of_nat n)))
        by (try apply Z.pow_pos_nonneg; lia).
      lia.
Qed.

(** X6.  [hmacSum] authenticates, under the secret, the counter written on 8
    bytes, most significant first: the value of the message is the counter
    modulo [2^64]. *)
Theorem hmacSum_counter otp h secret count :
  Hash otp = Some h ->
  exists msg,
    hmacSum otp secret count = Ok (HMAC.sum h secret msg)
    /\ List.length msg = 8%nat
    /\ be_value msg = count mod 2 ^ 64.
Proof.
  intros Hh. unfold hmacSum. rewrite Hh. eexists. split; [reflexivity|].
  destruct (be_bytes_spec 8 (Z.to_N (wrap_uint64 count))) as [L V].
  split; [exact L|]. rewrite V. unfold wrap_uint64.
  pose proof (Z.mod_pos_bound count (2 ^ 64) eq_refl).
  rewrite Z2N.id by lia. change (8 * Z.of_nat 8) with 64.
  apply Z.mod_mod. discriminate.
Qed.

End HOTPExtras.

Section SecretFacts.

Variable u : option Q -> Z.

Lemma firstn_repeat {A} (x : A) m n : firstn m (repeat x n) = repeat x (Nat.min m n).
Proof.
  revert n. induction m as [|m IH]; intros [|n]; cbn; try reflexivity.
  rewrite IH. reflexivity.
Qed.

Lemma key_block_zero_padded bs key k :
  (List.length key + k <= bs)%nat ->
  firstn bs ((key ++ repeat x00 k) ++ repeat x00 bs)
  = firstn bs (key ++ repeat x00 bs).
Proof.
  intros H. rewrite <- app_assoc, <- repeat_app.
  rewrite !firstn_app, !firstn_repeat.
  f_equal. f_equal. lia.
Qed.

(** X7.  Zero bytes appended to a secret do not change the result of [HOTP],
    as long as the padded secret is no longer than the block of the hash. *)
Theorem HOTP_zero_padded_secret otp h secret k count :
  Hash otp = Some h ->
  (List.length secret + k <= BlockSize h)%nat ->
  HOTP u otp (secret ++ repeat x00 k) count = HOTP u otp secret count.
Proof.
  intros Hh Hk. unfold HOTP, hmacSum. rewrite Hh. cbn [bind]. f_equal.
  unfold HMAC.sum.
  destruct (Nat.ltb_spec (BlockSize h) (List.length (secret ++ repeat x00 k)))
    as [L | L]; [rewrite length_app, repeat_length in L; lia|].
  destruct (Nat.ltb_spec (BlockSize h) (List.length secret)) as [L' | L']; [lia|].
  rewrite (key_block_zero_padded _ _ _ Hk). reflexivity.
Qed.

(** X8.  A secret longer than the block of the hash stands for its digest:
    when the digest fits in a block, the two give the same result. *)
Theorem HOTP_long_secret otp h secret count :
  Hash otp = Some h ->
  (BlockSize h < List.length secret)%nat ->
  (List.length (Sum h secret) <= BlockSize h)%nat ->
  HOTP u otp secret count = HOTP u otp (Sum h secret) count.
Proof.
  intros Hh Hlong Hshort. unfold HOTP, hmacSum. rewrite Hh. cbn [bind]. f_equal.
  unfold HMAC.sum.
  destruct (Nat.ltb_spec (BlockSize h) (List.length secret)) as [L | L]; [|lia].
  destruct (Nat.ltb_spec (BlockSize h) (List.length (Sum h secret))) as [L' | L'];
    [lia | reflexivity].
Qed.

End SecretFacts.

Section ClockFacts.

Import Float64 Float64Facts.

Variable u : option Q -> Z.

(** The whole seconds that a conversion keeps of a non-negative duration:
    its whole seconds, or one more. *)
Lemma whole_seconds d :
  0 <= d <= maxInt64 ->
  Z.quot d time.Second <= float_to_uint64 u (Some (time.Seconds d))
  <= Z.quot d time.Second + 1.
Proof.
  intros Hd.
  destruct (Seconds_bounds d Hd) as [B1 B2].
  pose proof (quot_Second_bounds d Hd) as Hq.
  destruct (Qlt_le_dec (time.Seconds d) (inject_Z (Z.quot d time.Second + 1)))
    as [L | L].
  - rewrite (float_to_uint64_floor u _ (Z.quot d time.Second)); try assumption; lia.
  - rewrite (float_to_uint64_floor u _ (Z.quot d time.Second + 1));
      try assumption; try lia.
    eapply Qle_lt_trans; [exact B2|]. rewrite <- Zlt_Qlt. lia.
Qed.

Lemma whole_seconds_exact s :
  0 <= s < 2 ^ 53 -> float_to_uint64 u (Some (time.Seconds (s * time.Second))) = s.
Proof.
  intros Hs. pose proof (Seconds_whole s ltac:(lia)) as E.
  apply float_to_uint64_floor.
  - lia.
  - rewrite E. apply Qle_refl.
  - rewrite E. rewrite <- Zlt_Qlt. lia.
Qed.

(** The quotient of [steps] for a step of whole seconds. *)
Lemma div_whole_seconds e s :
  1 <= s -> 0 <= e -> e + s <= 2 ^ 52 ->
  float_to_uint64 u (Float64.div (of_int e) (time.Seconds (s * time.Second)))
  = e / s.
Proof.
  intros Hs He Hb.
  pose proof (Seconds_whole s ltac:(lia)) as ES.
  pose proof (of_int_exact e ltac:(lia)) as EE.
  assert (HS : (0 < inject_Z s)%Q)
    by (change 0%Q with (inject_Z 0); rewrite <- Zlt_Qlt; lia).
  unfold Float64.div.
  destruct (Qeq_bool (time.Seconds (s * time.Second)) 0) eqn:Ez.
  { apply Qeq_bool_iff in Ez. rewrite ES in Ez. rewrite Ez in HS. discriminate. }
  set (k := e / s).
  pose proof (Z.mul_div_le e s ltac:(lia)) as K1. fold k in K1.
  pose proof (Z.mul_succ_div_gt e s ltac:(lia)) as K2. fold k in K2.
  assert (K0 : 0 <= k) by (apply Z.div_pos; lia).
  assert (ER : (round (of_int e / time.Seconds (s * time.Second)%Z)
                == round (inject_Z e / inject_Z s))%Q).
  { apply round_comp. rewrite EE, ES. reflexivity. }
  destruct (log2_up_bounds s ltac:(lia)) as [[G0 G1] [G2 G3]].
  set (g := Z.log2_up s) in *.
  set (m := (k + 1) * 2 ^ g - 1).
  assert (Hm : 0 <= m < 2 ^ 53) by (subst m; nia).
  apply float_to_uint64_floor.
  - nia.
  - rewrite ER. rewrite <- (of_int_exact k) by nia. unfold of_int. apply round_mono.
    apply Qle_shift_div_l; [exact HS|]. rewrite <- inject_Z_mult, <- Zle_Qle. lia.
  - rewrite ER.
    apply Qle_lt_trans with (inject_Z m * pow2 (- g))%Q.
    + rewrite <- (round_exact m (- g)) by lia. apply round_mono.
      apply Qle_shift_div_r; [exact HS|].
      rewrite (scale_pow2 e g G0).
      setoid_replace (inject_Z m * pow2 (- g) * inject_Z s)%Q
        with (inject_Z (m * s) * pow2 (- g))%Q by (rewrite inject_Z_mult; ring).
      apply Qmult_le_compat_r; [|apply Qlt_le_weak, pow2_pos].
      rewrite <- Zle_Qle. subst m. nia.
    + rewrite (scale_pow2 (k + 1) g G0).
      apply Qmult_lt_compat_r; [apply pow2_pos|]. rewrite <- Zlt_Qlt. subst m. lia.
Qed.

Lemma steps_whole otp now s :
  TimeStep otp = s * time.Second -> 1 <= s ->
  0 <= time.Unix_of now - time.Unix_of (BaseTime otp) ->
  time.Unix_of now - time.Unix_of (BaseTime otp) + s <= 2 ^ 52 ->
  steps u otp now = (time.Unix_of now - time.Unix_of (BaseTime otp)) / s.
Proof.
  intros Ht Hs He Hb. unfold steps.
  set (e := time.Unix_of now - time.Unix_of (BaseTime otp)) in *.
  assert (Hw : wrap_int64 e = e).
  { unfold wrap_int64. rewrite Z.mod_small by lia. lia. }
  rewrite Hw, Ht. apply div_whole_seconds; assumption.
Qed.

(** At an instant a whole number [e] of seconds after the base time, the
    elapsed seconds are [e]. *)
Lemma secsSinceBase_whole otp now :
  time.nsec now = time.nsec (BaseTime otp) ->
  0 <= time.Unix_of now - time.Unix_of (BaseTime otp) ->
  (time.Unix_of now - time.Unix_of (BaseTime otp)) * time.Second <= maxInt64 ->
  secsSinceBase u otp now = time.Unix_of now - time.Unix_of (BaseTime otp).
Proof.
  intros Hn He Hmax. unfold secsSinceBase.
  set (e := time.Unix_of now - time.Unix_of (BaseTime otp)) in *.
  assert (Hsub : time.Sub now (BaseTime otp) = e * time.Second).
  { unfold time.Sub. rewrite Hn. unfold time.Unix_of in e. fold e.
    unfold minInt64, maxInt64, time.Second in *. lia. }
  rewrite Hsub. apply whole_seconds_exact.
  unfold maxInt64, time.Second in Hmax. lia.
Qed.

Lemma GTimeLeft_whole otp now s :
  TimeStep otp = s * time.Second -> 1 <= s -> s * time.Second <= maxInt64 ->
  time.nsec now = time.nsec (BaseTime otp) ->
  0 <= time.Unix_of now - time.Unix_of (BaseTime otp) ->
  (time.Unix_of now - time.Unix_of (BaseTime otp)) * time.Second <= maxInt64 ->
  GTimeLeft u otp now
  = Ok (s - (time.Unix_of now - time.Unix_of (BaseTime otp)) mod s).
Proof.
  intros Ht Hs Hmax Hn He Hemax.
  unfold GTimeLeft.
  assert (Hstep : secStep u otp = s).
  { unfold secStep. rewrite Ht. apply whole_seconds_exact.
    unfold maxInt64, time.Second in Hmax. lia. }
  rewrite Hstep, (secsSinceBase_whole otp now Hn He Hemax).
  set (e := time.Unix_of now - time.Unix_of (BaseTime otp)) in *.
  pose proof (Z.mod_pos_bound e s ltac:(lia)) as Hmod.
  destruct (Z.eqb_spec s 0); [lia|].
  unfold wrap_uint64, wrap_int64, maxInt64, time.Second in *. f_equal.
  rewrite (Z.mod_small (s - e mod s)) by lia.
  rewrite Z.mod_small by lia. lia.
Qed.


(** X9.  For a non-negative step and whatever the current time, [GTimeLeft]
    returns exactly when the step has at least one whole second; its result
    is then at least 1 and at most the whole seconds of the step plus one.
    With a shorter step it panics. *)
Theorem GTimeLeft_returns otp now :
  0 <= TimeStep otp <= maxInt64 ->
  (time.Second <= TimeStep otp ->
   exists r, GTimeLeft u otp now = Ok r
             /\ 1 <= r <= Z.quot (TimeStep otp) time.Second + 1)
  /\ (TimeStep otp < time.Second -> GTimeLeft u otp now = Panic DivideByZero).
Proof.
  intros Ht. split; intros Hs.
  - pose proof (whole_seconds (TimeStep otp) Ht) as Hq.
    pose proof (quot_Second_bounds (TimeStep otp) Ht) as Hb.
    assert (H1 : 1 <= Z.quot (TimeStep otp) time.Second).
    { unfold time.Second in *. rewrite Z.quot_div_nonneg by lia.
      apply Z.div_le_lower_bound; lia. }
    unfold GTimeLeft. fold (secStep u otp) in Hq.
    set (st := secStep u otp) in *.
    set (since := secsSinceBase u otp now).
    pose proof (Z.mod_pos_bound since st ltac:(lia)) as Hmod.
    destruct (Z.eqb_spec st 0); [lia|].
    exists (st - since mod st). split; [|lia].
    unfold wrap_uint64, wrap_int64. f_equal.
    rewrite (Z.mod_small (st - since mod st)) by lia.
    rewrite Z.mod_small by lia. lia.
  - assert (H0 : secStep u otp = 0).
    { unfold secStep.
      destruct (Seconds_sub_second (TimeStep otp) ltac:(lia)) as [S0 S1].
      apply float_to_uint64_floor; [lia | exact S0 | exact S1]. }
    unfold GTimeLeft. rewrite H0. reflexivity.
Qed.

(** X10.  With a step of [s >= 1] whole seconds, at a whole number [e >= 0]
    of seconds after the base time, the instant one second later still
    within the range of a [Duration] after the base time
    ([(e + 1) * 10^9 <= 2^63 - 1]; beyond it the subtraction saturates),
    [GTimeLeft] returns some [r] in [1, s]; one second later it returns
    [r - 1], or [s] again when [r] was 1. *)
Theorem GTimeLeft_counts_down otp now s :
  TimeStep otp = s * time.Second -> 1 <= s -> s * time.Second <= maxInt64 ->
  time.nsec now = time.nsec (BaseTime otp) ->
  0 <= time.Unix_of now - time.Unix_of (BaseTime otp) ->
  (time.Unix_of now - time.Unix_of (BaseTime otp) + 1) * time.Second <= maxInt64 ->
  exists r,
    GTimeLeft u otp now = Ok r /\ 1 <= r <= s
    /\ GTimeLeft u otp (after now 1) = Ok (if r =? 1 then s else r - 1).
Proof.
  intros Ht Hs Hsm Hn He Hmax.
  set (e := time.Unix_of now - time.Unix_of (BaseTime otp)) in *.
  assert (Hem : e * time.Second <= maxInt64) by (unfold time.Second in *; lia).
  pose proof (GTimeLeft_whole otp now s Ht Hs Hsm Hn He Hem) as G0. fold e in G0.
  assert (E1 : time.Unix_of (after now 1) - time.Unix_of (BaseTime otp) = e + 1)
    by (unfold e, after, time.Unix_of; cbn; lia).
  pose proof (GTimeLeft_whole otp (after now 1) s Ht Hs Hsm Hn) as G1.
  rewrite E1 in G1. specialize (G1 ltac:(lia) ltac:(unfold time.Second in *; lia)).
  pose proof (Z.mod_pos_bound e s ltac:(lia)) as Hm.
  exists (s - e mod s). split; [exact G0|]. split; [lia|].
  rewrite G1. f_equal.
  destruct (Z.eqb_spec (s - e mod s) 1) as [R | R].
  - assert (M : (e + 1) mod s = 0).
    { symmetry. apply (Z.mod_unique_pos (e + 1) s (e / s + 1) 0); [lia|].
      pose proof (Z.div_mod e s ltac:(lia)). lia. }
    lia.
  - assert (M : (e + 1) mod s = e mod s + 1).
    { symmetry. apply (Z.mod_unique_pos (e + 1) s (e / s) (e mod s + 1)); [lia|].
      pose proof (Z.div_mod e s ltac:(lia)). lia. }
    lia.
Qed.

(** X11.  With a step of [s >= 1] whole seconds, at a whole number [e >= 0]
    of seconds after the base time, within the range of a [Duration]
    ([e * 10^9 <= 2^63 - 1]; beyond it the subtraction saturates), the
    remaining time [r] that [GTimeLeft] announces is the time during which
    the counter, hence the code of [TOTP], stays the same: both are
    unchanged [k < r] seconds later, and the counter is one more [r] seconds
    later. *)
Theorem code_changes_when_time_runs_out otp now s secret :
  TimeStep otp = s * time.Second -> 1 <= s -> s * time.Second <= maxInt64 ->
  time.nsec now = time.nsec (BaseTime otp) ->
  0 <= time.Unix_of now - time.Unix_of (BaseTime otp) ->
  (time.Unix_of now - time.Unix_of (BaseTime otp)) * time.Second <= maxInt64 ->
  exists r,
    GTimeLeft u otp now = Ok r
    /\ (forall k, 0 <= k < r ->
                  steps u otp (after now k) = steps u otp now
                  /\ TOTP u otp secret (after now k) = TOTP u otp secret now)
    /\ steps u otp (after now r) = steps u otp now + 1.
Proof.
  intros Ht Hs Hsm Hn He Hem.
  set (e := time.Unix_of now - time.Unix_of (BaseTime otp)) in *.
  assert (Hsmall : e + s + s <= 2 ^ 52)
    by (unfold maxInt64, time.Second in *; lia).
  pose proof (GTimeLeft_whole otp now s Ht Hs Hsm Hn He Hem) as G0. fold e in G0.
  pose proof (Z.mod_pos_bound e s ltac:(lia)) as Hm.
  pose proof (Z.div_mod e s ltac:(lia)) as Hdm.
  assert (S0 : steps u otp now = e / s) by (apply steps_whole; fold e; lia).
  assert (Sk : forall k, 0 <= k <= s ->
                         steps u otp (after now k) = (e + k) / s).
  { intros k Hk.
    assert (Ek : time.Unix_of (after now k) - time.Unix_of (BaseTime otp) = e + k)
      by (unfold e, after, time.Unix_of; cbn; lia).
    rewrite (steps_whole otp (after now k) s Ht Hs); rewrite Ek; lia. }
  exists (s - e mod s). split; [exact G0|]. split.
  - intros k Hk.
    assert (Hs' : steps u otp (after now k) = steps u otp now).
    { rewrite Sk, S0 by lia. symmetry.
      apply (Z.div_unique_pos (e + k) s (e / s) (e mod s + k)); lia. }
    split; [exact Hs'|]. unfold TOTP. rewrite Hs'. reflexivity.
  - rewrite Sk, S0 by lia.
    symmetry. apply (Z.div_unique_pos (e + (s - e mod s)) s (e / s + 1) 0); lia.
Qed.

Lemma float_to_uint64_Qfloor q :
  (0 <= q)%Q -> (q <= inject_Z (2 ^ 63))%Q ->
  float_to_uint64 u (Some q) = Qfloor q /\ 0 <= Qfloor q <= 2 ^ 63.
Proof.
  intros H0 H1.
  assert (K0 : 0 <= Qfloor q).
  { rewrite <- (Qfloor_Z 0). apply Qfloor_resp_le. exact H0. }
  assert (K1 : Qfloor q <= 2 ^ 63).
  { rewrite <- (Qfloor_Z (2 ^ 63)). apply Qfloor_resp_le. exact H1. }
  split; [|lia].
  apply float_to_uint64_floor; [lia | apply Qfloor_le | apply Qlt_floor].
Qed.

(** X12.  With a step of one second or more, whole or not, the counter never
    goes back: of two query times at or after the base time, the later one
    gets a counter at least as large. *)
Theorem steps_monotone otp now now' :
  time.Second <= TimeStep otp <= maxInt64 ->
  0 <= time.Unix_of now - time.Unix_of (BaseTime otp) ->
  time.Unix_of now <= time.Unix_of now' ->
  time.Unix_of now' - time.Unix_of (BaseTime otp) <= maxInt64 ->
  steps u otp now <= steps u otp now'.
Proof.
  intros Ht He Hle Hmax.
  set (e := time.Unix_of now - time.Unix_of (BaseTime otp)) in *.
  set (e' := time.Unix_of now' - time.Unix_of (BaseTime otp)) in *.
  assert (Hee : e <= e') by (unfold e, e'; lia).
  assert (Ht0 : 0 <= TimeStep otp <= maxInt64) by (unfold time.Second in Ht; lia).
  destruct (Seconds_bounds (TimeStep otp) Ht0) as [B1 _].
  assert (H1 : 1 <= Z.quot (TimeStep otp) time.Second).
  { unfold time.Second in *. rewrite Z.quot_div_nonneg by lia.
    apply Z.div_le_lower_bound; lia. }
  assert (HS : (1 <= time.Seconds (TimeStep otp))%Q).
  { eapply Qle_trans; [|exact B1]. change 1%Q with (inject_Z 1).
    rewrite <- Zle_Qle. exact H1. }
  assert (E63 : (round (inject_Z (2 ^ 63)) == inject_Z (2 ^ 63))%Q).
  { rewrite (round_comp (inject_Z (2 ^ 63)) (inject_Z (2 ^ 52) * pow2 11)%Q)
      by (rewrite (pow2_Z 11) by lia; rewrite <- inject_Z_mult; reflexivity).
    rewrite round_exact by lia.
    rewrite (pow2_Z 11) by lia. rewrite <- inject_Z_mult. reflexivity. }
  unfold steps. fold e e'.
  assert (W : forall x, 0 <= x <= maxInt64 -> wrap_int64 x = x).
  { intros x Hx. unfold wrap_int64, maxInt64 in *. rewrite Z.mod_small by lia. lia. }
  rewrite !W by lia.
  unfold Float64.div.
  destruct (Qeq_bool (time.Seconds (TimeStep otp)) 0) eqn:Ez.
  { apply Qeq_bool_iff in Ez. lra. }
  set (S := time.Seconds (TimeStep otp)) in *.
  assert (HS0 : (0 < S)%Q) by lra.
  assert (O : forall x, 0 <= x <= maxInt64 ->
                        (0 <= of_int x <= inject_Z (2 ^ 63))%Q).
  { intros x Hx. unfold of_int. split.
    - apply round_nonneg. change 0%Q with (inject_Z 0). rewrite <- Zle_Qle. lia.
    - rewrite <- E63. apply round_mono. rewrite <- Zle_Qle.
      unfold maxInt64 in Hx. lia. }
  assert (D : forall a, (0 <= a)%Q -> (0 <= a / S <= a)%Q).
  { intros a Ha. split.
    - apply Qle_shift_div_l; [exact HS0 | lra].
    - apply Qle_shift_div_r; [exact HS0|].
      nra. }
  assert (V : forall x, 0 <= x <= maxInt64 ->
                        (0 <= round (of_int x / S) <= inject_Z (2 ^ 63))%Q).
  { intros x Hx. destruct (O x Hx) as [O1 O2]. destruct (D _ O1) as [D1 D2].
    split; [apply round_nonneg; exact D1|].
    rewrite <- E63. apply round_mono. lra. }
  destruct (V e ltac:(lia)) as [V1 V2]. destruct (V e' ltac:(lia)) as [V1' V2'].
  rewrite (proj1 (float_to_uint64_Qfloor _ V1 V2)).
  rewrite (proj1 (float_to_uint64_Qfloor _ V1' V2')).
  apply Qfloor_resp_le. apply round_mono.
  apply Qmult_le_compat_r; [|apply Qlt_le_weak, Qinv_lt_0_compat, HS0].
  unfold of_int. apply round_mono. rewrite <- Zle_Qle. exact Hee.
Qed.

Lemma trunc_small_neg v : (-1 < v)%Q -> (v <= 0)%Q -> trunc v = 0.
Proof.
  destruct v as [n d]. unfold Qlt, Qle, trunc. cbn [Qnum Qden]. intros H1 H2.
  replace n with (- - n) by lia. rewrite Z.quot_opp_l by discriminate.
  rewrite Z.quot_small by lia. reflexivity.
Qed.

(** X13.  With a step of [s] whole seconds, a query time less than [s]
    seconds before the base time gets the counter 0, as the first step
    does. *)
Theorem steps_just_before_base otp now s :
  TimeStep otp = s * time.Second ->
  1 <= s -> s * time.Second <= maxInt64 ->
  - s < time.Unix_of now - time.Unix_of (BaseTime otp) <= 0 ->
  steps u otp now = 0.
Proof.
  intros Ht Hs Hmax He.
  set (e := time.Unix_of now - time.Unix_of (BaseTime otp)) in *.
  assert (Hs53 : 1 <= s < 2 ^ 53) by (unfold maxInt64, time.Second in Hmax; lia).
  unfold steps. fold e.
  assert (Hw : wrap_int64 e = e).
  { unfold wrap_int64. replace (e + 2 ^ 63) with (e + 2 ^ 63 + 0) by lia.
    rewrite Z.mod_small by lia. lia. }
  rewrite Hw, Ht.
  pose proof (Seconds_whole s ltac:(lia)) as ES.
  pose proof (of_int_exact e ltac:(lia)) as EE.
  assert (HS : (0 < inject_Z s)%Q)
    by (change 0%Q with (inject_Z 0); rewrite <- Zlt_Qlt; lia).
  unfold Float64.div.
  destruct (Qeq_bool (time.Seconds (s * time.Second)) 0) eqn:Ez.
  { apply Qeq_bool_iff in Ez. rewrite ES in Ez. rewrite Ez in HS. discriminate. }
  assert (ER : (round (of_int e / time.Seconds (s * time.Second)%Z)
                == round (inject_Z e / inject_Z s))%Q).
  { apply round_comp. rewrite EE, ES. reflexivity. }
  assert (Hup : (round (inject_Z e / inject_Z s) <= 0)%Q).
  { apply round_nonpos. apply Qle_shift_div_r; [exact HS|].
    rewrite Qmult_0_l. change 0%Q with (inject_Z 0). rewrite <- Zle_Qle. lia. }
  assert (Hlow : (-1 < round (inject_Z e / inject_Z s))%Q).
  { destruct (Z.eq_dec e 0) as [E0 | E0].
    - rewrite E0. rewrite round_zero_eq; [reflexivity|].
      unfold Qdiv. apply Qmult_0_l.
    - destruct (log2_up_bounds s Hs53) as [[G0 G1] [G2 G3]].
      set (g := Z.log2_up s) in *.
      set (m := 2 ^ g - 1).
      assert (Hm : 0 < m < 2 ^ 53).
      { subst m. split; [lia|].
        assert (2 ^ g <= 2 ^ 53) by (apply Z.pow_le_mono_r; lia). lia. }
      set (y := (inject_Z m * pow2 (- g))%Q).
      assert (Hy0 : (0 < y)%Q).
      { apply Qmult_lt_0_compat; [|apply pow2_pos].
        change 0%Q with (inject_Z 0). rewrite <- Zlt_Qlt. lia. }
      assert (Hy1 : (y < 1)%Q).
      { change 1%Q with (inject_Z 1). rewrite (scale_pow2 1 g G0).
        apply Qmult_lt_compat_r; [apply pow2_pos|]. rewrite <- Zlt_Qlt.
        subst m. lia. }
      assert (Ry : (round (- y) == - y)%Q).
      { rewrite round_neg_eq by lra.
        rewrite (round_pos_comp (- - y) y) by lra.
        unfold y. rewrite round_pos_exact by lia. reflexivity. }
      apply Qlt_le_trans with (- y)%Q; [lra|].
      rewrite <- Ry. apply round_mono.
      apply Qle_shift_div_l; [exact HS|].
      (* - y * s <= e, that is (- e) * 2^g <= m * s *)
      setoid_replace (- y * inject_Z s)%Q
        with (- (inject_Z (m * s) * pow2 (- g)))%Q
        by (unfold y; rewrite inject_Z_mult; ring).
      rewrite (scale_pow2 e g G0).
      setoid_replace (inject_Z (e * 2 ^ g) * pow2 (- g))%Q
        with (- (inject_Z (- e * 2 ^ g) * pow2 (- g)))%Q
        by (rewrite !inject_Z_mult, inject_Z_opp; ring).
      apply Qopp_le_compat.
      apply Qmult_le_compat_r; [|apply Qlt_le_weak, pow2_pos].
      rewrite <- Zle_Qle. subst m. nia. }
  rewrite <- ER in Hup, Hlow.
  unfold float_to_uint64. rewrite (trunc_small_neg _ Hlow Hup). reflexivity.
Qed.

End ClockFacts.

Section GroupingFacts.

Local Open Scope string_scope.

Lemma PPrint_digits code :
  all_digits code = true -> PPrint code = format_grouped code.
Proof.
  intros Hd. rewrite PPrint_untrimmed, untrimmed_grouped.
  destruct (full_groups code).
  - rewrite TrimSpace_app_space. apply TrimSpace_grouped_digits, Hd.
  - rewrite append_nil_r. apply TrimSpace_grouped_digits, Hd.
Qed.

Lemma digit_not_space c : is_digit c = true -> Ascii.eqb c " " = false.
Proof.
  intros H. apply Ascii.eqb_neq. intros ->. discriminate H.
Qed.

Lemma remove_spaces_grouped code :
  all_digits code = true -> remove_spaces (format_grouped code) = code.
Proof.
  revert code. fix IH 1. intros code Hd.
  destruct code as [|a [|b [|c rest]]]; [reflexivity | | |].
  - cbn in Hd |- *. rewrite andb_true_r in Hd. rewrite (digit_not_space a Hd).
    reflexivity.
  - cbn in Hd |- *. rewrite andb_true_r in Hd. apply andb_true_iff in Hd.
    destruct Hd as [Ha Hb].
    rewrite (digit_not_space a Ha), (digit_not_space b Hb). reflexivity.
  - cbn [all_digits] in Hd.
    apply andb_true_iff in Hd. destruct Hd as [Ha Hd].
    apply andb_true_iff in Hd. destruct Hd as [Hb Hd].
    apply andb_true_iff in Hd. destruct Hd as [Hc Hd].
    pose proof (IH rest Hd) as IHr.
    destruct rest as [|d rest'].
    + cbn. rewrite (digit_not_space a Ha), (digit_not_space b Hb),
        (digit_not_space c Hc). reflexivity.
    + rewrite format_grouped_step. cbn [remove_spaces].
      rewrite (digit_not_space a Ha), (digit_not_space b Hb),
        (digit_not_space c Hc).
      change (Ascii.eqb " " " ") with true. cbv iota. rewrite IHr. reflexivity.
Qed.

Lemma format_grouped_length code :
  String.length (format_grouped code)
  = (String.length code + (String.length code + 2) / 3 - 1)%nat.
Proof.
  revert code. fix IH 1. intros code.
  destruct code as [|a [|b [|c rest]]]; try reflexivity.
  pose proof (IH rest) as IHr.
  destruct rest as [|d rest']; [reflexivity|].
  rewrite format_grouped_step. cbn [String.length]. rewrite IHr.
  cbn [String.length].
  set (n := String.length rest').
  replace (S (S (S (S n))) + 2)%nat with (1 * 3 + (S n + 2))%nat by lia.
  rewrite Nat.div_add_l by discriminate.
  assert (1 <= (S n + 2) / 3)%nat.
  { apply Nat.div_le_lower_bound; lia. }
  lia.
Qed.

(** X16.  On a string of digits [PPrint] only inserts spaces: without them
    the result is the input again, and its length is that of the input plus
    one space between consecutive groups. *)
Theorem PPrint_only_inserts_spaces code :
  all_digits code = true ->
  remove_spaces (PPrint code) = code
  /\ String.length (PPrint code)
     = (String.length code + (String.length code + 2) / 3 - 1)%nat.
Proof.
  intros Hd. rewrite (PPrint_digits code Hd). split.
  - apply remove_spaces_grouped, Hd.
  - apply format_grouped_length.
Qed.

(** X17.  A code of 6 digits is printed in two blocks of three, a code of 7,
    8 or 9 digits in three blocks, the last one holding the digits left;
    one space separates the blocks. *)
Theorem PPrint_two_or_three_blocks code :
  all_digits code = true ->
  (6 <= String.length code <= 9)%nat ->
  PPrint code =
  substring 0 3 code ++ " " ++ substring 3 3 code
  ++ (if (String.length code =? 6)%nat then "" else " " ++ substring 6 3 code).
Proof.
  intros Hd Hl. rewrite (PPrint_digits code Hd).
  destruct code as [|c1 [|c2 [|c3 [|c4 [|c5 [|c6 [|c7 [|c8 [|c9 [|c10 r]]]]]]]]]];
    cbn [String.length] in Hl; try lia; reflexivity.
Qed.

End GroupingFacts.

Section WrapperFacts.

Local Open Scope string_scope.

Variable u : option Q -> Z.

(** X15.  With the configuration of [New(6)], [GOTP] returns for every
    secret, base32 or not, and every time: a code of exactly 6 digits with
    the decoder's error, which [PPrint] shows as two blocks of three. *)
Theorem GOTP_default_code secret now :
  exists code,
    GOTP u (fst (New 6)) secret now = Ok (code, snd (base32.DecodeString secret))
    /\ String.length code = 6%nat
    /\ all_digits code = true
    /\ PPrint code = substring 0 3 code ++ " " ++ substring 3 3 code.
Proof.
  destruct (GOTP_default_six_digits u secret now) as (code & HG & Hl & Hd).
  exists code. repeat split; try assumption.
  rewrite (PPrint_digits code Hd).
  destruct code as [|c1 [|c2 [|c3 [|c4 [|c5 [|c6 [|c7 r]]]]]]];
    cbn [String.length] in Hl; try lia. reflexivity.
Qed.

End WrapperFacts.

(** * Instances and counterexamples *)

(** C1 (counterexample).  The configuration with 6 digits and MD5 has
    digests of 16 bytes: for the RFC secret and the counter 0 the low 4 bits
    of the last byte are 15, the slice of [dt] leaves the digest and [HOTP]
    panics instead of returning a code. *)
Lemma HOTP_md5_panics :
  6 <= Digit otp_md5 <= 9
  /\ HOTP platform0 otp_md5 rfc4226_secret 0 = Panic SliceOutOfRange
  /\ ~ HOTP_in_range platform0 otp_md5 rfc4226_secret 0.
Proof.
  assert (H : HOTP platform0 otp_md5 rfc4226_secret 0 = Panic SliceOutOfRange)
    by (vm_compute; reflexivity).
  split; [cbn; lia|]. split; [exact H|].
  intros (v & Hv & _). rewrite H in Hv. discriminate.
Qed.

Lemma HOTP_range_witness :
  Hash (fst (New 6)) = Some SHA1.New
  /\ 6 <= Digit (fst (New 6)) <= 9
  /\ HOTP_in_range platform0 (fst (New 6)) rfc4226_secret 0.
Proof.
  split; [reflexivity|]. split; [cbn; lia|].
  apply (HOTP_range platform0 (fst (New 6)) SHA1.New rfc4226_secret 0).
  - reflexivity.
  - cbn. lia.
  - intro m. change (Sum SHA1.New m) with (SHA1.sum m).
    rewrite SHA1_sum_length. lia.
Defined.

Lemma dt_in_bounds_witness :
  let hs := HMAC.sum SHA1.New rfc4226_secret (Word32.be_bytes 8 0) in
  (20 <= List.length hs)%nat
  /\ exists l p,
       index hs (Z.of_nat (List.length hs) - 1) = Ok l
       /\ Z.land (byte_to_Z l) 0xf + 4 <= Z.of_nat (List.length hs)
       /\ slice hs (Z.land (byte_to_Z l) 0xf) (Z.land (byte_to_Z l) 0xf + 4) = Ok p
       /\ List.length p = 4%nat
       /\ (exists q, dt hs = Ok q /\ List.length q = 4%nat)
       /\ (forall otp, 6 <= Digit otp <= 9 ->
                       exists v, truncate platform0 otp hs = Ok v).
Proof.
  intros hs.
  assert (H : (20 <= List.length hs)%nat).
  { unfold hs, HMAC.sum. change (Sum SHA1.New) with SHA1.sum.
    rewrite SHA1_sum_length. lia. }
  split; [exact H|]. apply (dt_in_bounds platform0 hs H).
Defined.

Lemma New_spec_witness :
  6 <= 7 <= 9
  /\ New 7 = ({| Digit := 7; TimeStep := 30 * time.Second;
                 BaseTime := time.Unix 0 0; Hash := Some SHA1.New |}, None).
Proof.
  split; [lia|]. apply (proj1 (New_spec 7)). lia.
Defined.

(** C4 (counterexample).  [steps] is not the floor of the elapsed time
    divided by the step
    - for a large elapsed time, whose conversion to [float64] rounds
      (above [2^53]; here with the configuration of [New(6)]);
    - for a step whose length in seconds is not a [float64] (1.1 s; here
      after 1122 seconds, 1019 instead of 1020);
    - for a step of 1.5 s after [2^53 - 31] seconds, where the quotient ends
      in 2/3 and the [float64] next to it is the next integer;
    - for a base time with a fraction of a second larger than that of the
      query time: [steps] subtracts the whole Unix seconds of the two, here 30
      where 29.000000001 s have elapsed;
    - for a step of 1.5 s after 1.5 s, of which [steps] sees 1 s. *)
Lemma steps_not_floor :
  (0 < TimeStep (fst (New 6))
   /\ 0 <= elapsed_ns (fst (New 6)) (time.Unix 9007199254741019 0)
   /\ steps platform0 (fst (New 6)) (time.Unix 9007199254741019 0) = 300239975158034
   /\ steps_spec (fst (New 6)) (time.Unix 9007199254741019 0) = 300239975158033
   /\ ~ steps_is_floor platform0 (fst (New 6)) (time.Unix 9007199254741019 0))
  /\ (0 < TimeStep otp_1100ms
      /\ 0 <= elapsed_ns otp_1100ms (time.Unix 1122 0)
      /\ steps platform0 otp_1100ms (time.Unix 1122 0) = 1019
      /\ steps_spec otp_1100ms (time.Unix 1122 0) = 1020
      /\ ~ steps_is_floor platform0 otp_1100ms (time.Unix 1122 0))
  /\ (0 < TimeStep otp_1500ms
      /\ 0 <= elapsed_ns otp_1500ms (time.Unix (2 ^ 53 - 31) 0)
      /\ steps platform0 otp_1500ms (time.Unix (2 ^ 53 - 31) 0) = 6004799503160641
      /\ steps_spec otp_1500ms (time.Unix (2 ^ 53 - 31) 0) = 6004799503160640
      /\ ~ steps_is_floor platform0 otp_1500ms (time.Unix (2 ^ 53 - 31) 0))
  /\ (0 < TimeStep otp_late_base
      /\ 0 <= elapsed_ns otp_late_base (time.Unix 30 0)
      /\ steps platform0 otp_late_base (time.Unix 30 0) = 1
      /\ steps_spec otp_late_base (time.Unix 30 0) = 0
      /\ ~ steps_is_floor platform0 otp_late_base (time.Unix 30 0))
  /\ (0 < TimeStep otp_1500ms
      /\ 0 <= elapsed_ns otp_1500ms (time.Unix 1 500000000)
      /\ steps platform0 otp_1500ms (time.Unix 1 500000000) = 0
      /\ steps_spec otp_1500ms (time.Unix 1 500000000) = 1
      /\ ~ steps_is_floor platform0 otp_1500ms (time.Unix 1 500000000)).
Proof.
  repeat match goal with |- _ /\ _ => split end;
    try (vm_compute; reflexivity); try (vm_compute; discriminate);
    intros [H _]; vm_compute in H; discriminate.
Qed.

Lemma steps_floor_witness :
  TimeStep (fst (New 6)) = 30 * (time.Second / 2 ^ 0)
  /\ 0 <= time.nsec (BaseTime (fst (New 6))) <= time.nsec (time.Unix 59 500000000)
  /\ steps_is_floor platform0 (fst (New 6)) (time.Unix 59 500000000)
  /\ steps platform0 (fst (New 6)) (time.Unix 59 500000000) = 1.
Proof.
  split; [reflexivity|]. split; [vm_compute; split; discriminate|].
  apply (steps_floor platform0 (fst (New 6)) (time.Unix 59 500000000) 30 0).
  - lia.
  - lia.
  - reflexivity.
  - vm_compute. discriminate.
  - vm_compute. split; discriminate.
  - right. vm_compute. reflexivity.
  - vm_compute. split; discriminate.
  - vm_compute. reflexivity.
  - left. reflexivity.
Defined.

(** C7 (counterexample).  In the last moments of a second the conversion
    of the elapsed time to [float64] seconds rounds up to the next second:
    with the configuration of [New(6)], 1700000009.999999999 s after the
    base time, [GTimeLeft] returns 30 where 1 second remains.  And without a
    base time the elapsed time is outside the range of a [Duration], the
    subtraction saturates, and [GTimeLeft] returns 14 whatever the time. *)
Lemma GTimeLeft_not_remaining :
  (TimeStep (fst (New 6)) = 30 * time.Second
   /\ 0 <= elapsed_ns (fst (New 6)) (time.Unix 1700000009 999999999)
   /\ elapsed_ns (fst (New 6)) (time.Unix 1700000009 999999999) / time.Second
      = 1700000009
   /\ time_left_spec (fst (New 6)) (time.Unix 1700000009 999999999) = 1
   /\ GTimeLeft platform0 (fst (New 6)) (time.Unix 1700000009 999999999) = Ok 30)
  /\ (TimeStep otp_zero_base = 30 * time.Second
      /\ 0 <= elapsed_ns otp_zero_base (time.Unix 59 0)
      /\ elapsed_ns otp_zero_base (time.Unix 59 0) / time.Second = 62135596859
      /\ time_left_spec otp_zero_base (time.Unix 59 0) = 1
      /\ GTimeLeft platform0 otp_zero_base (time.Unix 59 0) = Ok 14
      /\ GTimeLeft platform0 otp_zero_base (time.Unix 60 0) = Ok 14).
Proof.
  repeat match goal with |- _ /\ _ => split end;
    try (vm_compute; reflexivity); vm_compute; discriminate.
Qed.

Lemma GTimeLeft_whole_seconds_witness :
  TimeStep (fst (New 6)) = 30 * time.Second
  /\ elapsed_ns (fst (New 6)) (time.Unix 1700000009 500000000)
     = 1700000009 * time.Second + 500000000
  /\ GTimeLeft platform0 (fst (New 6)) (time.Unix 1700000009 500000000) = Ok 1
  /\ time_left_spec (fst (New 6)) (time.Unix 1700000009 500000000) = 1.
Proof.
  split; [reflexivity|]. split; [reflexivity|].
  pose proof (GTimeLeft_whole_seconds platform0 (fst (New 6))
                (time.Unix 1700000009 500000000) 30
                eq_refl ltac:(lia) ltac:(vm_compute; discriminate)
                ltac:(vm_compute; split; discriminate)
                ltac:(vm_compute; discriminate)) as H.
  split; [exact (proj1 H) | exact (proj1 (proj2 H))].
Defined.

(** The rounding sets in where the hypothesis on the fraction ends: with the
    configuration of [New(6)], 1700000009 whole seconds after the base time,
    880 and 881 nanoseconds under the next second. *)
Lemma GTimeLeft_rounding_threshold :
  (2 ^ Z.log2 1700000009 + 1) * time.Second <= (time.Second - 999999880) * 2 ^ 53
  /\ GTimeLeft platform0 (fst (New 6)) (time.Unix 1700000009 999999880) = Ok 1
  /\ ~ (2 ^ Z.log2 1700000009 + 1) * time.Second
        <= (time.Second - 999999881) * 2 ^ 53
  /\ GTimeLeft platform0 (fst (New 6)) (time.Unix 1700000009 999999881) = Ok 30.
Proof.
  split; [vm_compute; discriminate|]. split; [vm_compute; reflexivity|].
  split; [|vm_compute; reflexivity]. intros H. vm_compute in H. apply H. reflexivity.
Qed.

Lemma GTimeLeft_sub_second_step_witness :
  0 < TimeStep otp_500ms < time.Second
  /\ secStep platform0 otp_500ms = 0
  /\ GTimeLeft platform0 otp_500ms (time.Unix 59 0) = Panic DivideByZero.
Proof.
  assert (H : 0 < TimeStep otp_500ms < time.Second) by (vm_compute; split; reflexivity).
  split; [exact H|].
  apply (GTimeLeft_sub_second_step platform0 otp_500ms (time.Unix 59 0) H).
Defined.

Lemma PPrint_grouped_witness :
  has_leading_space "12345678" = false
  /\ has_trailing_space "12345678" = false
  /\ PPrint "12345678" = format_grouped "12345678"
  /\ format_grouped "12345678" = "123 456 78"%string
  /\ nth 2 (chunks3 "12345678") ""%string = "78"%string.
Proof.
  split; [reflexivity|]. split; [reflexivity|]. split; [|split; [reflexivity|]].
  - apply (proj1 (proj2 (proj2 (proj2 (PPrint_grouped "12345678")))));
      reflexivity.
  - rewrite (proj1 (proj2 (proj2 (proj2 (proj2 (proj2 (proj2
               (PPrint_grouped "12345678"))))))) 2%nat).
    + reflexivity.
    + vm_compute. lia.
Defined.

(** C9 (counterexample).  White space at either end of the input goes with
    the rest: of " 12345" the first group keeps 2 characters, and of three
    spaces nothing is left. *)
Lemma PPrint_not_grouped :
  has_leading_space " 12345" = true
  /\ chunks3 " 12345" = [" 12"%string; "345"%string]
  /\ format_grouped " 12345" = " 12 345"%string
  /\ PPrint " 12345" = "12 345"%string
  /\ PPrint " 12345" <> format_grouped " 12345"
  /\ chunks3 "   " = ["   "%string]
  /\ PPrint "   " = ""%string
  /\ PPrint "abc   " = "abc"%string.
Proof.
  repeat match goal with |- _ /\ _ => split end;
    try (vm_compute; reflexivity). vm_compute. discriminate.
Qed.

(** ** Instances of the further properties *)

Lemma SHA1_digests m : (19 <= List.length (Sum SHA1.New m))%nat.
Proof. change (Sum SHA1.New m) with (SHA1.sum m). rewrite SHA1_sum_length. lia. Qed.

Lemma New_generates_witness :
  6 <= 8 <= 9
  /\ HOTP_in_range platform0 (fst (New 8)) (list_byte_of_string "SOME_SECRET") 0.
Proof.
  split; [lia|].
  apply (proj1 (proj2 (New_generates platform0 8 (list_byte_of_string "SOME_SECRET")
                         0 (time.Unix 59 0) ltac:(lia)))).
Defined.

Lemma SHA256_generates_witness :
  Hash otp_custom = Some SHA256.New
  /\ 6 <= Digit otp_custom <= 9
  /\ HOTP_in_range platform0 otp_custom (list_byte_of_string "SOME_SECRET") 0.
Proof.
  split; [reflexivity|]. split; [cbn; lia|].
  apply (proj1 (SHA256_generates platform0 otp_custom
                  (list_byte_of_string "SOME_SECRET") 0 (time.Unix 59 0)
                  eq_refl ltac:(cbn; lia))).
Defined.

Lemma failed_New_panics_witness :
  (5 < 6 \/ 9 < 5)
  /\ HOTP platform0 (fst (New 5)) rfc4226_secret 0 = Panic NilDereference.
Proof.
  assert (H : 5 < 6 \/ 9 < 5) by (left; lia).
  split; [exact H|].
  apply (proj1 (proj2 (failed_New_panics platform0 5 rfc4226_secret 0
                         rfc6238_secret_base32 (time.Unix 59 0) H))).
Defined.

Lemma HOTP_window_value_witness :
  Hash (fst (New 6)) = Some SHA1.New
  /\ 0 <= Digit (fst (New 6)) <= 19
  /\ exists hs,
       hmacSum (fst (New 6)) rfc4226_secret 0 = Ok hs
       /\ HOTP platform0 (fst (New 6)) rfc4226_secret 0
          = Ok (window_value hs mod 10 ^ Digit (fst (New 6)))
       /\ 0 <= window_value hs < 2 ^ 31
       /\ (10 <= Digit (fst (New 6)) ->
           HOTP platform0 (fst (New 6)) rfc4226_secret 0 = Ok (window_value hs)).
Proof.
  split; [reflexivity|]. split; [cbn; lia|].
  apply (HOTP_window_value platform0 (fst (New 6)) SHA1.New rfc4226_secret 0
           eq_refl SHA1_digests).
  cbn. lia.
Defined.

Lemma HOTP_degenerate_digits_witness :
  Hash otp_negative = Some SHA1.New
  /\ Digit otp_negative < 0
  /\ HOTP platform0 otp_negative rfc4226_secret 0 = Panic DivideByZero.
Proof.
  split; [reflexivity|]. split; [cbn; lia|].
  apply (proj1 (HOTP_degenerate_digits platform0 otp_negative SHA1.New
                  rfc4226_secret 0 eq_refl SHA1_digests)).
  cbn. lia.
Defined.

Lemma hmacSum_counter_witness :
  Hash (fst (New 6)) = Some SHA1.New
  /\ exists msg,
       hmacSum (fst (New 6)) rfc4226_secret 258
       = Ok (HMAC.sum SHA1.New rfc4226_secret msg)
       /\ List.length msg = 8%nat
       /\ be_value msg = 258 mod 2 ^ 64.
Proof.
  split; [reflexivity|].
  apply (hmacSum_counter (fst (New 6)) SHA1.New rfc4226_secret 258 eq_refl).
Defined.

Lemma HOTP_zero_padded_secret_witness :
  Hash (fst (New 6)) = Some SHA1.New
  /\ (List.length rfc4226_secret + 3 <= BlockSize SHA1.New)%nat
  /\ HOTP platform0 (fst (New 6)) (rfc4226_secret ++ repeat x00 3) 0
     = HOTP platform0 (fst (New 6)) rfc4226_secret 0.
Proof.
  assert (H : (List.length rfc4226_secret + 3 <= BlockSize SHA1.New)%nat)
    by (vm_compute; lia).
  split; [reflexivity|]. split; [exact H|].
  apply (HOTP_zero_padded_secret platform0 (fst (New 6)) SHA1.New rfc4226_secret 3
           0 eq_refl H).
Defined.

Lemma HOTP_long_secret_witness :
  Hash (fst (New 6)) = Some SHA1.New
  /\ (BlockSize SHA1.New < List.length (repeat x61 65))%nat
  /\ HOTP platform0 (fst (New 6)) (repeat x61 65) 0
     = HOTP platform0 (fst (New 6)) (Sum SHA1.New (repeat x61 65)) 0.
Proof.
  assert (H : (BlockSize SHA1.New < List.length (repeat x61 65))%nat)
    by (vm_compute; lia).
  split; [reflexivity|]. split; [exact H|].
  apply (HOTP_long_secret platform0 (fst (New 6)) SHA1.New (repeat x61 65) 0
           eq_refl H).
  change (Sum SHA1.New (repeat x61 65)) with (SHA1.sum (repeat x61 65)).
  rewrite SHA1_sum_length. cbn. lia.
Defined.

Lemma GTimeLeft_returns_witness :
  0 <= TimeStep (fst (New 6)) <= maxInt64
  /\ time.Second <= TimeStep (fst (New 6))
  /\ exists r, GTimeLeft platform0 (fst (New 6)) (time.Unix 59 0) = Ok r
               /\ 1 <= r <= Z.quot (TimeStep (fst (New 6))) time.Second + 1.
Proof.
  assert (H : 0 <= TimeStep (fst (New 6)) <= maxInt64)
    by (vm_compute; split; discriminate).
  assert (H' : time.Second <= TimeStep (fst (New 6))) by (vm_compute; discriminate).
  split; [exact H|]. split; [exact H'|].
  apply (proj1 (GTimeLeft_returns platform0 (fst (New 6)) (time.Unix 59 0) H) H').
Defined.

Lemma GTimeLeft_counts_down_witness :
  TimeStep (fst (New 6)) = 30 * time.Second
  /\ exists r,
       GTimeLeft platform0 (fst (New 6)) (time.Unix 59 0) = Ok r /\ 1 <= r <= 30
       /\ GTimeLeft platform0 (fst (New 6)) (after (time.Unix 59 0) 1)
          = Ok (if r =? 1 then 30 else r - 1).
Proof.
  split; [reflexivity|].
  apply (GTimeLeft_counts_down platform0 (fst (New 6)) (time.Unix 59 0) 30
           eq_refl ltac:(lia) ltac:(vm_compute; discriminate) eq_refl);
    vm_compute; discriminate.
Defined.

Lemma code_changes_when_time_runs_out_witness :
  TimeStep (fst (New 6)) = 30 * time.Second
  /\ exists r,
       GTimeLeft platform0 (fst (New 6)) (time.Unix 59 0) = Ok r
       /\ (forall k, 0 <= k < r ->
             steps platform0 (fst (New 6)) (after (time.Unix 59 0) k)
             = steps platform0 (fst (New 6)) (time.Unix 59 0)
             /\ TOTP platform0 (fst (New 6)) rfc4226_secret (after (time.Unix 59 0) k)
                = TOTP platform0 (fst (New 6)) rfc4226_secret (time.Unix 59 0))
       /\ steps platform0 (fst (New 6)) (after (time.Unix 59 0) r)
          = steps platform0 (fst (New 6)) (time.Unix 59 0) + 1.
Proof.
  split; [reflexivity|].
  apply (code_changes_when_time_runs_out platform0 (fst (New 6)) (time.Unix 59 0) 30
           rfc4226_secret eq_refl ltac:(lia) ltac:(vm_compute; discriminate) eq_refl);
    vm_compute; discriminate.
Defined.

Lemma steps_monotone_witness :
  time.Second <= TimeStep otp_1100ms <= maxInt64
  /\ steps platform0 otp_1100ms (time.Unix 1122 0)
     <= steps platform0 otp_1100ms (time.Unix 1123 0).
Proof.
  assert (H : time.Second <= TimeStep otp_1100ms <= maxInt64)
    by (vm_compute; split; discriminate).
  split; [exact H|].
  apply (steps_monotone platform0 otp_1100ms (time.Unix 1122 0) (time.Unix 1123 0) H);
    vm_compute; discriminate.
Defined.

Lemma steps_just_before_base_witness :
  TimeStep (fst (New 6)) = 30 * time.Second
  /\ steps platform0 (fst (New 6)) (time.Unix (-10) 0) = 0.
Proof.
  split; [reflexivity|].
  apply (steps_just_before_base platform0 (fst (New 6)) (time.Unix (-10) 0) 30
           eq_refl ltac:(lia)).
  - vm_compute. discriminate.
  - vm_compute. split; [reflexivity | discriminate].
Defined.

Lemma GOTP_returns_both_witness :
  GOTP platform0 (fst (New 6)) "1" (time.Unix 59 0)
  = Ok ("812658"%string, Some (CorruptInputError 0))
  /\ Some (CorruptInputError 0) = snd (base32.DecodeString "1")
  /\ (6 <= String.length "812658")%nat.
Proof.
  assert (H : GOTP platform0 (fst (New 6)) "1" (time.Unix 59 0)
              = Ok ("812658"%string, Some (CorruptInputError 0)))
    by (vm_compute; reflexivity).
  split; [exact H|].
  apply (GOTP_returns_both platform0 (fst (New 6)) "1" (time.Unix 59 0) _ _ H).
Defined.

Lemma PPrint_only_inserts_spaces_witness :
  all_digits "12345678" = true
  /\ remove_spaces (PPrint "12345678") = "12345678"%string
  /\ String.length (PPrint "12345678")
     = (String.length "12345678" + (String.length "12345678" + 2) / 3 - 1)%nat.
Proof.
  split; [reflexivity|].
  apply (PPrint_only_inserts_spaces "12345678" eq_refl).
Defined.

Lemma PPrint_two_or_three_blocks_witness :
  all_digits "1234567" = true
  /\ (6 <= String.length "1234567" <= 9)%nat
  /\ PPrint "1234567" = "123 456 7"%string.
Proof.
  split; [reflexivity|]. split; [cbn; lia|].
  apply (PPrint_two_or_three_blocks "1234567" eq_refl). cbn. lia.
Defined.
